(** * VitalSync: simulation and analytics pipeline of [app.js]

    A shallow embedding of the vitals simulator, the correlation engine, the
    risk engine and the anomaly event log, followed by the properties of
    that pipeline.

    Modelling conventions.
    - A JavaScript number is a real number ([R]); arithmetic is exact.  The
      tick counter and the anomaly schedule only ever hold integers and are
      kept in [Z].
    - [Math.round x] is [floor (x + 1/2)], [Math.floor] is [floor].
    - Where the outcome depends on how binary64 arithmetic rounds (the
      value of a Pearson coefficient, the integer a risk target is rounded
      to, the side of a status threshold a stored value falls on), the
      function is embedded a second time over primitive floats, in
      [Module Double], and the statement is made there.
    - The mutable global [state] is an explicit record threaded through
      every function.
    - [Math.random], [Date] and the locale formatter are read from a
      [World]: streams indexed by the number of reads made so far, the read
      counts being part of the threaded state.  Every theorem holds for
      every world.
    - DOM and canvas calls do not feed back into [state] and are left out;
      [renderRisks] is kept because it writes [risk.value]. *)

From Stdlib Require Import PrimFloat FloatClass.
From Stdlib Require Import String.
From Stdlib Require Import Reals Lra Lia ZArith List Bool Psatz.
Import ListNotations.
Open Scope R_scope.
Set Warnings "-inexact-float".

(* ======================== CONFIG ======================== *)

Inductive Signal := hr | spo2 | bp_sys | bp_dia | temp | rr | hrv.

Definition Signal_eqb (a b : Signal) : bool :=
  match a, b with
  | hr, hr | spo2, spo2 | bp_sys, bp_sys | bp_dia, bp_dia
  | temp, temp | rr, rr | hrv, hrv => true
  | _, _ => false
  end.

Definition sigName (s : Signal) : string :=
  match s with
  | hr => "hr" | spo2 => "spo2" | bp_sys => "bp_sys" | bp_dia => "bp_dia"
  | temp => "temp" | rr => "rr" | hrv => "hrv"
  end%string.

Definition chartPoints : nat := 40.
Definition trendPoints : nat := 60.
Definition signals : list Signal := [hr; spo2; bp_sys; bp_dia; temp; rr; hrv].
Definition trendSignals : list Signal := [hr; spo2; bp_sys; bp_dia; rr; hrv].
Definition matrixSignals : list Signal := [hr; spo2; bp_sys; temp; rr; hrv].

(* ======================== STATE ======================== *)

Record Vital := mkVital {
  value : R; baseline : R; vmin : R; vmax : R; variance : R;
  vunit : string; history : list R }.

Inductive RiskKey := cardio | respiratory | metabolic | apnea.

Record Risk := mkRisk { risk_value : R; target : R; factors : list string }.

Inductive Severity := low | medium | high.
Inductive Status := info | active | auto_resolved.

Record Event := mkEvent {
  id : Z; time : string; title : string; description : string;
  tags : list string; severity : Severity; status : Status }.

Record Stats := mkStats { total : nat; critical : nat; resolved : nat }.

Record State := mkState {
  vitals : Signal -> Vital;
  correlations : string -> option R;
  risks : RiskKey -> Risk;
  anomalies : list Event;
  anomalyStats : Stats;
  trendData : Signal -> list R;
  tick : Z;
  anomalyMode : bool;
  anomalyModeStart : Z;
  nextAnomalyTick : Z;
  n_gauss : nat;     (* calls of gaussRandom so far *)
  n_random : nat;    (* direct calls of Math.random so far *)
  n_clock : nat      (* clock reads so far *)
}.

(** The outside world: the draws accepted by the two rejection loops of
    the [k]-th [gaussRandom] call, the [k]-th direct [Math.random()], the
    [k]-th clock read, and the locale time formatter. *)
Record World := mkWorld {
  uniforms : nat -> R * R;
  Math_random : nat -> R;
  Date_now : nat -> Z;
  formatTime : Z -> string }.

Definition state0 : State := {|
  vitals := fun s => match s with
    | hr     => mkVital 72 72 55 105 3 "BPM" []
    | spo2   => mkVital 98 98 92 100 0.5 "%" []
    | bp_sys => mkVital 120 120 95 150 4 "mmHg" []
    | bp_dia => mkVital 80 80 60 100 3 "mmHg" []
    | temp   => mkVital 98.6 98.6 96.5 101 0.2 "°F" []
    | rr     => mkVital 16 16 10 25 1.5 "br/min" []
    | hrv    => mkVital 42 42 15 80 4 "ms" []
    end;
  correlations := fun _ => None;
  risks := fun k => match k with
    | cardio => mkRisk 12 12 []
    | respiratory => mkRisk 8 8 []
    | metabolic => mkRisk 15 15 []
    | apnea => mkRisk 6 6 []
    end;
  anomalies := [];
  anomalyStats := mkStats 0 0 0;
  trendData := fun _ => [];
  tick := 0;
  anomalyMode := false;
  anomalyModeStart := 0;
  nextAnomalyTick := 30;
  n_gauss := 0; n_random := 0; n_clock := 0 |}.

(** Field writes, one per assigned field of [state]. *)
Definition set_vitals f st := mkState f (correlations st) (risks st) (anomalies st) (anomalyStats st) (trendData st) (tick st) (anomalyMode st) (anomalyModeStart st) (nextAnomalyTick st) (n_gauss st) (n_random st) (n_clock st).
Definition set_correlations c st := mkState (vitals st) c (risks st) (anomalies st) (anomalyStats st) (trendData st) (tick st) (anomalyMode st) (anomalyModeStart st) (nextAnomalyTick st) (n_gauss st) (n_random st) (n_clock st).
Definition set_risks r st := mkState (vitals st) (correlations st) r (anomalies st) (anomalyStats st) (trendData st) (tick st) (anomalyMode st) (anomalyModeStart st) (nextAnomalyTick st) (n_gauss st) (n_random st) (n_clock st).
Definition set_anomalies a st := mkState (vitals st) (correlations st) (risks st) a (anomalyStats st) (trendData st) (tick st) (anomalyMode st) (anomalyModeStart st) (nextAnomalyTick st) (n_gauss st) (n_random st) (n_clock st).
Definition set_anomalyStats s st := mkState (vitals st) (correlations st) (risks st) (anomalies st) s (trendData st) (tick st) (anomalyMode st) (anomalyModeStart st) (nextAnomalyTick st) (n_gauss st) (n_random st) (n_clock st).
Definition set_trendData t st := mkState (vitals st) (correlations st) (risks st) (anomalies st) (anomalyStats st) t (tick st) (anomalyMode st) (anomalyModeStart st) (nextAnomalyTick st) (n_gauss st) (n_random st) (n_clock st).
Definition set_tick t st := mkState (vitals st) (correlations st) (risks st) (anomalies st) (anomalyStats st) (trendData st) t (anomalyMode st) (anomalyModeStart st) (nextAnomalyTick st) (n_gauss st) (n_random st) (n_clock st).
Definition set_anomalyMode b st := mkState (vitals st) (correlations st) (risks st) (anomalies st) (anomalyStats st) (trendData st) (tick st) b (anomalyModeStart st) (nextAnomalyTick st) (n_gauss st) (n_random st) (n_clock st).
Definition set_anomalyModeStart t st := mkState (vitals st) (correlations st) (risks st) (anomalies st) (anomalyStats st) (trendData st) (tick st) (anomalyMode st) t (nextAnomalyTick st) (n_gauss st) (n_random st) (n_clock st).
Definition set_nextAnomalyTick t st := mkState (vitals st) (correlations st) (risks st) (anomalies st) (anomalyStats st) (trendData st) (tick st) (anomalyMode st) (anomalyModeStart st) t (n_gauss st) (n_random st) (n_clock st).
Definition set_n_gauss n st := mkState (vitals st) (correlations st) (risks st) (anomalies st) (anomalyStats st) (trendData st) (tick st) (anomalyMode st) (anomalyModeStart st) (nextAnomalyTick st) n (n_random st) (n_clock st).
Definition set_n_random n st := mkState (vitals st) (correlations st) (risks st) (anomalies st) (anomalyStats st) (trendData st) (tick st) (anomalyMode st) (anomalyModeStart st) (nextAnomalyTick st) (n_gauss st) n (n_clock st).
Definition set_n_clock n st := mkState (vitals st) (correlations st) (risks st) (anomalies st) (anomalyStats st) (trendData st) (tick st) (anomalyMode st) (anomalyModeStart st) (nextAnomalyTick st) (n_gauss st) (n_random st) n.

(** [obj[k] = v] on an object used as a map. *)
Definition upd {A} (f : Signal -> A) (k : Signal) (v : A) : Signal -> A :=
  fun k' => if Signal_eqb k k' then v else f k'.

Definition RiskKey_eqb (a b : RiskKey) : bool :=
  match a, b with
  | cardio, cardio | respiratory, respiratory
  | metabolic, metabolic | apnea, apnea => true
  | _, _ => false
  end.

Definition updRisk (f : RiskKey -> Risk) (k : RiskKey) (v : Risk) : RiskKey -> Risk :=
  fun k' => if RiskKey_eqb k k' then v else f k'.

Definition updKey (m : string -> option R) (k : string) (v : R) : string -> option R :=
  fun k' => if String.eqb k k' then Some v else m k'.

(* ======================== UTILITIES ======================== *)

Definition Math_floor (x : R) : R := IZR (Zfloor x).
Definition Math_round (x : R) : R := IZR (Zfloor (x + 1 / 2)).

Definition clamp (v lo hi : R) : R := Rmax lo (Rmin hi v).
Definition lerp (a b t : R) : R := a + (b - a) * t.

(** The value [gaussRandom] returns from the two non-zero draws. *)
Definition boxMuller (u v : R) : R :=
  sqrt (-2.0 * ln u) * cos (2.0 * PI * v).

(** [x.slice(-n)]: the last [n] elements. *)
Definition slice_last {A} (n : nat) (x : list A) : list A :=
  skipn (length x - n) x.

(** [xs.reduce((a, b) => a + b, 0)] *)
Definition sum (xs : list R) : R := fold_left Rplus xs 0.

(** One iteration of the accumulation loop of [pearsonCorrelation]. *)
Definition pearsonStep (mx my : R) (acc : R * R * R) (p : R * R) : R * R * R :=
  let '(num, dx, dy) := acc in
  let xd := fst p - mx in
  let yd := snd p - my in
  (num + xd * yd, dx + xd * xd, dy + yd * yd).

(** The coefficient in exact arithmetic; [Double.pearsonCorrelation] is
    the same function on binary64 values. *)
Definition pearsonCorrelation (x y : list R) : R :=
  let n := Nat.min (length x) (length y) in
  if (n <? 5)%nat then 0 else
  let xs := slice_last n x in
  let ys := slice_last n y in
  let mx := sum xs / INR n in
  let my := sum ys / INR n in
  let '(num, dx, dy) := fold_left (pearsonStep mx my) (combine xs ys) (0, 0, 0) in
  let denom := sqrt (dx * dy) in
  if Req_dec_T denom 0 then 0 else num / denom.

Section Engine.

Variable W : World.

Definition gaussRandom (st : State) : R * State :=
  let uv := uniforms W (n_gauss st) in
  (boxMuller (fst uv) (snd uv), set_n_gauss (S (n_gauss st)) st).

Definition random (st : State) : R * State :=
  (Math_random W (n_random st), set_n_random (S (n_random st)) st).

Definition readClock (st : State) : Z * State :=
  (Date_now W (n_clock st), set_n_clock (S (n_clock st)) st).

(* ======================== ANOMALY EVENTS ======================== *)

Definition isCritical (a : Event) : bool :=
  match severity a, status a with
  | high, _ => true
  | _, active => true
  | _, _ => false
  end.

Definition isResolved (a : Event) : bool :=
  match status a with auto_resolved => true | _ => false end.

Definition addAnomaly (status : Status) (title description : string)
    (tags : list string) (severity : Severity) (st : State) : State :=
  let '(now, st) := readClock st in
  let '(i, st) := readClock st in
  let ev := mkEvent i (formatTime W now) title description tags severity status in
  let l := ev :: anomalies st in                                  (* unshift *)
  let l := if (15 <? length l)%nat then removelast l else l in   (* pop *)
  let st := set_anomalies l st in
  set_anomalyStats
    (mkStats (length l)
             (length (filter isCritical l))
             (length (filter isResolved l))) st.

(* ======================== VITALS SIMULATOR ======================== *)

(** The [switch (signal)] of the anomaly branch. *)
Definition anomalyDrift (signal : Signal) (severity newVal : R) (st : State)
    : R * State :=
  match signal with
  | hr     => let '(g, st) := gaussRandom st in (newVal + (severity * 8 + g * 2), st)
  | spo2   => let '(g, st) := gaussRandom st in (newVal - (severity * 2.5 + Rabs g * 0.5), st)
  | rr     => let '(g, st) := gaussRandom st in (newVal + (severity * 4 + g), st)
  | hrv    => let '(g, st) := gaussRandom st in (newVal - (severity * 10 + Rabs g * 2), st)
  | bp_sys => let '(g, st) := gaussRandom st in (newVal + (severity * 6 + g * 2), st)
  | temp   => let '(g, st) := gaussRandom st in (newVal + (severity * 0.6 + g * 0.1), st)
  | bp_dia => (newVal, st)
  end.

(** The auto-resolve block, run when [elapsed > 20]. *)
Definition autoResolve (tick : Z) (st : State) : State :=
  let st := set_anomalyMode false st in
  let st := addAnomaly auto_resolved "Multi-Signal Pattern Normalized"
      "Correlation patterns have returned to baseline. The transient divergence resolved without intervention."
      ["HR"; "SpO2"; "HRV"]%string low st in
  let '(r, st) := random st in
  set_nextAnomalyTick (tick + 25 + Zfloor (r * 20))%Z st.

(** Lines 117-119: the three rounding tests. *)
Definition roundVital (signal : Signal) (newVal : R) : R :=
  let newVal := if Signal_eqb signal spo2 then Math_round (newVal * 10) / 10 else newVal in
  if Signal_eqb signal temp then Math_round (newVal * 10) / 10
  else if negb (Signal_eqb signal spo2) then Math_round (newVal * 10) / 10
  else newVal.

(** [history.push(newVal); if (history.length > cap) history.shift()] *)
Definition pushCapped (cap : nat) (h : list R) (x : R) : list R :=
  let h := h ++ [x] in
  if (cap <? length h)%nat then tl h else h.

(** Lines 83-114: the tentative value with the anomaly drift, and the
    auto-resolve side effect. *)
Definition drifted (signal : Signal) (st : State) : R * State :=
  let v := vitals st signal in
  let tick := tick st in
  let circadian := sin (IZR tick * 0.02) * variance v * 0.5 in
  let '(g, st) := gaussRandom st in
  let noise := g * variance v in
  let reversion := (baseline v - value v) * 0.08 in
  let newVal := value v + reversion + circadian * 0.1 + noise in
  if anomalyMode st then
    let elapsed := (tick - anomalyModeStart st)%Z in
    let severity := Rmin (IZR elapsed / 15) 1 in
    let '(newVal, st) := anomalyDrift signal severity newVal st in
    (newVal, if (20 <? elapsed)%Z then autoResolve tick st else st)
  else (newVal, st).

Definition generateVital (signal : Signal) (st : State) : State :=
  let v := vitals st signal in
  let '(newVal, st) := drifted signal st in
  let newVal := clamp newVal (vmin v) (vmax v) in
  let newVal := roundVital signal newVal in
  let v' := mkVital newVal (baseline v) (vmin v) (vmax v) (variance v) (vunit v)
                    (pushCapped chartPoints (history v) newVal) in
  set_vitals (upd (vitals st) signal v') st.

Definition storeTrend (st : State) (s : Signal) : State :=
  set_trendData
    (upd (trendData st) s
         (pushCapped trendPoints (trendData st s) (value (vitals st s)))) st.

(* ======================== CORRELATION ENGINE ======================== *)

Definition corrKey (a b : Signal) : string :=
  (sigName a ++ "_" ++ sigName b)%string.

Definition corrCell (i : Signal) (st : State) (j : Signal) : State :=
  let key := corrKey i j in
  if Signal_eqb i j then set_correlations (updKey (correlations st) key 1) st
  else
    let x := history (vitals st i) in
    let y := history (vitals st j) in
    set_correlations (updKey (correlations st) key (pearsonCorrelation x y)) st.

Definition updateCorrelations (st : State) : State :=
  fold_left (fun st i => fold_left (corrCell i) matrixSignals st) matrixSignals st.

(* ======================== RISK PREDICTION ENGINE ======================== *)

(** [state.correlations[k] || 0] *)
Definition corrOr0 (st : State) (k : string) : R :=
  match correlations st k with Some c => c | None => 0 end.

(** The relative deviation; no baseline of the configuration is 0, and
    [Double.dev] has the division as the code performs it. *)
Definition dev (v : Vital) : R := Rabs (value v - baseline v) / baseline v.

Definition pick {A} (b : bool) (x y : A) : A := if b then x else y.
Definition Rltb (x y : R) : bool := if Rlt_dec x y then true else false.

Definition updateRisks (st : State) : State :=
  let v := vitals st in
  let hrDev := dev (v hr) in
  let bpDev := dev (v bp_sys) in
  let hrvDev := dev (v hrv) in
  let hrBpCorr := Rabs (corrOr0 st "hr_bp_sys") in
  let cardioRisk := (hrDev * 30 + bpDev * 25 + hrvDev * 25 + hrBpCorr * 20) * 100 in
  let cardioRisk := clamp cardioRisk 3 95 in
  let r := risks st in
  let r := updRisk r cardio (mkRisk (risk_value (r cardio)) (Math_round cardioRisk)
    [ ("HR-BP Sync: " ++ pick (Rltb 0.5 hrBpCorr) "Elevated" "Normal")%string;
      ("HRV Stability: " ++ pick (Rltb hrvDev 0.15) "Good"
                               (pick (Rltb hrvDev 0.3) "Fair" "Poor"))%string ]) in
  let spo2Dev := dev (v spo2) in
  let rrDev := dev (v rr) in
  let spo2RrCorr := Rabs (corrOr0 st "spo2_rr") in
  let respRisk := (spo2Dev * 35 + rrDev * 30 + hrDev * 15 + spo2RrCorr * 20) * 100 in
  let respRisk := clamp respRisk 2 95 in
  let r := updRisk r respiratory (mkRisk (risk_value (r respiratory)) (Math_round respRisk)
    [ ("SpO2-RR Sync: " ++ pick (Rltb 0.5 spo2RrCorr) "Diverging" "Normal")%string;
      ("Breathing Pattern: " ++ pick (Rltb rrDev 0.15) "Regular" "Irregular")%string ]) in
  let tempDev := dev (v temp) in
  let tempHrCorr := Rabs (corrOr0 st "temp_hr") in
  let metaRisk := (tempDev * 30 + hrDev * 25 + bpDev * 20 + tempHrCorr * 25) * 100 in
  let metaRisk := clamp metaRisk 3 95 in
  let r := updRisk r metabolic (mkRisk (risk_value (r metabolic)) (Math_round metaRisk)
    [ ("Temp-HR Pattern: " ++ pick (Rltb 0.5 tempHrCorr) "Coupling" "Normal")%string;
      ("Circadian Rhythm: " ++ pick (Rltb tempDev 0.005) "Aligned" "Shifted")%string ]) in
  let spo2HrvCorr := Rabs (corrOr0 st "spo2_hrv") in
  let apneaRisk := (spo2Dev * 35 + rrDev * 25 + hrvDev * 20 + spo2HrvCorr * 20) * 100 in
  let apneaRisk := clamp apneaRisk 1 95 in
  let r := updRisk r apnea (mkRisk (risk_value (r apnea)) (Math_round apneaRisk)
    [ ("Night SpO2 Dips: " ++ pick (Rltb 0.02 spo2Dev) "Detected" "None")%string;
      ("RR Irregularity: " ++ pick (Rltb rrDev 0.1) "Low" "Moderate")%string ]) in
  set_risks r st.

(* ======================== RISK GAUGES ======================== *)

(** The only state write of [renderRisks]: the smoothing of [risk.value]. *)
Definition smooth (r : Risk) : Risk :=
  mkRisk (lerp (risk_value r) (target r) 0.1) (target r) (factors r).

Definition renderRisks (st : State) : State :=
  set_risks (fun k => smooth (risks st k)) st.

(* ======================== TICK ======================== *)

Definition maybeTrigger (st : State) : State :=
  if negb (anomalyMode st) && (nextAnomalyTick st <=? tick st)%Z then
    let st := set_anomalyMode true st in
    let st := set_anomalyModeStart (tick st) st in
    addAnomaly active "Multi-Signal Correlation Divergence Detected"
      "HR-SpO2 inverse correlation strengthening while HRV is declining. This pattern may indicate early-stage autonomic stress response. Monitoring closely."
      ["HR↔SpO2"; "HRV Decline"; "Correlation Shift"]%string medium st
  else st.

Definition updateAllVitals (st : State) : State :=
  let st := set_tick (tick st + 1)%Z st in
  let st := maybeTrigger st in
  let st := fold_left (fun st s => generateVital s st) signals st in
  let st := fold_left storeTrend trendSignals st in
  let st := updateCorrelations st in
  let st := updateRisks st in
  renderRisks st.

(** [n] timer callbacks. *)
Fixpoint run (n : nat) (st : State) : State :=
  match n with
  | O => st
  | S n => updateAllVitals (run n st)
  end.

(* ======================== INITIALIZATION ======================== *)

Definition prefillHistory (st : State) (signal : Signal) : State :=
  let v := vitals st signal in
  let '(g, st) := gaussRandom st in
  let noise := g * variance v * 0.5 in
  let val := clamp (baseline v + noise) (vmin v) (vmax v) in
  let v := vitals st signal in
  let v' := mkVital (value v) (baseline v) (vmin v) (vmax v) (variance v) (vunit v)
                    (history v ++ [Math_round (val * 10) / 10]) in
  set_vitals (upd (vitals st) signal v') st.

Definition prefillTrend (st : State) (s : Signal) : State :=
  let v := vitals st s in
  let '(g, st) := gaussRandom st in
  let noise := g * variance v * 0.5 in
  set_trendData
    (upd (trendData st) s
         (trendData st s ++ [clamp (baseline v + noise) (vmin v) (vmax v)])) st.

(** [for (let i = 0; i < n; i++) body] *)
Fixpoint times {A} (n : nat) (body : A -> A) (a : A) : A :=
  match n with
  | O => a
  | S n => times n body (body a)
  end.

Definition init (st : State) : State :=
  let st := fold_left (fun st s => times 15 (fun st => prefillHistory st s) st) signals st in
  let st := fold_left (fun st s => times 20 (fun st => prefillTrend st s) st) trendSignals st in
  let st := updateCorrelations st in
  let st := updateRisks st in
  let st := renderRisks st in
  addAnomaly info "System Initialized — Correlation Monitoring Active"
    "Multi-signal correlation engine is online. Monitoring 6 physiological signals with real-time cross-correlation analysis. Early-stage risk prediction active."
    ["System"; "All Signals"; "Baseline Set"]%string low st.

End Engine.

(* ======================== RENDERING ======================== *)

(** The values the renderers compute before handing them to the DOM or the
    canvas; the DOM and canvas calls themselves are not modelled. *)

Definition Rleb (x y : R) : bool := if Rle_dec x y then true else false.

(** [getCorrelationColor]: the three colour channels and the opacity of
    the [rgba(...)] string. *)
Definition getCorrelationColor (val : R) : (nat * nat * nat) * R :=
  let absVal := Rabs val in
  if Rleb 0.7 val then ((0, 255, 136)%nat, 0.3 + absVal * 0.5)
  else if Rleb 0.3 val then ((0, 212, 255)%nat, 0.2 + absVal * 0.4)
  else if Rleb (-0.3) val then ((108, 114, 147)%nat, 0.15 + absVal * 0.3)
  else if Rleb (-0.7) val then ((255, 184, 0)%nat, 0.2 + absVal * 0.4)
  else ((255, 0, 110)%nat, 0.3 + absVal * 0.5).

(** [renderRisks], lines 476-478: arrow, class and label of the trend
    element, computed from the smoothed value. *)
Definition riskArrow (risk : Risk) : string :=
  if Rltb (target risk + 2) (risk_value risk) then "↗"
  else if Rltb (risk_value risk) (target risk - 2) then "↘"
  else "→".

Definition riskClass (risk : Risk) : string :=
  if Rltb 40 (risk_value risk) then "trend-high"
  else if Rltb 25 (risk_value risk) then "trend-rising"
  else "trend-stable".

Definition riskLabel (risk : Risk) : string :=
  if Rltb (risk_value risk) 20 then "Low risk"
  else if Rltb (risk_value risk) 40 then "Moderate"
  else "Elevated".

(** [renderGauge]: the dial and the end angle of the value arc. *)
Definition startAngle : R := 0.75 * PI.
Definition endAngle : R := 2.25 * PI.
Definition sweep : R := endAngle - startAngle.
Definition valAngle (value : R) : R := startAngle + (value / 100) * sweep.

(** [maxVal - minVal || 1] *)
Definition chartRange (minVal maxVal : R) : R :=
  if Req_dec_T (maxVal - minVal) 0 then 1 else maxVal - minVal.

(** [renderMiniChart]: the canvas point drawn for [data[i]] on a canvas
    of [w] by [h] pixels. *)
Definition miniChartPoint (w h minVal maxVal : R) (data : list R) (i : nat) : R * R :=
  let padding := 4 in
  let range := chartRange minVal maxVal in
  (padding + (INR i / (INR (length data) - 1)) * (w - padding * 2),
   padding + (1 - (nth i data 0 - minVal) / range) * (h - padding * 2)).

(* ======================== SPECIFICATION VOCABULARY ======================== *)

(** Rounding to one decimal place, as every branch of lines 117-119 does. *)
Definition round1 (x : R) : R := Math_round (x * 10) / 10.

(** [x] is a multiple of 0.1. *)
Definition onGrid (x : R) : Prop := exists z : Z, x * 10 = IZR z.

(** The signal invariant: bounds that are multiples of 0.1 (as all default
    bounds are), the value within them, the chart history within capacity. *)
Definition vitalInv (v : Vital) : Prop :=
  onGrid (vmin v) /\ onGrid (vmax v) /\ vmin v <= vmax v /\
  vmin v <= value v <= vmax v /\
  (length (history v) <= chartPoints)%nat.

Definition Inv (st : State) : Prop :=
  forall s, vitalInv (vitals st s) /\ (length (trendData st s) <= trendPoints)%nat.

(** The part of the invariant that no step of the engine ever writes. *)
Definition static (v : Vital) : Prop :=
  onGrid (vmin v) /\ onGrid (vmax v) /\ vmin v <= vmax v /\
  vmin v <= value v <= vmax v.

Definition histLen (st : State) (s : Signal) : nat := length (history (vitals st s)).
Definition trendLen (st : State) (s : Signal) : nat := length (trendData st s).
Definition hit (s s' : Signal) : nat := if Signal_eqb s s' then 1%nat else 0%nat.

(** The value the [k]-th call of [gaussRandom] returns. *)
Definition gaussAt (W : World) (k : nat) : R :=
  boxMuller (fst (uniforms W k)) (snd (uniforms W k)).

(** Line 90: the tentative value before any anomaly drift. *)
Definition baseValue (tick : Z) (g : R) (v : Vital) : R :=
  value v + (baseline v - value v) * 0.08
  + sin (IZR tick * 0.02) * variance v * 0.5 * 0.1 + g * variance v.

(** Lines 116-123: clamp, round, store and push on the chart history. *)
Definition store (v : Vital) (x : R) : Vital :=
  let y := round1 (clamp x (vmin v) (vmax v)) in
  mkVital y (baseline v) (vmin v) (vmax v) (variance v) (vunit v)
          (pushCapped chartPoints (history v) y).

(** [n] successive advances of one signal. *)
Definition advances (W : World) (s : Signal) (n : nat) (st : State) : State :=
  times n (generateVital W s) st.

(** A signal advanced with noise and anomaly drift disabled: zero variance,
    no episode in progress, value and baseline on the 0.1 grid and within
    the bounds. *)
Definition quiet (s : Signal) (st : State) : Prop :=
  let v := vitals st s in
  anomalyMode st = false /\ variance v = 0 /\
  onGrid (value v) /\ onGrid (baseline v) /\
  vmin v <= value v <= vmax v /\ vmin v <= baseline v <= vmax v.

(** A world without noise: both uniform draws are 1, so that every
    Gaussian sample is [sqrt (-2 ln 1) * cos (2 PI) = 0]. *)
Definition world0 : World :=
  mkWorld (fun _ => (1, 1)) (fun _ => 0) (fun _ => 0%Z) (fun _ => EmptyString).

(** The default state with every variance set to zero and the heart rate
    half a beat above its baseline. *)
Definition stuckState : State :=
  set_vitals (fun s =>
    let v := vitals state0 s in
    mkVital (match s with hr => 72.5 | _ => value v end)
            (baseline v) (vmin v) (vmax v) 0 (vunit v) (history v)) state0.

(** The coefficient [updateCorrelations] writes for the pair [(i, j)]. *)
Definition corrValue (st : State) (i j : Signal) : R :=
  if Signal_eqb i j then 1
  else pearsonCorrelation (history (vitals st i)) (history (vitals st j)).

(** The pairs in the order the two nested loops visit them. *)
Definition matrixPairs : list (Signal * Signal) :=
  flat_map (fun i => map (pair i) matrixSignals) matrixSignals.

(** The last pair of [ps] whose key is [k]: the write that survives. *)
Definition lastWrite (ps : list (Signal * Signal)) (k : string)
    : option (Signal * Signal) :=
  find (fun p => String.eqb (corrKey (fst p) (snd p)) k) (rev ps).

(** Sums of products of deviations, as accumulated by the loop of
    [pearsonCorrelation]. *)
Definition sqdev (m : R) (xs : list R) : R :=
  sum (map (fun x => (x - m) * (x - m)) xs).

Definition codev (mx my : R) (ps : list (R * R)) : R :=
  sum (map (fun p => (fst p - mx) * (snd p - my)) ps).

(** Mean of a series. *)
Definition mean (xs : list R) : R := sum xs / INR (length xs).

(** The risk scores in the words of the specification: absolute relative
    deviations from baseline and absolute correlation coefficients of the
    chart histories, weighted, times 100. *)
Definition relDev (st : State) (s : Signal) : R :=
  Rabs (value (vitals st s) - baseline (vitals st s)) / baseline (vitals st s).

Definition absCorr (st : State) (i j : Signal) : R :=
  Rabs (pearsonCorrelation (history (vitals st i)) (history (vitals st j))).

Definition weighted (k : RiskKey) (st : State) : R :=
  match k with
  | cardio =>
      (relDev st hr * 30 + relDev st bp_sys * 25 + relDev st hrv * 25
       + absCorr st hr bp_sys * 20) * 100
  | respiratory =>
      (relDev st spo2 * 35 + relDev st rr * 30 + relDev st hr * 15
       + absCorr st spo2 rr * 20) * 100
  | metabolic =>
      (relDev st temp * 30 + relDev st hr * 25 + relDev st bp_sys * 20
       + absCorr st temp hr * 25) * 100
  | apnea =>
      (relDev st spo2 * 35 + relDev st rr * 25 + relDev st hrv * 20
       + absCorr st spo2 hrv * 20) * 100
  end.

Definition riskFloor (k : RiskKey) : R :=
  match k with cardio => 3 | respiratory => 2 | metabolic => 3 | apnea => 1 end.

(** The state a tick hands to [updateRisks]. *)
Definition beforeRisks (W : World) (st : State) : State :=
  updateCorrelations
    (fold_left storeTrend trendSignals
       (fold_left (fun st s => generateVital W s st) signals
          (maybeTrigger W (set_tick (tick st + 1)%Z st)))).

(** Position of a signal in the processing order [signals]. *)
Definition sigIndex (s : Signal) : nat :=
  match s with
  | hr => 0 | spo2 => 1 | bp_sys => 2 | bp_dia => 3 | temp => 4 | rr => 5 | hrv => 6
  end.

(** [generateVital] when no episode is in progress. *)
Definition idleGen (W : World) (s : Signal) (st : State) : State :=
  set_vitals (upd (vitals st) s
                  (store (vitals st s)
                         (baseValue (tick st) (gaussAt W (n_gauss st)) (vitals st s))))
             (set_n_gauss (S (n_gauss st)) st).

(** The fields the anomaly state machine reads and writes. *)
Definition ctl (st : State) :=
  (tick st, anomalyMode st, anomalyModeStart st, nextAnomalyTick st,
   anomalies st, anomalyStats st, n_random st, n_clock st).

(** The test that makes an advance end the episode. *)
Definition resolving (st : State) : bool :=
  anomalyMode st && (20 <? tick st - anomalyModeStart st)%Z.

(** [unshift] followed by the capacity [pop] of [addAnomaly]. *)
Definition pushEvent (ev : Event) (l : list Event) : list Event :=
  if (15 <? length (ev :: l))%nat then removelast (ev :: l) else ev :: l.

(** The two events the state machine emits, as built by [addAnomaly] from
    the clock reads number [c] and [c + 1]. *)
Definition resolvedEvent (W : World) (c : nat) : Event :=
  mkEvent (Date_now W (S c)) (formatTime W (Date_now W c))
    "Multi-Signal Pattern Normalized"
    "Correlation patterns have returned to baseline. The transient divergence resolved without intervention."
    ["HR"; "SpO2"; "HRV"]%string low auto_resolved.

Definition activeEvent (W : World) (c : nat) : Event :=
  mkEvent (Date_now W (S c)) (formatTime W (Date_now W c))
    "Multi-Signal Correlation Divergence Detected"
    "HR-SpO2 inverse correlation strengthening while HRV is declining. This pattern may indicate early-stage autonomic stress response. Monitoring closely."
    ["HR↔SpO2"; "HRV Decline"; "Correlation Shift"]%string medium active.

(** The aggregates [addAnomaly] recomputes from the log. *)
Definition statsOf (l : list Event) : Stats :=
  mkStats (length l) (length (filter isCritical l)) (length (filter isResolved l)).

(** The state a tick hands to the signal loop. *)
Definition triggered (W : World) (st : State) : State :=
  maybeTrigger W (set_tick (tick st + 1)%Z st).

(** The default state with an episode due on the very next tick. *)
Definition dueState : State := set_nextAnomalyTick 1 state0.

(** The schedule of the anomaly state machine. *)
Definition sched (st : State) := (tick st, anomalyMode st, nextAnomalyTick st).

(** A request to [addAnomaly]: status, title, description, tags, severity. *)
Definition Request : Type := Status * string * string * list string * Severity.

Definition logAppend (W : World) (st : State) (r : Request) : State :=
  let '(s, t, d, g, v) := r in addAnomaly W s t d g v st.

(** The event [addAnomaly] builds for a request when [c] clock reads have
    been made. *)
Definition eventOf (W : World) (c : nat) (r : Request) : Event :=
  let '(s, t, d, g, v) := r in
  mkEvent (Date_now W (S c)) (formatTime W (Date_now W c)) t d g v s.

(** The default state late in an episode: active since tick 0, at tick 21. *)
Definition lateState : State := set_anomalyMode true (set_tick 21 state0).


(** Every stored sample of a signal: chart history entries are within the
    bounds and multiples of 0.1, trend entries are within the bounds. *)
Definition samplesInv (st : State) : Prop :=
  forall s,
    Forall (fun x => vmin (vitals st s) <= x <= vmax (vitals st s) /\ onGrid x)
           (history (vitals st s)) /\
    Forall (fun x => vmin (vitals st s) <= x <= vmax (vitals st s))
           (trendData st s).

(** Initialisation keeps the configuration and stores only clamped (and,
    for the chart history, rounded) samples. *)
Definition seeded (st : State) : Prop :=
  (forall s, static (vitals st s)) /\ samplesInv st.

(** Length of a capped series after one more push. *)
Definition pushLen (cap n : nat) : nat := if (cap <? S n)%nat then n else S n.

(** The two states of the anomaly machine as they are left by a tick:
    an episode of elapsed time 0..20, or a countdown to a future trigger. *)
Definition machineInv (st : State) : Prop :=
  if anomalyMode st
  then (0 <= tick st - anomalyModeStart st <= 20)%Z
  else (tick st < nextAnomalyTick st)%Z.

(** A well-behaved [Math.random]: every draw is in [0, 1). *)
Definition unitRandom (W : World) : Prop := forall k, 0 <= Math_random W k < 1.

(** The log invariant: at most 15 events, aggregates in step with the log,
    and only the three events the engine ever emits. *)
Definition engineEvent (e : Event) : Prop :=
  (status e = info /\ severity e = low) \/
  (status e = active /\ severity e = medium) \/
  (status e = auto_resolved /\ severity e = low).

Definition logInv (st : State) : Prop :=
  (length (anomalies st) <= 15)%nat /\
  anomalyStats st = statsOf (anomalies st) /\
  Forall engineEvent (anomalies st).

Definition isActive (a : Event) : bool :=
  match status a with active => true | _ => false end.

(** The range of the risk scores: stored targets within the category
    range, smoothed values within [1, 95]. *)
Definition riskInv (st : State) : Prop :=
  forall k,
    1 <= risk_value (risks st k) <= 95 /\
    riskFloor k <= target (risks st k) <= 95 /\
    (exists z : Z, target (risks st k) = IZR z).


(* ======================== BINARY64 ARITHMETIC ======================== *)

(** The correlation engine, the risk engine and the status thresholds once
    more, with a JavaScript number as what it is at run time: an IEEE 754
    binary64 value.  [+], [-], [*], [/], [Math.sqrt], [Math.abs] and the
    comparisons are the primitive operations on [float];  [Math.min],
    [Math.max], [Math.floor] and [Math.round] are written out from their
    definition in ECMA-262.  Whatever depends on how a result is rounded
    is stated about these definitions. *)

Module Double.

Local Open Scope float_scope.

(** [x !== x] *)
Definition isNaN (x : float) : bool := negb (x =? x).

(** The sign bit: set on the negative numbers and on [-0]. *)
Definition signBit (x : float) : bool :=
  match classify x with
  | NNormal | NSubn | NZero | NInf => true
  | _ => false
  end.

(** [Math.min] and [Math.max] of two numbers: [NaN] if either is, and
    [-0] below [+0]. *)
Definition Math_min (a b : float) : float :=
  if isNaN a || isNaN b then nan
  else if a <? b then a
  else if b <? a then b
  else if signBit a then a else b.

Definition Math_max (a b : float) : float :=
  if isNaN a || isNaN b then nan
  else if a <? b then b
  else if b <? a then a
  else if signBit a then b else a.

Definition clamp (v lo hi : float) : float := Math_max lo (Math_min hi v).
Definition lerp (a b t : float) : float := a + (b - a) * t.

(** [2^52]: from here on every binary64 value is an integer. *)
Definition two52 : float := 4503599627370496.

(** [Math.floor].  Below [2^52] in magnitude, adding and then subtracting
    [2^52] (on the side of [x]) rounds [x] to an integer; that integer is
    the floor unless it lies above [x], and then the floor is one less.
    Zeros, infinities, [NaN] and the integers from [2^52] on are returned
    as they are. *)
Definition Math_floor (x : float) : float :=
  if (PrimFloat.abs x <? two52) && negb (x =? 0) then
    let r := if 0 <=? x then (x + two52) - two52 else (x - two52) + two52 in
    if x <? r then r - 1 else r
  else x.

(** [Math.round]: the nearest integer, the larger one in a tie; the sign
    of [x] is kept when the result is zero. *)
Definition Math_round (x : float) : float :=
  let f := Math_floor x in
  let r := if 0.5 <=? x - f then f + 1 else f in
  if (r =? 0) && signBit x then neg_zero else r.

(** An integer as a number; exact below [2^53]. *)
Fixpoint ofPos (p : positive) : float :=
  match p with
  | xH => 1
  | xO q => 2 * ofPos q
  | xI q => 2 * ofPos q + 1
  end.

Definition ofZ (z : Z) : float :=
  match z with
  | Z0 => 0
  | Zpos p => ofPos p
  | Zneg p => - ofPos p
  end.

Definition ofNat (n : nat) : float := ofZ (Z.of_nat n).

(** [xs.reduce((a, b) => a + b, 0)] *)
Definition sum (xs : list float) : float := fold_left add xs 0.

(** One iteration of the accumulation loop of [pearsonCorrelation]. *)
Definition pearsonStep (mx my : float) (acc : float * float * float)
    (p : float * float) : float * float * float :=
  let '(num, dx, dy) := acc in
  let xd := fst p - mx in
  let yd := snd p - my in
  (num + xd * yd, dx + xd * xd, dy + yd * yd).

Definition pearsonCorrelation (x y : list float) : float :=
  let n := Nat.min (length x) (length y) in
  if (n <? 5)%nat then 0 else
  let xs := slice_last n x in
  let ys := slice_last n y in
  let mx := sum xs / ofNat n in
  let my := sum ys / ofNat n in
  let '(num, dx, dy) := fold_left (pearsonStep mx my) (combine xs ys) (0, 0, 0) in
  let denom := PrimFloat.sqrt (dx * dy) in
  if denom =? 0 then 0 else num / denom.

(** The part of [state] that the correlation engine and the risk engine
    read and write. *)
Record Vital := mkVital {
  value : float; baseline : float; vmin : float; vmax : float; variance : float;
  vunit : string; history : list float }.

Record Risk := mkRisk { risk_value : float; target : float; factors : list string }.

Record State := mkState {
  vitals : Signal -> Vital;
  correlations : string -> option float;
  risks : RiskKey -> Risk }.

Definition state0 : State := {|
  vitals := fun s => match s with
    | hr     => mkVital 72 72 55 105 3 "BPM" []
    | spo2   => mkVital 98 98 92 100 0.5 "%" []
    | bp_sys => mkVital 120 120 95 150 4 "mmHg" []
    | bp_dia => mkVital 80 80 60 100 3 "mmHg" []
    | temp   => mkVital 98.6 98.6 96.5 101 0.2 "°F" []
    | rr     => mkVital 16 16 10 25 1.5 "br/min" []
    | hrv    => mkVital 42 42 15 80 4 "ms" []
    end;
  correlations := fun _ => None;
  risks := fun k => match k with
    | cardio => mkRisk 12 12 []
    | respiratory => mkRisk 8 8 []
    | metabolic => mkRisk 15 15 []
    | apnea => mkRisk 6 6 []
    end |}.

Definition set_vitals f st := mkState f (correlations st) (risks st).
Definition set_correlations c st := mkState (vitals st) c (risks st).
Definition set_risks r st := mkState (vitals st) (correlations st) r.

Definition updRisk (f : RiskKey -> Risk) (k : RiskKey) (v : Risk) : RiskKey -> Risk :=
  fun k' => if RiskKey_eqb k k' then v else f k'.

Definition updKey (m : string -> option float) (k : string) (v : float)
    : string -> option float :=
  fun k' => if String.eqb k k' then Some v else m k'.

Definition corrCell (i : Signal) (st : State) (j : Signal) : State :=
  let key := corrKey i j in
  if Signal_eqb i j then set_correlations (updKey (correlations st) key 1) st
  else
    let x := history (vitals st i) in
    let y := history (vitals st j) in
    set_correlations (updKey (correlations st) key (pearsonCorrelation x y)) st.

Definition updateCorrelations (st : State) : State :=
  fold_left (fun st i => fold_left (corrCell i) matrixSignals st) matrixSignals st.

(** [c || 0]: [NaN] and both zeros are falsy. *)
Definition orZero (c : float) : float :=
  if isNaN c || (c =? 0) then 0 else c.

(** [state.correlations[k] || 0] *)
Definition corrOr0 (st : State) (k : string) : float :=
  match correlations st k with Some c => orZero c | None => 0 end.

Definition dev (v : Vital) : float :=
  PrimFloat.abs (value v - baseline v) / baseline v.

Definition updateRisks (st : State) : State :=
  let v := vitals st in
  let hrDev := dev (v hr) in
  let bpDev := dev (v bp_sys) in
  let hrvDev := dev (v hrv) in
  let hrBpCorr := PrimFloat.abs (corrOr0 st "hr_bp_sys") in
  let cardioRisk := (hrDev * 30 + bpDev * 25 + hrvDev * 25 + hrBpCorr * 20) * 100 in
  let cardioRisk := clamp cardioRisk 3 95 in
  let r := risks st in
  let r := updRisk r cardio (mkRisk (risk_value (r cardio)) (Math_round cardioRisk)
    [ ("HR-BP Sync: " ++ pick (0.5 <? hrBpCorr)%float "Elevated" "Normal")%string;
      ("HRV Stability: " ++ pick (hrvDev <? 0.15)%float "Good"
                               (pick (hrvDev <? 0.3)%float "Fair" "Poor"))%string ]) in
  let spo2Dev := dev (v spo2) in
  let rrDev := dev (v rr) in
  let spo2RrCorr := PrimFloat.abs (corrOr0 st "spo2_rr") in
  let respRisk := (spo2Dev * 35 + rrDev * 30 + hrDev * 15 + spo2RrCorr * 20) * 100 in
  let respRisk := clamp respRisk 2 95 in
  let r := updRisk r respiratory (mkRisk (risk_value (r respiratory)) (Math_round respRisk)
    [ ("SpO2-RR Sync: " ++ pick (0.5 <? spo2RrCorr)%float "Diverging" "Normal")%string;
      ("Breathing Pattern: " ++ pick (rrDev <? 0.15)%float "Regular" "Irregular")%string ]) in
  let tempDev := dev (v temp) in
  let tempHrCorr := PrimFloat.abs (corrOr0 st "temp_hr") in
  let metaRisk := (tempDev * 30 + hrDev * 25 + bpDev * 20 + tempHrCorr * 25) * 100 in
  let metaRisk := clamp metaRisk 3 95 in
  let r := updRisk r metabolic (mkRisk (risk_value (r metabolic)) (Math_round metaRisk)
    [ ("Temp-HR Pattern: " ++ pick (0.5 <? tempHrCorr)%float "Coupling" "Normal")%string;
      ("Circadian Rhythm: " ++ pick (tempDev <? 0.005)%float "Aligned" "Shifted")%string ]) in
  let spo2HrvCorr := PrimFloat.abs (corrOr0 st "spo2_hrv") in
  let apneaRisk := (spo2Dev * 35 + rrDev * 25 + hrvDev * 20 + spo2HrvCorr * 20) * 100 in
  let apneaRisk := clamp apneaRisk 1 95 in
  let r := updRisk r apnea (mkRisk (risk_value (r apnea)) (Math_round apneaRisk)
    [ ("Night SpO2 Dips: " ++ pick (0.02 <? spo2Dev)%float "Detected" "None")%string;
      ("RR Irregularity: " ++ pick (rrDev <? 0.1)%float "Low" "Moderate")%string ]) in
  set_risks r st.

(** The only state write of [renderRisks]: the smoothing of [risk.value]. *)
Definition smooth (r : Risk) : Risk :=
  mkRisk (lerp (risk_value r) (target r) 0.1) (target r) (factors r).

Definition renderRisks (st : State) : State :=
  set_risks (fun k => smooth (risks st k)) st.

(** The calls of [updateAllVitals] and of [init] that follow the update
    of the vitals and write [state]. *)
Definition analytics (st : State) : State :=
  renderRisks (updateRisks (updateCorrelations st)).

(** [updateVitalStatus]: the text written to the status element. *)
Definition vitalStatus (v : Vital) : string :=
  let deviation :=
    PrimFloat.abs (value v - baseline v) / PrimFloat.abs (vmax v - vmin v) in
  if 0.35 <? deviation then "Alert"
  else if 0.18 <? deviation then "Watch"
  else "Normal".

(** ** Vocabulary of the statements *)

(** The coefficient [updateCorrelations] writes for the pair [(i, j)]. *)
Definition corrValue (st : State) (i j : Signal) : float :=
  if Signal_eqb i j then 1
  else pearsonCorrelation (history (vitals st i)) (history (vitals st j)).

(** The risk scores in the words of the specification: absolute relative
    deviations from baseline and absolute correlation coefficients of the
    chart histories (a coefficient that is [NaN] counting as 0), weighted,
    times 100, the sum taken from left to right. *)
Definition relDev (st : State) (s : Signal) : float :=
  PrimFloat.abs (value (vitals st s) - baseline (vitals st s)) / baseline (vitals st s).

Definition absCorr (st : State) (i j : Signal) : float :=
  PrimFloat.abs
    (orZero (pearsonCorrelation (history (vitals st i)) (history (vitals st j)))).

Definition weighted (k : RiskKey) (st : State) : float :=
  match k with
  | cardio =>
      (relDev st hr * 30 + relDev st bp_sys * 25 + relDev st hrv * 25
       + absCorr st hr bp_sys * 20) * 100
  | respiratory =>
      (relDev st spo2 * 35 + relDev st rr * 30 + relDev st hr * 15
       + absCorr st spo2 rr * 20) * 100
  | metabolic =>
      (relDev st temp * 30 + relDev st hr * 25 + relDev st bp_sys * 20
       + absCorr st temp hr * 25) * 100
  | apnea =>
      (relDev st spo2 * 35 + relDev st rr * 25 + relDev st hrv * 20
       + absCorr st spo2 hrv * 20) * 100
  end.

Definition riskFloor (k : RiskKey) : float :=
  match k with cardio => 3 | respiratory => 2 | metabolic => 3 | apnea => 1 end.

(** The number [Math.round(x * 10) / 10] stores when the rounded integer
    is [m]: every value and every chart sample the simulator stores is of
    this form. *)
Definition tenths (m : Z) : float := ofZ m / 10.

(** A vital of the default configuration holding the value [v] and the
    chart history [h]. *)
Definition holding (s : Signal) (v : float) (h : list float) : Vital :=
  let c := vitals state0 s in
  mkVital v (baseline c) (vmin c) (vmax c) (variance c) (vunit c) h.

(** The default configuration with a value and a chart history given for
    each signal. *)
Definition loaded (val : Signal -> float) (hist : Signal -> list float) : State :=
  set_vitals (fun s => holding s (val s) (hist s)) state0.

(** The default configuration with the heart rate at [v] and no chart
    history yet. *)
Definition heartRateAt (v : float) : State :=
  loaded (fun s => if Signal_eqb s hr then v else value (vitals state0 s))
         (fun _ => []).

(** The default configuration after six updates that stored 72.1 for the
    heart rate and 98.6 for the temperature each time. *)
Definition constantHistories : State :=
  loaded (fun s => if Signal_eqb s hr then 72.1 else value (vitals state0 s))
         (fun s => match s with
                   | hr => repeat 72.1 6
                   | temp => repeat 98.6 6
                   | _ => []
                   end).

(** Minimum, baseline and maximum of the default configuration, in
    tenths. *)
Definition gridMin (s : Signal) : Z :=
  match s with
  | hr => 550 | spo2 => 920 | bp_sys => 950 | bp_dia => 600
  | temp => 965 | rr => 100 | hrv => 150
  end.

Definition gridBase (s : Signal) : Z :=
  match s with
  | hr => 720 | spo2 => 980 | bp_sys => 1200 | bp_dia => 800
  | temp => 986 | rr => 160 | hrv => 420
  end.

Definition gridMax (s : Signal) : Z :=
  match s with
  | hr => 1050 | spo2 => 1000 | bp_sys => 1500 | bp_dia => 1000
  | temp => 1010 | rr => 250 | hrv => 800
  end.

(** The status shown for signal [s] at the stored value [m / 10] agrees
    with the level the exact ratio [|m - base| / (max - min)] falls in; at
    a ratio of exactly 35 % or 18 % either neighbouring level is allowed. *)
Definition levelOk (s : Signal) (m : Z) : bool :=
  let shown := vitalStatus (holding s (tenths m) []) in
  let d := (100 * Z.abs (m - gridBase s))%Z in
  let w := (gridMax s - gridMin s)%Z in
  if (35 * w <? d)%Z then String.eqb shown "Alert"
  else if (d =? 35 * w)%Z then String.eqb shown "Alert" || String.eqb shown "Watch"
  else if (18 * w <? d)%Z then String.eqb shown "Watch"
  else if (d =? 18 * w)%Z then String.eqb shown "Watch" || String.eqb shown "Normal"
  else String.eqb shown "Normal".

(** The integers from [lo] to [hi]. *)
Definition upto (lo hi : Z) : list Z :=
  map (fun k => (lo + Z.of_nat k)%Z) (seq 0 (Z.to_nat (hi - lo + 1))).

End Double.

(* ======================== PROPERTIES ======================== *)

Lemma Signal_eqb_eq a b : Signal_eqb a b = true <-> a = b.
Proof. destruct a, b; simpl; split; congruence. Qed.

Lemma Signal_eqb_refl a : Signal_eqb a a = true.
Proof. now destruct a. Qed.

Lemma upd_same {A} (f : Signal -> A) k v : upd f k v k = v.
Proof. unfold upd. now rewrite Signal_eqb_refl. Qed.

Lemma upd_other {A} (f : Signal -> A) k k' v : k <> k' -> upd f k v k' = f k'.
Proof.
  unfold upd. intros H. destruct (Signal_eqb k k') eqn:E; [|reflexivity].
  apply Signal_eqb_eq in E. contradiction.
Qed.

(** ** Rounding to one decimal place *)

Lemma roundVital_round1 s x : roundVital s x = round1 x.
Proof. destruct s; reflexivity. Qed.

Lemma round1_onGrid x : onGrid (round1 x).
Proof.
  exists (Zfloor (x * 10 + 1 / 2)). unfold round1, Math_round. field.
Qed.

Lemma round1_between lo hi x :
  onGrid lo -> onGrid hi -> lo <= x <= hi -> lo <= round1 x <= hi.
Proof.
  intros [a Ha] [b Hb] [Hlo Hhi]. unfold round1, Math_round.
  assert (La : (a <= Zfloor (x * 10 + 1 / 2))%Z) by (apply Zfloor_lub; lra).
  assert (Lb : (Zfloor (x * 10 + 1 / 2) < b + 1)%Z).
  { apply lt_IZR. rewrite plus_IZR.
    pose proof (Zfloor_bound (x * 10 + 1 / 2)) as [Hf _]. simpl. lra. }
  apply IZR_le in La. assert (Lb' : (Zfloor (x * 10 + 1 / 2) <= b)%Z) by lia.
  apply IZR_le in Lb'. lra.
Qed.

Lemma clamp_between v lo hi : lo <= hi -> lo <= clamp v lo hi <= hi.
Proof.
  intros H. unfold clamp. split.
  - apply Rmax_l.
  - apply Rmax_lub; [assumption | apply Rmin_l].
Qed.

Lemma clamp_id v lo hi : lo <= v <= hi -> clamp v lo hi = v.
Proof.
  intros [H1 H2]. unfold clamp. rewrite (Rmin_right hi v) by assumption.
  now apply Rmax_right.
Qed.

Lemma pushCapped_length cap h x :
  (length h <= cap)%nat -> (length (pushCapped cap h x) <= cap)%nat.
Proof.
  intros H. unfold pushCapped.
  assert (L : length (h ++ [x]) = S (length h)) by (rewrite length_app; simpl; lia).
  destruct (cap <? length (h ++ [x]))%nat eqn:E.
  - destruct (h ++ [x]) eqn:E'; simpl in *; lia.
  - apply Nat.ltb_ge in E. assumption.
Qed.

(** ** What each step leaves untouched *)

Section Frames.

Variable W : World.

Ltac frame :=
  intros;
  repeat match goal with
  | |- context [anomalyMode ?st] => destruct (anomalyMode st)
  | |- context [Z.ltb ?a ?b] => destruct (Z.ltb a b)
  | |- context [Nat.ltb ?a ?b] => destruct (Nat.ltb a b)
  | s : Signal |- _ => destruct s
  end; reflexivity.

Lemma addAnomaly_vitals s t d g v st : vitals (addAnomaly W s t d g v st) = vitals st.
Proof. reflexivity. Qed.

Lemma drifted_vitals s st : vitals (snd (drifted W s st)) = vitals st.
Proof. unfold drifted, anomalyDrift, autoResolve, gaussRandom. frame. Qed.

Lemma drifted_trendData s st : trendData (snd (drifted W s st)) = trendData st.
Proof. unfold drifted, anomalyDrift, autoResolve, gaussRandom. frame. Qed.

Lemma drifted_tick s st : tick (snd (drifted W s st)) = tick st.
Proof. unfold drifted, anomalyDrift, autoResolve, gaussRandom. frame. Qed.

Lemma drifted_risks s st : risks (snd (drifted W s st)) = risks st.
Proof. unfold drifted, anomalyDrift, autoResolve, gaussRandom. frame. Qed.

Lemma generateVital_risks s st : risks (generateVital W s st) = risks st.
Proof.
  unfold generateVital. pose proof (drifted_risks s st) as H.
  destruct (drifted W s st) as [x st']. simpl in *. assumption.
Qed.

Lemma generateVital_vitals s st :
  vitals (generateVital W s st) =
  upd (vitals st) s
    (let v := vitals st s in
     let x := round1 (clamp (fst (drifted W s st)) (vmin v) (vmax v)) in
     mkVital x (baseline v) (vmin v) (vmax v) (variance v) (vunit v)
             (pushCapped chartPoints (history v) x)).
Proof.
  unfold generateVital. pose proof (drifted_vitals s st) as H.
  destruct (drifted W s st) as [x st']. simpl in *.
  rewrite H, roundVital_round1. reflexivity.
Qed.

Lemma generateVital_trendData s st : trendData (generateVital W s st) = trendData st.
Proof.
  unfold generateVital. pose proof (drifted_trendData s st) as H.
  destruct (drifted W s st) as [x st']. simpl in *. assumption.
Qed.

Lemma generateVital_tick s st : tick (generateVital W s st) = tick st.
Proof.
  unfold generateVital. pose proof (drifted_tick s st) as H.
  destruct (drifted W s st) as [x st']. simpl in *. assumption.
Qed.

End Frames.

(** ** The signal invariant *)

Section Invariant.

Variable W : World.

Lemma generateVital_Inv s st : Inv st -> Inv (generateVital W s st).
Proof.
  intros H s'. rewrite generateVital_trendData, generateVital_vitals.
  destruct (H s') as [Hv Ht]. split; [|assumption].
  destruct (Signal_eqb s s') eqn:E.
  - apply Signal_eqb_eq in E. subst s'. rewrite upd_same.
    destruct Hv as (Ga & Gb & Hle & Hval & Hlen).
    unfold vitalInv; simpl. repeat (split; [assumption|]). split.
    + apply round1_between; auto. now apply clamp_between.
    + now apply pushCapped_length.
  - rewrite upd_other; [assumption|]. intros ->.
    rewrite Signal_eqb_refl in E. discriminate.
Qed.

Lemma storeTrend_Inv s st : Inv st -> Inv (storeTrend st s).
Proof.
  intros H s'. destruct (H s') as [Hv Ht]. split; [assumption|].
  unfold storeTrend; simpl. destruct (Signal_eqb s s') eqn:E.
  - apply Signal_eqb_eq in E. subst s'. rewrite upd_same.
    now apply pushCapped_length.
  - rewrite upd_other; [assumption|]. intros ->.
    rewrite Signal_eqb_refl in E. discriminate.
Qed.

Lemma fold_Inv (f : State -> Signal -> State) l :
  (forall s st, Inv st -> Inv (f st s)) ->
  forall st, Inv st -> Inv (fold_left f l st).
Proof.
  intros Hf. induction l as [|a l IH]; simpl; intros st H; [assumption|].
  apply IH, Hf, H.
Qed.

Lemma corrCell_frame i st j :
  vitals (corrCell i st j) = vitals st /\ trendData (corrCell i st j) = trendData st.
Proof. unfold corrCell. destruct (Signal_eqb i j); split; reflexivity. Qed.

Lemma corrCell_Inv i j st : Inv st -> Inv (corrCell i st j).
Proof.
  intros H s. destruct (corrCell_frame i st j) as [-> ->]. apply H.
Qed.

Lemma updateCorrelations_Inv st : Inv st -> Inv (updateCorrelations st).
Proof.
  unfold updateCorrelations. apply fold_Inv. intros i st' H'.
  apply fold_Inv; [|assumption]. intros j st'' H''. now apply corrCell_Inv.
Qed.

Lemma Inv_ext st st' :
  vitals st' = vitals st -> trendData st' = trendData st -> Inv st -> Inv st'.
Proof. intros Hv Ht H s. rewrite Hv, Ht. apply H. Qed.

Lemma maybeTrigger_vitals st : vitals (maybeTrigger W st) = vitals st.
Proof. unfold maybeTrigger. now destruct (_ && _). Qed.

Lemma maybeTrigger_trendData st : trendData (maybeTrigger W st) = trendData st.
Proof. unfold maybeTrigger. now destruct (_ && _). Qed.

Lemma risks_Inv st : Inv st -> Inv (renderRisks (updateRisks st)).
Proof. apply Inv_ext; reflexivity. Qed.

Lemma maybeTrigger_Inv st : Inv st -> Inv (maybeTrigger W st).
Proof. apply Inv_ext; [apply maybeTrigger_vitals | apply maybeTrigger_trendData]. Qed.

Lemma updateAllVitals_Inv st : Inv st -> Inv (updateAllVitals W st).
Proof.
  intros H. unfold updateAllVitals.
  apply risks_Inv, updateCorrelations_Inv.
  apply (fold_Inv storeTrend trendSignals); [intros; now apply storeTrend_Inv|].
  apply fold_Inv; [intros; now apply generateVital_Inv|].
  apply maybeTrigger_Inv. exact H.
Qed.

Lemma run_Inv n st : Inv st -> Inv (run W n st).
Proof. intros H. induction n; simpl; [assumption | now apply updateAllVitals_Inv]. Qed.

(** Initialisation: fifteen history samples and twenty trend samples per
    signal, values and bounds left as configured. *)

Lemma state0_static s : static (vitals state0 s).
Proof.
  unfold static, onGrid.
  destruct s; simpl;
    (split; [|split; [|split; [|split]]]); try lra.
  - exists 550%Z; lra.
  - exists 1050%Z; lra.
  - exists 920%Z; lra.
  - exists 1000%Z; lra.
  - exists 950%Z; lra.
  - exists 1500%Z; lra.
  - exists 600%Z; lra.
  - exists 1000%Z; lra.
  - exists 965%Z; lra.
  - exists 1010%Z; lra.
  - exists 100%Z; lra.
  - exists 250%Z; lra.
  - exists 150%Z; lra.
  - exists 800%Z; lra.
Qed.

Lemma prefillHistory_spec st s s' :
  static (vitals st s') ->
  static (vitals (prefillHistory W st s) s') /\
  histLen (prefillHistory W st s) s' = (hit s s' + histLen st s')%nat /\
  trendLen (prefillHistory W st s) s' = trendLen st s'.
Proof.
  intros H. unfold prefillHistory, histLen, trendLen, hit; simpl. unfold upd.
  destruct (Signal_eqb s s') eqn:E; simpl.
  - apply Signal_eqb_eq in E; subst s'.
    split; [exact H|]. split; [|reflexivity]. rewrite length_app; simpl; lia.
  - auto.
Qed.

Lemma prefillTrend_spec st s s' :
  static (vitals st s') ->
  static (vitals (prefillTrend W st s) s') /\
  histLen (prefillTrend W st s) s' = histLen st s' /\
  trendLen (prefillTrend W st s) s' = (hit s s' + trendLen st s')%nat.
Proof.
  intros H. unfold prefillTrend, histLen, trendLen, hit; simpl. unfold upd.
  destruct (Signal_eqb s s') eqn:E; simpl.
  - apply Signal_eqb_eq in E; subst s'.
    split; [exact H|]. split; [reflexivity|]. rewrite length_app; simpl; lia.
  - auto.
Qed.

Lemma times_spec (body : State -> Signal -> State) (dh dt : Signal -> Signal -> nat) :
  (forall st s s', static (vitals st s') ->
     static (vitals (body st s) s') /\
     histLen (body st s) s' = (dh s s' + histLen st s')%nat /\
     trendLen (body st s) s' = (dt s s' + trendLen st s')%nat) ->
  forall n st s s', static (vitals st s') ->
     static (vitals (times n (fun st => body st s) st) s') /\
     histLen (times n (fun st => body st s) st) s' = (n * dh s s' + histLen st s')%nat /\
     trendLen (times n (fun st => body st s) st) s' = (n * dt s s' + trendLen st s')%nat.
Proof.
  intros Hb. induction n as [|n IH]; intros st s s' H; simpl.
  - auto.
  - destruct (Hb st s s' H) as (H1 & H2 & H3).
    destruct (IH (body st s) s s' H1) as (I1 & I2 & I3).
    split; [exact I1|]. rewrite I2, I3, H2, H3. lia.
Qed.

Lemma fold_times_spec (body : State -> Signal -> State) (dh dt : Signal -> Signal -> nat) n :
  (forall st s s', static (vitals st s') ->
     static (vitals (body st s) s') /\
     histLen (body st s) s' = (dh s s' + histLen st s')%nat /\
     trendLen (body st s) s' = (dt s s' + trendLen st s')%nat) ->
  forall l st s', static (vitals st s') ->
     let st' := fold_left (fun st s => times n (fun st => body st s) st) l st in
     static (vitals st' s') /\
     histLen st' s' = (n * list_sum (map (fun s => dh s s') l) + histLen st s')%nat /\
     trendLen st' s' = (n * list_sum (map (fun s => dt s s') l) + trendLen st s')%nat.
Proof.
  intros Hb. induction l as [|a l IH]; intros st s' H; simpl.
  - rewrite Nat.mul_0_r. auto.
  - destruct (times_spec body dh dt Hb n st a s' H) as (H1 & H2 & H3).
    destruct (IH _ s' H1) as (I1 & I2 & I3).
    split; [exact I1|]. rewrite I2, I3, H2, H3. lia.
Qed.

Lemma addAnomaly_Inv s t d g v st : Inv st -> Inv (addAnomaly W s t d g v st).
Proof. apply Inv_ext; reflexivity. Qed.

Lemma init_Inv : Inv (init W state0).
Proof.
  unfold init. apply addAnomaly_Inv, risks_Inv, updateCorrelations_Inv.
  intros s.
  set (st1 := fold_left (fun st s => times 15 (fun st => prefillHistory W st s) st) signals state0).
  destruct (fold_times_spec (prefillHistory W) hit (fun _ _ => 0%nat) 15
              (fun st a b H => prefillHistory_spec st a b H) signals state0 s
              (state0_static s)) as (H1 & H2 & H3).
  fold st1 in H1, H2, H3.
  destruct (fold_times_spec (prefillTrend W) (fun _ _ => 0%nat) hit 20
              (fun st a b H => prefillTrend_spec st a b H) trendSignals st1 s H1)
    as (J1 & J2 & J3).
  unfold histLen, trendLen in *.
  destruct J1 as (G1 & G2 & G3 & G4).
  rewrite H2 in J2. rewrite H3 in J3. unfold chartPoints, trendPoints, hit in *.
  split; [unfold vitalInv; repeat (split; [assumption|])|].
  - rewrite J2. destruct s; unfold chartPoints; simpl; lia.
  - rewrite J3. destruct s; unfold trendPoints; simpl; lia.
Qed.

End Invariant.

(** C1. After every tick of the default configuration every signal is
    within its bounds, its chart history holds at most 40 samples and its
    trend series at most 60: the rounding to one decimal place that follows
    the clamp cannot leave [min, max] because all default bounds are
    multiples of 0.1. *)
Theorem C1_bounds_and_capacities :
  forall (W : World) (n : nat) (s : Signal),
    let st := run W n (init W state0) in
    vmin (vitals st s) <= value (vitals st s) <= vmax (vitals st s) /\
    (length (history (vitals st s)) <= 40)%nat /\
    (length (trendData st s) <= 60)%nat.
Proof.
  intros W n s st.
  destruct (run_Inv W n _ (init_Inv W) s) as [(_ & _ & _ & Hv & Hh) Ht].
  fold st in Hv, Hh, Ht. auto.
Qed.

(** ** Advancing a signal outside an anomaly episode *)

Section Idle.

Variable W : World.

Lemma generateVital_idle s st :
  anomalyMode st = false ->
  generateVital W s st =
  set_vitals (upd (vitals st) s
                  (store (vitals st s)
                         (baseValue (tick st) (gaussAt W (n_gauss st)) (vitals st s))))
             (set_n_gauss (S (n_gauss st)) st).
Proof.
  intros H. unfold generateVital, drifted, gaussRandom. simpl. rewrite H.
  rewrite roundVital_round1. reflexivity.
Qed.

Lemma times_S {A} (f : A -> A) n a : times (S n) f a = f (times n f a).
Proof.
  revert a. induction n as [|n IH]; intros a; [reflexivity|].
  change (times (S (S n)) f a) with (times (S n) f (f a)).
  rewrite IH. reflexivity.
Qed.

Lemma baseValue_quiet t g v :
  variance v = 0 -> baseValue t g v = value v + (baseline v - value v) * 0.08.
Proof. intros H. unfold baseValue. rewrite H. ring. Qed.

(** One reversion step followed by rounding, on the 0.1 grid. *)
Lemma quiet_step_grid v b :
  onGrid v -> onGrid b ->
  let v' := round1 (v + (b - v) * 0.08) in
  onGrid v' /\
  Rmin v b <= v' <= Rmax v b /\
  Rabs (v' - b) <= Rabs (v - b) /\
  (0.6 < Rabs (v - b) -> Rabs (v' - b) <= Rabs (v - b) - 0.1) /\
  (Rabs (v - b) <= 0.6 -> v' = v).
Proof.
  intros [V HV] [B HB] v'. split; [apply round1_onGrid|].
  unfold v', round1, Math_round.
  set (F := Zfloor ((v + (b - v) * 0.08) * 10 + 1 / 2)).
  pose proof (Zfloor_bound ((v + (b - v) * 0.08) * 10 + 1 / 2)) as [L U].
  fold F in L, U.
  assert (H1 : (100 * F <= 92 * V + 8 * B + 50)%Z).
  { apply le_IZR. rewrite plus_IZR, plus_IZR, !mult_IZR. lra. }
  assert (H2 : (92 * V + 8 * B + 50 < 100 * F + 100)%Z).
  { apply lt_IZR. rewrite plus_IZR, plus_IZR, plus_IZR, !mult_IZR. lra. }
  destruct (Z.le_gt_cases B V) as [C|C].
  - assert (K1 : (B <= F <= V)%Z) by lia.
    destruct K1 as [K1a K1b]. apply IZR_le in K1a, K1b.
    pose proof (IZR_le _ _ C) as C'.
    rewrite (Rmin_right v b), (Rmax_left v b) by lra.
    rewrite (Rabs_right (v - b)), (Rabs_right (IZR F / 10 - b)) by lra.
    split; [lra|]. split; [lra|]. split.
    + intros Hgt.
      assert (K : (7 <= V - B)%Z).
      { assert (6 < V - B)%Z; [|lia]. apply lt_IZR. rewrite minus_IZR. lra. }
      assert (K2 : (F <= V - 1)%Z) by lia. apply IZR_le in K2.
      rewrite minus_IZR in K2. lra.
    + intros Hle.
      assert (K : (V - B <= 6)%Z).
      { apply le_IZR. rewrite minus_IZR. lra. }
      assert (K2 : F = V) by lia. rewrite K2. lra.
  - assert (K1 : (V <= F <= B)%Z) by lia.
    destruct K1 as [K1a K1b]. apply IZR_le in K1a, K1b.
    pose proof (IZR_lt _ _ C) as C'.
    rewrite (Rmin_left v b), (Rmax_right v b) by lra.
    rewrite (Rabs_left1 (v - b)), (Rabs_left1 (IZR F / 10 - b)) by lra.
    split; [lra|]. split; [lra|]. split.
    + intros Hgt.
      assert (K : (7 <= B - V)%Z).
      { assert (6 < B - V)%Z; [|lia]. apply lt_IZR. rewrite minus_IZR. lra. }
      assert (K2 : (V + 1 <= F)%Z) by lia. apply IZR_le in K2.
      rewrite plus_IZR in K2. lra.
    + intros Hle.
      assert (K : (B - V <= 6)%Z).
      { apply le_IZR. rewrite minus_IZR. lra. }
      assert (K2 : F = V) by lia. rewrite K2. lra.
Qed.

Lemma quiet_step s st :
  quiet s st ->
  let v := vitals st s in
  let st' := generateVital W s st in
  quiet s st' /\
  baseline (vitals st' s) = baseline v /\
  value (vitals st' s) = round1 (value v + (baseline v - value v) * 0.08).
Proof.
  intros (Hm & Hvar & Gv & Gb & Hv & Hb) v st'.
  assert (E : vitals st' s =
              store v (baseValue (tick st) (gaussAt W (n_gauss st)) v)).
  { unfold st'. rewrite generateVital_idle by assumption. simpl.
    apply upd_same. }
  assert (Em : anomalyMode st' = false).
  { unfold st'. rewrite generateVital_idle by assumption. exact Hm. }
  assert (Ev : value (vitals st' s) = round1 (value v + (baseline v - value v) * 0.08)).
  { rewrite E. unfold store; simpl. rewrite baseValue_quiet by assumption.
    rewrite clamp_id; [reflexivity|]. fold v in Hv, Hb. lra. }
  split; [|split; [rewrite E; reflexivity | exact Ev]].
  destruct (quiet_step_grid (value v) (baseline v) Gv Gb) as (Q1 & Q2 & _).
  unfold quiet. rewrite Ev. rewrite E. simpl. fold v in Hv, Hb.
  repeat (split; [assumption|]). split; [|assumption].
  assert (vmin v <= Rmin (value v) (baseline v)) by (apply Rmin_glb; lra).
  assert (Rmax (value v) (baseline v) <= vmax v) by (apply Rmax_lub; lra).
  lra.
Qed.

Lemma quiet_advances s n st :
  quiet s st ->
  quiet s (advances W s n st) /\
  baseline (vitals (advances W s n st) s) = baseline (vitals st s).
Proof.
  intros H. unfold advances. induction n as [|n [IH1 IH2]]; [now split|].
  rewrite times_S. destruct (quiet_step s _ IH1) as (Q & B & _).
  split; [exact Q | congruence].
Qed.

Lemma quiet_stationary s st :
  quiet s st ->
  Rabs (value (vitals st s) - baseline (vitals st s)) <= 0.6 ->
  forall n, value (vitals (advances W s n st) s) = value (vitals st s).
Proof.
  intros H Hd. induction n as [|n IH]; [reflexivity|].
  unfold advances in *. rewrite times_S.
  destruct (quiet_advances s n st H) as [Q B]. unfold advances in Q, B.
  destruct (quiet_step s _ Q) as (_ & _ & E). rewrite E, B, IH.
  destruct H as (_ & _ & Gv & Gb & _).
  now apply (quiet_step_grid _ _ Gv Gb).
Qed.

Lemma advances_add s n m st :
  advances W s (n + m) st = advances W s m (advances W s n st).
Proof.
  unfold advances. revert st. induction n as [|n IH]; intros st; [reflexivity|].
  simpl. apply IH.
Qed.

Lemma quiet_settles s k : forall st,
  quiet s st ->
  Rabs (value (vitals st s) - baseline (vitals st s)) <= 0.6 + 0.1 * INR k ->
  Rabs (value (vitals (advances W s k st) s) - baseline (vitals st s)) <= 0.6.
Proof.
  induction k as [|k IH]; intros st H Hd.
  - simpl in Hd. unfold advances; simpl. lra.
  - destruct (quiet_step s st H) as (Q & B & E).
    change (advances W s (S k) st) with (advances W s k (generateVital W s st)).
    rewrite <- B. apply IH; [exact Q|]. rewrite B, E.
    destruct H as (_ & _ & Gv & Gb & _).
    destruct (quiet_step_grid _ _ Gv Gb) as (_ & _ & M1 & M2 & M3).
    rewrite S_INR in Hd.
    destruct (Rle_or_lt (Rabs (value (vitals st s) - baseline (vitals st s))) 0.6) as [C|C].
    + pose proof (pos_INR k). lra.
    + specialize (M2 C). lra.
Qed.

End Idle.

(** C2 (amended). With zero variance and no episode in progress, from a
    value on the 0.1 grid within the bounds, repeated advances never
    increase the distance to the baseline; the distance shrinks by at least
    0.1 per advance while it exceeds 0.6, is at most 0.6 after finitely
    many advances, and from then on the stored value no longer changes. *)
Theorem C2_quiet_reversion_settles_near_baseline :
  forall (W : World) (s : Signal) (st : State) (n : nat),
    quiet s st ->
    let b := baseline (vitals st s) in
    let val := fun k => value (vitals (advances W s k st) s) in
    Rabs (val (S n) - b) <= Rabs (val n - b) /\
    (0.6 < Rabs (val n - b) -> Rabs (val (S n) - b) <= Rabs (val n - b) - 0.1) /\
    (Rabs (val n - b) <= 0.6 -> forall m, (n <= m)%nat -> val m = val n) /\
    (forall k, Rabs (val O - b) <= 0.6 + 0.1 * INR k -> Rabs (val k - b) <= 0.6).
Proof.
  intros W s st n H b val.
  destruct (quiet_advances W s n st H) as [Q B].
  destruct (quiet_step W s _ Q) as (_ & _ & E).
  assert (ES : val (S n) = round1 (val n + (b - val n) * 0.08)).
  { unfold val, advances. rewrite times_S. unfold advances in E, B.
    rewrite E, B. reflexivity. }
  assert (Gv : onGrid (val n)) by apply Q.
  assert (Gb : onGrid b).
  { unfold b. rewrite <- B. apply Q. }
  destruct (quiet_step_grid _ _ Gv Gb) as (_ & _ & M1 & M2 & M3).
  rewrite ES. split; [exact M1|]. split; [exact M2|]. split.
  - intros Hd m Hm. replace m with (n + (m - n))%nat by lia.
    unfold val. rewrite advances_add. apply quiet_stationary; [exact Q|].
    rewrite B. exact Hd.
  - intros k Hk. apply quiet_settles; assumption.
Qed.

Lemma stuckState_quiet : quiet hr stuckState.
Proof.
  unfold quiet, onGrid; simpl. split; [reflexivity|]. split; [reflexivity|].
  split; [exists 725%Z; lra|]. split; [exists 720%Z; lra|]. lra.
Qed.

Lemma C2_witness :
  quiet hr stuckState /\
  Rabs (value (vitals (advances world0 hr 1 stuckState) hr) - 72)
  <= Rabs (value (vitals (advances world0 hr 0 stuckState) hr) - 72).
Proof.
  split; [exact stuckState_quiet|].
  exact (proj1 (C2_quiet_reversion_settles_near_baseline
                  world0 hr stuckState 0 stuckState_quiet)).
Defined.

(** C2, as stated, fails: with every variance zero and no episode, a heart
    rate of 72.5 (baseline 72, bounds 55..105) is mapped to
    [round (10 * 72.46) / 10 = 72.5] by every advance, so the distance to
    the baseline stays 0.5 and does not tend to 0. *)
Lemma C2_counterexample :
  (forall s, variance (vitals stuckState s) = 0) /\
  anomalyMode stuckState = false /\
  vmin (vitals stuckState hr) <= value (vitals stuckState hr) <= vmax (vitals stuckState hr) /\
  (forall n, anomalyMode (advances world0 hr n stuckState) = false /\
             value (vitals (advances world0 hr n stuckState) hr) = 72.5) /\
  ~ (forall eps, 0 < eps ->
       exists n, Rabs (value (vitals (advances world0 hr n stuckState) hr)
                       - baseline (vitals stuckState hr)) < eps).
Proof.
  assert (St : forall n, value (vitals (advances world0 hr n stuckState) hr) = 72.5).
  { intros n. rewrite (quiet_stationary world0 hr stuckState stuckState_quiet).
    - reflexivity.
    - simpl. rewrite Rabs_right; lra. }
  split; [intros s; reflexivity|]. split; [reflexivity|].
  split; [simpl; lra|]. split.
  - intros n. split; [|apply St].
    apply (quiet_advances world0 hr n stuckState stuckState_quiet).
  - intros H. destruct (H 0.5) as [n Hn]; [lra|].
    rewrite St in Hn. simpl in Hn. rewrite Rabs_right in Hn; lra.
Qed.

(** ** The correlation matrix *)

Section Matrix.

Lemma corrCell_spec i st j :
  vitals (corrCell i st j) = vitals st /\
  correlations (corrCell i st j) =
    updKey (correlations st) (corrKey i j) (corrValue st i j).
Proof.
  unfold corrCell, corrValue. destruct (Signal_eqb i j); split; reflexivity.
Qed.

Lemma fold_pairs {A B C} (f : A -> B -> C -> A) (l : list B) (l' : list C) a :
  fold_left (fun a i => fold_left (fun a j => f a i j) l' a) l a =
  fold_left (fun a p => f a (fst p) (snd p))
            (flat_map (fun i => map (pair i) l') l) a.
Proof.
  revert a. induction l as [|i l IH]; intros a; [reflexivity|].
  simpl. rewrite fold_left_app, <- IH. f_equal.
  clear IH. revert a. induction l' as [|j l' IH']; intros a; [reflexivity|].
  simpl. apply IH'.
Qed.

Lemma updateCorrelations_pairs st :
  updateCorrelations st =
  fold_left (fun st p => corrCell (fst p) st (snd p)) matrixPairs st.
Proof.
  unfold updateCorrelations, matrixPairs.
  exact (fold_pairs (fun st i j => corrCell i st j) matrixSignals matrixSignals st).
Qed.

Lemma writes_spec ps : forall st k,
  let st' := fold_left (fun st p => corrCell (fst p) st (snd p)) ps st in
  vitals st' = vitals st /\
  correlations st' k =
    match lastWrite ps k with
    | Some p => Some (corrValue st (fst p) (snd p))
    | None => correlations st k
    end.
Proof.
  unfold lastWrite.
  induction ps as [|p ps IH] using rev_ind; intros st k; [now split|].
  rewrite fold_left_app, rev_app_distr. simpl.
  destruct (IH st k) as [Hv Hc].
  destruct (corrCell_spec (fst p)
              (fold_left (fun st p => corrCell (fst p) st (snd p)) ps st) (snd p))
    as [Hv' Hc'].
  split; [congruence|]. rewrite Hc'. unfold updKey.
  destruct (String.eqb (corrKey (fst p) (snd p)) k).
  - unfold corrValue. rewrite Hv. reflexivity.
  - exact Hc.
Qed.

Lemma updateCorrelations_vitals st : vitals (updateCorrelations st) = vitals st.
Proof. rewrite updateCorrelations_pairs. apply (writes_spec matrixPairs st EmptyString). Qed.

Lemma lastWrite_matrix i j :
  In i matrixSignals -> In j matrixSignals ->
  lastWrite matrixPairs (corrKey i j) = Some (i, j).
Proof.
  intros Hi Hj.
  destruct i; try (exfalso; simpl in Hi; intuition discriminate);
  destruct j; try (exfalso; simpl in Hj; intuition discriminate);
  vm_compute; reflexivity.
Qed.

Lemma updateCorrelations_lookup st i j :
  In i matrixSignals -> In j matrixSignals ->
  correlations (updateCorrelations st) (corrKey i j) = Some (corrValue st i j).
Proof.
  intros Hi Hj. rewrite updateCorrelations_pairs.
  destruct (writes_spec matrixPairs st (corrKey i j)) as [_ H].
  rewrite H, lastWrite_matrix by assumption. reflexivity.
Qed.

End Matrix.

(** ** The Pearson coefficient *)

Section Pearson.

Lemma fold_Rplus xs a : fold_left Rplus xs a = a + sum xs.
Proof.
  unfold sum. revert a. induction xs as [|x xs IH]; intros a; simpl.
  - ring.
  - rewrite (IH (a + x)), (IH (0 + x)). ring.
Qed.

Lemma sum_cons x xs : sum (x :: xs) = x + sum xs.
Proof. unfold sum at 1. simpl. rewrite fold_Rplus. ring. Qed.

Lemma sum_nil : sum [] = 0.
Proof. reflexivity. Qed.

Lemma pearson_fold mx my ps : forall a b c,
  fold_left (pearsonStep mx my) ps (a, b, c) =
  (a + codev mx my ps, b + sqdev mx (map fst ps), c + sqdev my (map snd ps)).
Proof.
  unfold codev, sqdev.
  induction ps as [|p ps IH]; intros a b c; simpl.
  - rewrite sum_nil, !Rplus_0_r. reflexivity.
  - rewrite IH, !sum_cons. f_equal; [f_equal|]; ring.
Qed.

Lemma sqdev_nonneg m xs : 0 <= sqdev m xs.
Proof.
  unfold sqdev. induction xs as [|x xs IH]; simpl.
  - rewrite sum_nil. lra.
  - rewrite sum_cons. pose proof (Rle_0_sqr (x - m)) as Q. unfold Rsqr in Q. lra.
Qed.

(** Cauchy-Schwarz, one more term. *)
Lemma cs_step (Sm A B a b : R) :
  0 <= A -> 0 <= B -> Sm * Sm <= A * B ->
  (a * b + Sm) * (a * b + Sm) <= (a * a + A) * (b * b + B).
Proof.
  intros HA HB H.
  assert (N : 0 <= A * (b * b) + a * a * B).
  { pose proof (Rle_0_sqr a) as Pa. pose proof (Rle_0_sqr b) as Pb. unfold Rsqr in *.
    pose proof (Rmult_le_pos _ _ HA Pb). pose proof (Rmult_le_pos _ _ Pa HB). lra. }
  assert (Q : Rsqr (2 * (a * b) * Sm) <= Rsqr (A * (b * b) + a * a * B)).
  { pose proof (Rle_0_sqr (A * (b * b) - a * a * B)) as P1.
    pose proof (Rle_0_sqr (a * b)) as P2.
    assert (P3 : 0 <= A * B - Sm * Sm) by lra.
    pose proof (Rmult_le_pos _ _ P2 P3) as P4.
    unfold Rsqr in *. lra. }
  apply Rsqr_incr_0_var in Q; [|assumption].
  lra.
Qed.

Lemma codev_sqr mx my ps :
  codev mx my ps * codev mx my ps <= sqdev mx (map fst ps) * sqdev my (map snd ps).
Proof.
  induction ps as [|[x y] ps IH].
  - unfold codev, sqdev; simpl. rewrite sum_nil. lra.
  - pose proof (sqdev_nonneg mx (map fst ps)) as HA.
    pose proof (sqdev_nonneg my (map snd ps)) as HB.
    unfold codev, sqdev in *; simpl. rewrite !sum_cons.
    now apply cs_step.
Qed.

Lemma map_fst_combine {A B} (l : list A) : forall (l' : list B),
  length l = length l' -> map fst (combine l l') = l.
Proof.
  induction l as [|a l IH]; intros [|b l'] H; simpl in *; try discriminate; [reflexivity|].
  f_equal. apply IH. lia.
Qed.

Lemma map_snd_combine {A B} (l : list A) : forall (l' : list B),
  length l = length l' -> map snd (combine l l') = l'.
Proof.
  induction l as [|a l IH]; intros [|b l'] H; simpl in *; try discriminate; [reflexivity|].
  f_equal. apply IH. lia.
Qed.

Lemma slice_last_length {A} n (x : list A) :
  (n <= length x)%nat -> length (slice_last n x) = n.
Proof. intros H. unfold slice_last. rewrite length_skipn. lia. Qed.

(** The value returned once five or more samples overlap. *)
Lemma pearson_unfold x y :
  let n := Nat.min (length x) (length y) in
  let xs := slice_last n x in
  let ys := slice_last n y in
  let num := codev (mean xs) (mean ys) (combine xs ys) in
  let denom := sqrt (sqdev (mean xs) xs * sqdev (mean ys) ys) in
  (5 <= n)%nat ->
  pearsonCorrelation x y = if Req_dec_T denom 0 then 0 else num / denom.
Proof.
  intros n xs ys num denom Hn. unfold pearsonCorrelation. fold n.
  destruct (n <? 5)%nat eqn:E; [apply Nat.ltb_lt in E; lia|].
  fold xs ys.
  assert (Lx : length xs = n) by (apply slice_last_length; unfold n; lia).
  assert (Ly : length ys = n) by (apply slice_last_length; unfold n; lia).
  rewrite pearson_fold, !Rplus_0_l.
  rewrite map_fst_combine, map_snd_combine by congruence.
  unfold denom, num, mean. rewrite Lx, Ly. reflexivity.
Qed.

Lemma pearson_range x y : -1 <= pearsonCorrelation x y <= 1.
Proof.
  destruct (Nat.ltb_spec (Nat.min (length x) (length y)) 5) as [H|H].
  - unfold pearsonCorrelation. apply Nat.ltb_lt in H. rewrite H. lra.
  - rewrite pearson_unfold by assumption.
    set (n := Nat.min (length x) (length y)).
    set (xs := slice_last n x). set (ys := slice_last n y).
    assert (Lx : length xs = n) by (apply slice_last_length; unfold n; lia).
    assert (Ly : length ys = n) by (apply slice_last_length; unfold n; lia).
    destruct (Req_dec_T _ 0) as [E|E]; [lra|].
    set (num := codev (mean xs) (mean ys) (combine xs ys)).
    set (D := sqdev (mean xs) xs * sqdev (mean ys) ys) in *.
    assert (CS : num * num <= D).
    { unfold num, D. pose proof (codev_sqr (mean xs) (mean ys) (combine xs ys)) as C.
      rewrite map_fst_combine, map_snd_combine in C by congruence. exact C. }
    assert (P : 0 < sqrt D).
    { pose proof (sqrt_pos D). lra. }
    assert (A : Rabs num <= sqrt D).
    { rewrite <- sqrt_Rsqr_abs. apply sqrt_le_1_alt. exact CS. }
    assert (B : -1 <= num / sqrt D /\ num / sqrt D <= 1).
    { assert (A' : - sqrt D <= num <= sqrt D).
      { unfold Rabs in A. destruct (Rcase_abs num); lra. }
      split.
      - apply Rmult_le_reg_r with (sqrt D); [assumption|].
        unfold Rdiv. rewrite Rmult_assoc, Rinv_l by lra. lra.
      - apply Rmult_le_reg_r with (sqrt D); [assumption|].
        unfold Rdiv. rewrite Rmult_assoc, Rinv_l by lra. lra. }
    exact B.
Qed.

Lemma pearson_short x y :
  (Nat.min (length x) (length y) < 5)%nat -> pearsonCorrelation x y = 0.
Proof.
  intros H. unfold pearsonCorrelation. apply Nat.ltb_lt in H. now rewrite H.
Qed.

End Pearson.

(** ** The risk engine *)

Section Risks.

Variable W : World.

Lemma fold_proj {A B} (p : State -> B) (f : State -> A -> State) l :
  (forall st a, p (f st a) = p st) -> forall st, p (fold_left f l st) = p st.
Proof.
  intros H. induction l as [|a l IH]; intros st; simpl; [reflexivity|].
  rewrite IH. apply H.
Qed.

Lemma updateCorrelations_risks st : risks (updateCorrelations st) = risks st.
Proof.
  unfold updateCorrelations. apply fold_proj. intros st' i.
  apply fold_proj. intros st'' j. unfold corrCell. now destruct (Signal_eqb i j).
Qed.

Lemma maybeTrigger_risks st : risks (maybeTrigger W st) = risks st.
Proof. unfold maybeTrigger. now destruct (_ && _). Qed.

Lemma beforeRisks_risks st : risks (beforeRisks W st) = risks st.
Proof.
  unfold beforeRisks. rewrite updateCorrelations_risks.
  rewrite (fold_proj risks storeTrend) by reflexivity.
  rewrite (fold_proj risks (fun st s => generateVital W s st))
    by (intros; apply generateVital_risks).
  rewrite maybeTrigger_risks. reflexivity.
Qed.

Lemma updateAllVitals_unfold st :
  updateAllVitals W st = renderRisks (updateRisks (beforeRisks W st)).
Proof. reflexivity. Qed.

Lemma risks_stage_vitals st : vitals (renderRisks (updateRisks st)) = vitals st.
Proof. reflexivity. Qed.

Lemma updateAllVitals_vitals st :
  vitals (updateAllVitals W st) = vitals (beforeRisks W st).
Proof. rewrite updateAllVitals_unfold. apply risks_stage_vitals. Qed.

(** What [updateRisks] stores, in terms of the state it reads. *)
Lemma updateRisks_spec st k :
  risk_value (risks (updateRisks st) k) = risk_value (risks st k) /\
  target (risks (updateRisks st) k) =
    Math_round (clamp
      (match k with
       | cardio => (dev (vitals st hr) * 30 + dev (vitals st bp_sys) * 25
                    + dev (vitals st hrv) * 25
                    + Rabs (corrOr0 st (corrKey hr bp_sys)) * 20) * 100
       | respiratory => (dev (vitals st spo2) * 35 + dev (vitals st rr) * 30
                    + dev (vitals st hr) * 15
                    + Rabs (corrOr0 st (corrKey spo2 rr)) * 20) * 100
       | metabolic => (dev (vitals st temp) * 30 + dev (vitals st hr) * 25
                    + dev (vitals st bp_sys) * 20
                    + Rabs (corrOr0 st (corrKey temp hr)) * 25) * 100
       | apnea => (dev (vitals st spo2) * 35 + dev (vitals st rr) * 25
                    + dev (vitals st hrv) * 20
                    + Rabs (corrOr0 st (corrKey spo2 hrv)) * 20) * 100
       end) (riskFloor k) 95).
Proof.
  destruct k; split; reflexivity.
Qed.

Lemma storeTrend_fold_vitals l st : vitals (fold_left storeTrend l st) = vitals st.
Proof. apply (fold_proj vitals storeTrend). reflexivity. Qed.

Lemma beforeRisks_vitals st :
  vitals (beforeRisks W st) =
  vitals (fold_left (fun st s => generateVital W s st) signals
            (maybeTrigger W (set_tick (tick st + 1)%Z st))).
Proof.
  unfold beforeRisks. rewrite updateCorrelations_vitals. apply storeTrend_fold_vitals.
Qed.

Lemma beforeRisks_lookup st i j :
  In i matrixSignals -> In j matrixSignals -> i <> j ->
  corrOr0 (beforeRisks W st) (corrKey i j) =
  pearsonCorrelation (history (vitals (beforeRisks W st) i))
                     (history (vitals (beforeRisks W st) j)).
Proof.
  intros Hi Hj Hne. unfold corrOr0, beforeRisks.
  rewrite updateCorrelations_lookup, updateCorrelations_vitals by assumption.
  unfold corrValue. destruct (Signal_eqb i j) eqn:E; [|reflexivity].
  apply Signal_eqb_eq in E. contradiction.
Qed.

Lemma renderRisks_spec st k :
  target (risks (renderRisks st) k) = target (risks st k) /\
  risk_value (risks (renderRisks st) k) =
    lerp (risk_value (risks st k)) (target (risks st k)) 0.1.
Proof. split; reflexivity. Qed.

(** Once the matrix has been rebuilt, the target [updateRisks] stores is
    the weighted sum, clamped, then rounded to the nearest integer. *)
Lemma updateRisks_weighted st k :
  (forall i j, In i matrixSignals -> In j matrixSignals -> i <> j ->
     corrOr0 st (corrKey i j) =
     pearsonCorrelation (history (vitals st i)) (history (vitals st j))) ->
  target (risks (updateRisks st) k) =
  Math_round (clamp (weighted k st) (riskFloor k) 95).
Proof.
  intros H. rewrite (proj2 (updateRisks_spec st k)).
  unfold weighted, relDev, absCorr, dev.
  destruct k; rewrite H; try reflexivity;
    try (unfold matrixSignals, In; tauto); discriminate.
Qed.

Lemma weighted_ext k st st' : vitals st = vitals st' -> weighted k st = weighted k st'.
Proof. intros H. unfold weighted, relDev, absCorr. rewrite H. reflexivity. Qed.

(** The target a tick stores: the weighted sum, clamped, then rounded to
    the nearest integer. *)
Lemma tick_target st k :
  target (risks (updateAllVitals W st) k) =
  Math_round (clamp (weighted k (updateAllVitals W st)) (riskFloor k) 95).
Proof.
  rewrite (weighted_ext k _ _ (updateAllVitals_vitals st)).
  rewrite updateAllVitals_unfold.
  rewrite (proj1 (renderRisks_spec _ k)).
  apply updateRisks_weighted. intros i j. apply beforeRisks_lookup.
Qed.

(** The score a tick stores: one smoothing step toward the stored target. *)
Lemma tick_value st k :
  risk_value (risks (updateAllVitals W st) k) =
  lerp (risk_value (risks st k)) (target (risks (updateAllVitals W st) k)) 0.1.
Proof.
  rewrite updateAllVitals_unfold.
  rewrite (proj1 (renderRisks_spec _ k)), (proj2 (renderRisks_spec _ k)).
  rewrite (proj1 (updateRisks_spec _ k)), beforeRisks_risks. reflexivity.
Qed.

End Risks.

(** ** The anomaly state machine *)

Section Machine.

Variable W : World.

Lemma generateVital_ctl s st :
  ctl (generateVital W s st) =
  if resolving st then ctl (autoResolve W (tick st) st) else ctl st.
Proof.
  unfold resolving, generateVital, drifted, anomalyDrift, gaussRandom. simpl.
  destruct (anomalyMode st); [|reflexivity]. simpl.
  destruct (20 <? tick st - anomalyModeStart st)%Z; destruct s; reflexivity.
Qed.

Lemma ctl_resolving st st' : ctl st = ctl st' -> resolving st = resolving st'.
Proof. unfold ctl, resolving. intros H. injection H as -> -> -> _ _ _ _ _. reflexivity. Qed.

Lemma autoResolve_resolving t st : resolving (autoResolve W t st) = false.
Proof. reflexivity. Qed.

Lemma signals_fold_ctl l : forall st,
  l <> [] ->
  ctl (fold_left (fun st s => generateVital W s st) l st) =
  if resolving st then ctl (autoResolve W (tick st) st) else ctl st.
Proof.
  induction l as [|s l IH]; intros st Hl; [contradiction|]. simpl.
  destruct l as [|s' l']; [apply generateVital_ctl|].
  rewrite IH by discriminate.
  pose proof (generateVital_ctl s st) as G.
  destruct (resolving st) eqn:R.
  - rewrite (ctl_resolving _ _ G), autoResolve_resolving. exact G.
  - rewrite (ctl_resolving _ _ G), R. exact G.
Qed.

Lemma corrCell_ctl i st j : ctl (corrCell i st j) = ctl st.
Proof. unfold corrCell. now destruct (Signal_eqb i j). Qed.

Lemma updateCorrelations_ctl st : ctl (updateCorrelations st) = ctl st.
Proof.
  unfold updateCorrelations. apply (fold_proj ctl). intros st' i.
  apply (fold_proj ctl). intros st'' j. apply corrCell_ctl.
Qed.

Lemma risks_stage_ctl st : ctl (renderRisks (updateRisks st)) = ctl st.
Proof. reflexivity. Qed.

(** The state machine of one tick: the trigger test, then at most one
    auto-resolve, performed by the first advance of the tick. *)
Lemma updateAllVitals_ctl st :
  ctl (updateAllVitals W st) =
  if resolving (triggered W st)
  then ctl (autoResolve W (tick (triggered W st)) (triggered W st))
  else ctl (triggered W st).
Proof.
  rewrite updateAllVitals_unfold, risks_stage_ctl. unfold beforeRisks.
  rewrite updateCorrelations_ctl.
  rewrite (fold_proj ctl storeTrend) by reflexivity.
  apply signals_fold_ctl. discriminate.
Qed.

Lemma addAnomaly_ctl s t d g v st :
  ctl (addAnomaly W s t d g v st) =
  let l := pushEvent (mkEvent (Date_now W (S (n_clock st)))
                              (formatTime W (Date_now W (n_clock st))) t d g v s)
                     (anomalies st) in
  (tick st, anomalyMode st, anomalyModeStart st, nextAnomalyTick st,
   l, statsOf l, n_random st, S (S (n_clock st))).
Proof. reflexivity. Qed.

Lemma maybeTrigger_fire st :
  anomalyMode st = false -> (nextAnomalyTick st <= tick st)%Z ->
  maybeTrigger W st =
  addAnomaly W active "Multi-Signal Correlation Divergence Detected"
    "HR-SpO2 inverse correlation strengthening while HRV is declining. This pattern may indicate early-stage autonomic stress response. Monitoring closely."
    ["HR↔SpO2"; "HRV Decline"; "Correlation Shift"]%string medium
    (set_anomalyModeStart (tick st) (set_anomalyMode true st)).
Proof.
  intros Hm Hn. unfold maybeTrigger. apply Z.leb_le in Hn. rewrite Hm, Hn.
  reflexivity.
Qed.

Lemma maybeTrigger_skip st :
  anomalyMode st = true \/ (tick st < nextAnomalyTick st)%Z ->
  maybeTrigger W st = st.
Proof.
  intros H. unfold maybeTrigger. destruct H as [H|H].
  - rewrite H. reflexivity.
  - apply Z.leb_gt in H. rewrite H, andb_false_r. reflexivity.
Qed.

Lemma triggered_fire st :
  anomalyMode st = false -> (nextAnomalyTick st <= tick st + 1)%Z ->
  ctl (triggered W st) =
  (tick st + 1, true, tick st + 1, nextAnomalyTick st,
   pushEvent (activeEvent W (n_clock st)) (anomalies st),
   statsOf (pushEvent (activeEvent W (n_clock st)) (anomalies st)),
   n_random st, S (S (n_clock st)))%Z.
Proof.
  intros Hm Hn. unfold triggered.
  rewrite maybeTrigger_fire by assumption. rewrite addAnomaly_ctl. reflexivity.
Qed.

Lemma triggered_skip st :
  anomalyMode st = true \/ (tick st + 1 < nextAnomalyTick st)%Z ->
  ctl (triggered W st) =
  (tick st + 1, anomalyMode st, anomalyModeStart st, nextAnomalyTick st,
   anomalies st, anomalyStats st, n_random st, n_clock st)%Z.
Proof.
  intros H. unfold triggered. rewrite maybeTrigger_skip by assumption.
  reflexivity.
Qed.

Lemma autoResolve_ctl t st :
  ctl (autoResolve W t st) =
  (tick st, false, anomalyModeStart st,
   t + 25 + Zfloor (Math_random W (n_random st) * 20),
   pushEvent (resolvedEvent W (n_clock st)) (anomalies st),
   statsOf (pushEvent (resolvedEvent W (n_clock st)) (anomalies st)),
   S (n_random st), S (S (n_clock st)))%Z.
Proof.
  unfold autoResolve, random.
  match goal with |- ctl (set_nextAnomalyTick ?z (set_n_random ?n ?x)) = _ =>
    change (ctl (set_nextAnomalyTick z (set_n_random n x)))
    with (let '(a, b, c, _, d, e, _, f) := ctl x in (a, b, c, z, d, e, n, f))
  end.
  rewrite addAnomaly_ctl. reflexivity.
Qed.

(** A tick that starts idle with the trigger due: the episode starts. *)
Lemma tick_fire st :
  anomalyMode st = false -> (nextAnomalyTick st <= tick st + 1)%Z ->
  ctl (updateAllVitals W st) = ctl (triggered W st).
Proof.
  intros Hm Hn. rewrite updateAllVitals_ctl.
  pose proof (triggered_fire st Hm Hn) as E.
  assert (R : resolving (triggered W st) = false).
  { unfold resolving. unfold ctl in E. injection E as -> -> -> _ _ _ _.
    rewrite Z.sub_diag. reflexivity. }
  rewrite R. reflexivity.
Qed.

(** A tick that starts idle before the trigger is due: nothing happens. *)
Lemma tick_idle_ctl st :
  anomalyMode st = false -> (tick st + 1 < nextAnomalyTick st)%Z ->
  ctl (updateAllVitals W st) =
  (tick st + 1, false, anomalyModeStart st, nextAnomalyTick st,
   anomalies st, anomalyStats st, n_random st, n_clock st)%Z.
Proof.
  intros Hm Hn. rewrite updateAllVitals_ctl.
  pose proof (triggered_skip st (or_intror Hn)) as E. rewrite Hm in E.
  assert (R : resolving (triggered W st) = false).
  { unfold resolving. unfold ctl in E. injection E as _ -> _ _ _ _ _.
    reflexivity. }
  rewrite R. exact E.
Qed.

(** A tick inside an episode, up to elapsed tick 20: nothing happens. *)
Lemma tick_active_ctl st :
  anomalyMode st = true -> (tick st + 1 - anomalyModeStart st <= 20)%Z ->
  ctl (updateAllVitals W st) =
  (tick st + 1, true, anomalyModeStart st, nextAnomalyTick st,
   anomalies st, anomalyStats st, n_random st, n_clock st)%Z.
Proof.
  intros Hm Hn. rewrite updateAllVitals_ctl.
  pose proof (triggered_skip st (or_introl Hm)) as E. rewrite Hm in E.
  assert (R : resolving (triggered W st) = false).
  { unfold resolving. unfold ctl in E. injection E as -> -> -> _ _ _ _ _.
    simpl. apply Z.ltb_ge. exact Hn. }
  rewrite R. exact E.
Qed.

(** A tick inside an episode with elapsed > 20: the episode resolves. *)
Lemma tick_resolve_ctl st :
  anomalyMode st = true -> (20 < tick st + 1 - anomalyModeStart st)%Z ->
  ctl (updateAllVitals W st) =
  (tick st + 1, false, anomalyModeStart st,
   tick st + 1 + 25 + Zfloor (Math_random W (n_random st) * 20),
   pushEvent (resolvedEvent W (n_clock st)) (anomalies st),
   statsOf (pushEvent (resolvedEvent W (n_clock st)) (anomalies st)),
   S (n_random st), S (S (n_clock st)))%Z.
Proof.
  intros Hm Hn. pose proof (updateAllVitals_ctl st) as U.
  pose proof (triggered_skip st (or_introl Hm)) as E. rewrite Hm in E.
  assert (R : resolving (triggered W st) = true).
  { unfold resolving. unfold ctl in E. injection E as -> -> -> _ _ _ _ _.
    simpl. apply Z.ltb_lt. exact Hn. }
  rewrite R, autoResolve_ctl in U.
  unfold ctl in E. injection E as E1 E2 E3 E4 E5 E6 E7 E8.
  rewrite E1, E3, E5, E7, E8 in U. exact U.
Qed.

Lemma uniformInt_range r : 0 <= r < 1 -> (0 <= Zfloor (r * 20) <= 19)%Z.
Proof.
  intros [H0 H1]. split.
  - apply Zfloor_lub. simpl. lra.
  - assert (Zfloor (r * 20) < 20)%Z; [|lia].
    apply lt_IZR. pose proof (Zfloor_bound (r * 20)). lra.
Qed.

Lemma run_add n m st : run W (n + m) st = run W n (run W m st).
Proof. induction n as [|n IH]; simpl; [reflexivity | now rewrite IH]. Qed.

Lemma run_active k : forall st,
  anomalyMode st = true ->
  (tick st - anomalyModeStart st + Z.of_nat k <= 20)%Z ->
  ctl (run W k st) =
  (tick st + Z.of_nat k, true, anomalyModeStart st, nextAnomalyTick st,
   anomalies st, anomalyStats st, n_random st, n_clock st)%Z.
Proof.
  induction k as [|k IH]; intros st Hm Hk.
  - simpl. unfold ctl. rewrite Hm, Z.add_0_r. reflexivity.
  - specialize (IH st Hm ltac:(lia)). simpl run.
    unfold ctl in IH. injection IH as I1 I2 I3 I4 I5 I6 I7 I8.
    assert (A : (tick (run W k st) + 1 - anomalyModeStart (run W k st) <= 20)%Z)
      by (rewrite I1, I3; clear - Hk; lia).
    rewrite (tick_active_ctl _ I2 A).
    rewrite I1, I3, I4, I5, I6, I7, I8.
    replace (tick st + Z.of_nat (S k))%Z with (tick st + Z.of_nat k + 1)%Z
      by (clear; lia).
    reflexivity.
Qed.

Lemma run_idle k : forall st,
  anomalyMode st = false ->
  (tick st + Z.of_nat k < nextAnomalyTick st)%Z ->
  ctl (run W k st) =
  (tick st + Z.of_nat k, false, anomalyModeStart st, nextAnomalyTick st,
   anomalies st, anomalyStats st, n_random st, n_clock st)%Z.
Proof.
  induction k as [|k IH]; intros st Hm Hk.
  - simpl. unfold ctl. rewrite Hm, Z.add_0_r. reflexivity.
  - specialize (IH st Hm ltac:(lia)). simpl run.
    unfold ctl in IH. injection IH as I1 I2 I3 I4 I5 I6 I7 I8.
    assert (A : (tick (run W k st) + 1 < nextAnomalyTick (run W k st))%Z)
      by (rewrite I1, I4; clear - Hk; lia).
    rewrite (tick_idle_ctl _ I2 A).
    rewrite I1, I3, I4, I5, I6, I7, I8.
    replace (tick st + Z.of_nat (S k))%Z with (tick st + Z.of_nat k + 1)%Z
      by (clear; lia).
    reflexivity.
Qed.

Lemma times_proj {B} (p : State -> B) (f : State -> State) n :
  (forall st, p (f st) = p st) -> forall st, p (times n f st) = p st.
Proof.
  intros H. induction n as [|n IH]; intros st; simpl; [reflexivity|].
  rewrite IH. apply H.
Qed.

Lemma addAnomaly_sched s t d g v st : sched (addAnomaly W s t d g v st) = sched st.
Proof. reflexivity. Qed.

Lemma risks_stage_sched st : sched (renderRisks (updateRisks st)) = sched st.
Proof. reflexivity. Qed.

Lemma updateCorrelations_sched st : sched (updateCorrelations st) = sched st.
Proof.
  unfold updateCorrelations. apply (fold_proj sched). intros st' i.
  apply (fold_proj sched). intros st'' j. unfold corrCell.
  now destruct (Signal_eqb i j).
Qed.

Lemma init_sched st : sched (init W st) = sched st.
Proof.
  unfold init.
  rewrite addAnomaly_sched, risks_stage_sched, updateCorrelations_sched.
  rewrite (fold_proj sched
             (fun st s => times 20 (fun st => prefillTrend W st s) st))
    by (intros st' a; apply (times_proj sched); reflexivity).
  apply (fold_proj sched
           (fun st s => times 15 (fun st => prefillHistory W st s) st)).
  intros st' a. apply (times_proj sched). reflexivity.
Qed.

Lemma ctl_fields st a b c d e f g h :
  ctl st = (a, b, c, d, e, f, g, h) ->
  tick st = a /\ anomalyMode st = b /\ anomalyModeStart st = c /\
  nextAnomalyTick st = d /\ anomalies st = e /\ n_clock st = h.
Proof. unfold ctl. intros H. injection H as -> -> -> -> -> _ _ ->. tauto. Qed.

Lemma sched_fields st a b c :
  sched st = (a, b, c) -> tick st = a /\ anomalyMode st = b /\ nextAnomalyTick st = c.
Proof. unfold sched. intros H. injection H as -> -> ->. tauto. Qed.

Lemma init_state0_sched :
  tick (init W state0) = 0%Z /\ anomalyMode (init W state0) = false /\
  nextAnomalyTick (init W state0) = 30%Z.
Proof. apply sched_fields. rewrite init_sched. reflexivity. Qed.

End Machine.

(** C5. A tick that starts idle with the incremented tick at or past
    [nextAnomalyTick] ends active with [anomalyModeStart] equal to the
    current tick, and its only change to the log is one append of the
    'active' / 'medium' event.  From the initial state (idle, first trigger
    at 30) no tick before the thirtieth activates, and the thirtieth does. *)
Theorem C5_idle_to_active :
  (forall (W : World) (st : State),
     anomalyMode st = false -> (nextAnomalyTick st <= tick st + 1)%Z ->
     let st' := updateAllVitals W st in
     tick st' = (tick st + 1)%Z /\
     anomalyMode st' = true /\
     anomalyModeStart st' = tick st' /\
     anomalies st' = pushEvent (activeEvent W (n_clock st)) (anomalies st) /\
     status (activeEvent W (n_clock st)) = active /\
     severity (activeEvent W (n_clock st)) = medium) /\
  (forall (W : World) (n : nat), (n < 30)%nat ->
     anomalyMode (run W n (init W state0)) = false /\
     anomalies (run W n (init W state0)) = anomalies (init W state0)) /\
  (forall W : World,
     tick (run W 30 (init W state0)) = 30%Z /\
     anomalyMode (run W 30 (init W state0)) = true /\
     anomalyModeStart (run W 30 (init W state0)) = 30%Z).
Proof.
  split; [|split].
  - intros W st Hm Hn st'. unfold st'.
    pose proof (tick_fire W st Hm Hn) as E.
    rewrite (triggered_fire W st Hm Hn) in E.
    apply ctl_fields in E. destruct E as (E1 & E2 & E3 & _ & E5 & _).
    rewrite E1, E2, E3, E5. repeat split.
  - intros W n Hn.
    destruct (init_state0_sched W) as (S1 & S2 & S3).
    assert (A : (tick (init W state0) + Z.of_nat n < nextAnomalyTick (init W state0))%Z)
      by (rewrite S1, S3; clear - Hn; lia).
    pose proof (run_idle W n _ S2 A) as E.
    apply ctl_fields in E. destruct E as (_ & E2 & _ & _ & E5 & _). auto.
  - intros W.
    destruct (init_state0_sched W) as (S1 & S2 & S3).
    assert (A : (tick (init W state0) + Z.of_nat 29 < nextAnomalyTick (init W state0))%Z)
      by (rewrite S1, S3; clear; lia).
    pose proof (run_idle W 29 _ S2 A) as E.
    apply ctl_fields in E. destruct E as (E1 & E2 & _ & E4 & _ & _).
    change (run W 30 (init W state0))
      with (updateAllVitals W (run W 29 (init W state0))).
    assert (B : (nextAnomalyTick (run W 29 (init W state0))
                 <= tick (run W 29 (init W state0)) + 1)%Z)
      by (rewrite E1, E4, S1, S3; clear; lia).
    pose proof (tick_fire W _ E2 B) as F.
    rewrite (triggered_fire W _ E2 B) in F.
    apply ctl_fields in F. destruct F as (F1 & F2 & F3 & _).
    rewrite F1, F2, F3, E1, S1. repeat split.
Qed.

Lemma C5_witness :
  anomalyMode dueState = false /\
  (nextAnomalyTick dueState <= tick dueState + 1)%Z /\
  anomalyMode (updateAllVitals world0 dueState) = true.
Proof.
  assert (Hm : anomalyMode dueState = false) by reflexivity.
  assert (Hn : (nextAnomalyTick dueState <= tick dueState + 1)%Z) by (simpl; lia).
  split; [exact Hm|]. split; [exact Hn|].
  exact (proj1 (proj2 (proj1 C5_idle_to_active world0 dueState Hm Hn))).
Defined.

(** C4. An episode that becomes active at tick [T] stays active through
    tick [T + 20] without touching the log, and resolves during tick
    [T + 21], the first with elapsed > 20: that tick's only change to the
    log is one append of the 'auto-resolved' / 'low' event, and it sets
    [nextAnomalyTick] within [T + 21 + 25, T + 21 + 44]. *)
Theorem C4_episode_resolves_at_elapsed_21 :
  forall (W : World) (st : State),
    (forall k, 0 <= Math_random W k < 1) ->
    anomalyMode st = false -> (nextAnomalyTick st <= tick st + 1)%Z ->
    let T := (tick st + 1)%Z in
    (forall k, (k <= 20)%nat ->
       tick (run W (k + 1) st) = (T + Z.of_nat k)%Z /\
       anomalyMode (run W (k + 1) st) = true /\
       anomalyModeStart (run W (k + 1) st) = T /\
       anomalies (run W (k + 1) st) = anomalies (run W 1 st)) /\
    tick (run W 22 st) = (T + 21)%Z /\
    anomalyMode (run W 22 st) = false /\
    anomalies (run W 22 st) =
      pushEvent (resolvedEvent W (n_clock (run W 21 st))) (anomalies (run W 21 st)) /\
    status (resolvedEvent W (n_clock (run W 21 st))) = auto_resolved /\
    severity (resolvedEvent W (n_clock (run W 21 st))) = low /\
    (T + 21 + 25 <= nextAnomalyTick (run W 22 st) <= T + 21 + 44)%Z.
Proof.
  intros W st Hr Hm Hn T.
  pose proof (tick_fire W st Hm Hn) as E.
  rewrite (triggered_fire W st Hm Hn) in E.
  change (updateAllVitals W st) with (run W 1 st) in E.
  apply ctl_fields in E. destruct E as (E1 & E2 & E3 & _).
  assert (Act : forall k, (k <= 20)%nat ->
            ctl (run W (k + 1) st) =
            (T + Z.of_nat k, true, T, nextAnomalyTick (run W 1 st),
             anomalies (run W 1 st), anomalyStats (run W 1 st),
             n_random (run W 1 st), n_clock (run W 1 st))%Z).
  { intros k Hk. rewrite run_add.
    assert (A : (tick (run W 1 st) - anomalyModeStart (run W 1 st) + Z.of_nat k <= 20)%Z)
      by (rewrite E1, E3; clear - Hk; lia).
    rewrite (run_active W k _ E2 A), E1, E3. reflexivity. }
  split.
  - intros k Hk. specialize (Act k Hk). apply ctl_fields in Act.
    destruct Act as (A1 & A2 & A3 & _ & A5 & _). auto.
  - pose proof (Act 20%nat (le_n _)) as A. change (20 + 1)%nat with 21%nat in A.
    apply ctl_fields in A. destruct A as (A1 & A2 & A3 & _ & _ & _).
    change (run W 22 st) with (updateAllVitals W (run W 21 st)).
    assert (B : (20 < tick (run W 21 st) + 1 - anomalyModeStart (run W 21 st))%Z)
      by (rewrite A1, A3; clear; lia).
    pose proof (tick_resolve_ctl W _ A2 B) as R.
    apply ctl_fields in R. destruct R as (R1 & R2 & _ & R4 & R5 & _).
    rewrite R1, R2, R4, R5, A1.
    pose proof (uniformInt_range _ (Hr (n_random (run W 21 st)))) as U.
    split; [clear; simpl; lia|]. split; [reflexivity|]. split; [reflexivity|].
    split; [reflexivity|]. split; [reflexivity|].
    clear - U. simpl Z.of_nat. lia.
Qed.

Lemma C4_witness :
  (forall k, 0 <= Math_random world0 k < 1) /\
  anomalyMode dueState = false /\
  (nextAnomalyTick dueState <= tick dueState + 1)%Z /\
  anomalyMode (run world0 22 dueState) = false.
Proof.
  assert (Hr : forall k, 0 <= Math_random world0 k < 1) by (intros k; simpl; lra).
  assert (Hm : anomalyMode dueState = false) by reflexivity.
  assert (Hn : (nextAnomalyTick dueState <= tick dueState + 1)%Z) by (simpl; lia).
  split; [exact Hr|]. split; [exact Hm|]. split; [exact Hn|].
  exact (proj1 (proj2 (proj2
           (C4_episode_resolves_at_elapsed_21 world0 dueState Hr Hm Hn)))).
Defined.

(** ** The anomaly event log *)

Section EventLog.

Variable W : World.

Lemma removelast_firstn_len {A} (l : list A) :
  removelast l = firstn (length l - 1) l.
Proof.
  induction l as [|a l IH]; [reflexivity|].
  destruct l as [|b l]; [reflexivity|].
  change (removelast (a :: b :: l)) with (a :: removelast (b :: l)).
  rewrite IH. simpl. rewrite Nat.sub_0_r. reflexivity.
Qed.

Lemma pushEvent_firstn ev l :
  (length l <= 15)%nat -> pushEvent ev l = firstn 15 (ev :: l).
Proof.
  intros H. unfold pushEvent.
  destruct (Nat.ltb_spec 15 (length (ev :: l))) as [C|C].
  - rewrite removelast_firstn_len. f_equal. simpl in *. lia.
  - symmetry. apply firstn_all2. exact C.
Qed.

Lemma pushEvent_length ev l :
  (length l <= 15)%nat -> (length (pushEvent ev l) <= 15)%nat.
Proof.
  intros H. rewrite pushEvent_firstn by assumption. rewrite length_firstn. lia.
Qed.

Lemma append_spec st r :
  anomalies (logAppend W st r) = pushEvent (eventOf W (n_clock st) r) (anomalies st) /\
  anomalyStats (logAppend W st r) = statsOf (anomalies (logAppend W st r)) /\
  n_clock (logAppend W st r) = S (S (n_clock st)).
Proof. destruct r as [[[[s t] d] g] v]. repeat split. Qed.

Lemma appends_length rs : forall st,
  (length (anomalies st) <= 15)%nat ->
  (length (anomalies (fold_left (logAppend W) rs st)) <= 15)%nat.
Proof.
  induction rs as [|r rs IH]; intros st H; simpl; [assumption|].
  apply IH. rewrite (proj1 (append_spec st r)). now apply pushEvent_length.
Qed.

Lemma appends_stats rs : forall st,
  rs <> [] ->
  anomalyStats (fold_left (logAppend W) rs st) =
  statsOf (anomalies (fold_left (logAppend W) rs st)).
Proof.
  induction rs as [|r rs IH]; intros st H; [contradiction|]. simpl.
  destruct rs as [|r' rs']; [apply append_spec|].
  apply IH. discriminate.
Qed.

Lemma isCritical_iff a : isCritical a = true <-> severity a = high \/ status a = active.
Proof.
  unfold isCritical. destruct (severity a), (status a); split; intros H;
    try reflexivity; try discriminate; auto;
    destruct H as [H|H]; discriminate.
Qed.

Lemma isResolved_iff a : isResolved a = true <-> status a = auto_resolved.
Proof. unfold isResolved. destruct (status a); split; congruence. Qed.

End EventLog.

(** C7. Starting from a log of at most 15 events, after any sequence of
    appends the log holds at most 15 events; each append puts the new event
    at the front and keeps the 15 most recent, so that on a full log the
    oldest (last) event is dropped; after every append [total] is the
    length of the log, [critical] the number of events with severity
    'high' or status 'active', [resolved] the number with status
    'auto-resolved'. *)
Theorem C7_event_log :
  forall (W : World) (st : State) (rs : list Request) (r : Request),
    (length (anomalies st) <= 15)%nat ->
    let before := fold_left (logAppend W) rs st in
    let after := logAppend W before r in
    let ev := eventOf W (n_clock before) r in
    (length (anomalies before) <= 15)%nat /\
    (length (anomalies after) <= 15)%nat /\
    anomalies after = firstn 15 (ev :: anomalies before) /\
    hd_error (anomalies after) = Some ev /\
    (length (anomalies before) = 15%nat ->
       anomalies after = ev :: removelast (anomalies before)) /\
    total (anomalyStats after) = length (anomalies after) /\
    critical (anomalyStats after) = length (filter isCritical (anomalies after)) /\
    resolved (anomalyStats after) = length (filter isResolved (anomalies after)) /\
    (forall a, isCritical a = true <-> severity a = high \/ status a = active) /\
    (forall a, isResolved a = true <-> status a = auto_resolved).
Proof.
  intros W st rs r H before after ev.
  assert (Hb : (length (anomalies before) <= 15)%nat) by now apply appends_length.
  destruct (append_spec W before r) as (E1 & E2 & _). fold after ev in E1, E2.
  rewrite pushEvent_firstn in E1 by assumption.
  split; [exact Hb|]. split; [rewrite E1, length_firstn; lia|].
  split; [exact E1|]. split; [rewrite E1; reflexivity|].
  split.
  - intros L. rewrite E1. change (firstn 15 (ev :: anomalies before))
      with (ev :: firstn 14 (anomalies before)).
    rewrite removelast_firstn_len, L. reflexivity.
  - rewrite E2. repeat split; try apply isCritical_iff; apply isResolved_iff.
Qed.

Lemma C7_witness :
  (length (anomalies state0) <= 15)%nat /\
  hd_error (anomalies (logAppend world0 state0 (info, "t", "d", [], low)%string))
  = Some (eventOf world0 0 (info, "t", "d", [], low)%string).
Proof.
  assert (H : (length (anomalies state0) <= 15)%nat) by (simpl; lia).
  split; [exact H|].
  exact (proj1 (proj2 (proj2 (proj2
           (C7_event_log world0 state0 [] (info, "t", "d", [], low)%string H))))).
Defined.

(** ** Exponential smoothing of the risk scores *)

Section Smoothing.

Variable W : World.

Lemma lerp_closed_form v t n :
  lerp (t - (t - v) * 0.9 ^ n) t 0.1 = t - (t - v) * 0.9 ^ S n.
Proof.
  unfold lerp. rewrite <- tech_pow_Rmult. generalize (0.9 ^ n). intros p.
  replace 0.1 with (1 / 10) by lra. replace 0.9 with (9 / 10) by lra. field.
Qed.

Lemma renderRisks_iter st k n :
  target (risks (times n renderRisks st) k) = target (risks st k) /\
  risk_value (risks (times n renderRisks st) k) =
    target (risks st k) - (target (risks st k) - risk_value (risks st k)) * 0.9 ^ n.
Proof.
  induction n as [|n [IHt IHv]].
  - simpl. split; [reflexivity | ring].
  - rewrite times_S.
    destruct (renderRisks_spec (times n renderRisks st) k) as [Ht Hv].
    rewrite Ht, Hv, IHt, IHv. split; [reflexivity | apply lerp_closed_form].
Qed.

Lemma run_constant_target st k T n :
  (forall j, (1 <= j <= n)%nat -> target (risks (run W j st) k) = T) ->
  risk_value (risks (run W n st) k) = T - (T - risk_value (risks st k)) * 0.9 ^ n.
Proof.
  induction n as [|n IH]; intros H.
  - simpl. ring.
  - change (run W (S n) st) with (updateAllVitals W (run W n st)).
    rewrite tick_value.
    change (updateAllVitals W (run W n st)) with (run W (S n) st).
    rewrite (H (S n)) by lia. rewrite IH by (intros j Hj; apply H; lia).
    apply lerp_closed_form.
Qed.

End Smoothing.

(** C9. Smoothing toward a constant target follows the closed form
    [value_n = target - (target - value_0) * 0.9 ^ n]: for repeated
    [renderRisks] (which never writes the target), and for [n] ticks of the
    whole pipeline whenever the stored target is the same after each of
    them.  With value and target both 12 the value is 12 after every
    number of steps. *)
Theorem C9_smoothing_closed_form :
  (forall (st : State) (k : RiskKey) (n : nat),
     let st' := times n renderRisks st in
     target (risks st' k) = target (risks st k) /\
     risk_value (risks st' k) =
       target (risks st k)
       - (target (risks st k) - risk_value (risks st k)) * 0.9 ^ n) /\
  (forall (W : World) (st : State) (k : RiskKey) (T : R) (n : nat),
     (forall j, (1 <= j <= n)%nat -> target (risks (run W j st) k) = T) ->
     risk_value (risks (run W n st) k) =
       T - (T - risk_value (risks st k)) * 0.9 ^ n) /\
  (forall n, risk_value (risks (times n renderRisks state0) cardio) = 12) /\
  (forall (W : World) (st : State) (k : RiskKey) (n : nat),
     risk_value (risks st k) = 12 ->
     (forall j, (1 <= j <= n)%nat -> target (risks (run W j st) k) = 12) ->
     risk_value (risks (run W n st) k) = 12).
Proof.
  split; [exact renderRisks_iter|]. split; [exact run_constant_target|]. split.
  - intros n. rewrite (proj2 (renderRisks_iter state0 cardio n)). simpl. ring.
  - intros W st k n Hv Ht. rewrite (run_constant_target W st k 12 n Ht), Hv. ring.
Qed.

Lemma C9_witness :
  let T := target (risks (run world0 1 state0) cardio) in
  (forall j, (1 <= j <= 1)%nat -> target (risks (run world0 j state0) cardio) = T) /\
  risk_value (risks (run world0 1 state0) cardio) =
    T - (T - risk_value (risks state0 cardio)) * 0.9 ^ 1.
Proof.
  intros T.
  assert (H : forall j, (1 <= j <= 1)%nat ->
                target (risks (run world0 j state0) cardio) = T).
  { intros j Hj. assert (j = 1%nat) as -> by lia. reflexivity. }
  split; [exact H|].
  exact (proj1 (proj2 C9_smoothing_closed_form) world0 state0 cardio T 1%nat H).
Defined.

(** ** Signal values written by a tick *)

Section TickValues.

Variable W : World.

Lemma idle_fold l : forall st,
  anomalyMode st = false ->
  fold_left (fun st s => generateVital W s st) l st =
  fold_left (fun st s => idleGen W s st) l st.
Proof.
  induction l as [|s l IH]; intros st H; simpl; [reflexivity|].
  rewrite generateVital_idle by assumption. apply IH. exact H.
Qed.

Lemma idle_signals_vitals st s :
  vitals (fold_left (fun st s => idleGen W s st) signals st) s =
  store (vitals st s)
        (baseValue (tick st) (gaussAt W (sigIndex s + n_gauss st)) (vitals st s)).
Proof. destruct s; reflexivity. Qed.

(** A tick outside any episode advances every signal without drift. *)
Lemma tick_idle_vitals st s :
  anomalyMode st = false -> (tick st + 1 < nextAnomalyTick st)%Z ->
  vitals (updateAllVitals W st) s =
  store (vitals st s)
        (baseValue (tick st + 1) (gaussAt W (sigIndex s + n_gauss st)) (vitals st s)).
Proof.
  intros Hm Hn. rewrite updateAllVitals_vitals, beforeRisks_vitals.
  rewrite maybeTrigger_skip by (right; exact Hn).
  rewrite idle_fold by exact Hm. apply idle_signals_vitals.
Qed.

Lemma tick_quiet st s :
  anomalyMode st = false -> (tick st + 1 < nextAnomalyTick st)%Z ->
  quiet s st ->
  let v := vitals st s in
  let v' := vitals (updateAllVitals W st) s in
  let y := round1 (value v + (baseline v - value v) * 0.08) in
  value v' = y /\ baseline v' = baseline v /\
  history v' = pushCapped chartPoints (history v) y.
Proof.
  intros Hm Hn (_ & Hvar & _ & _ & Hv & Hb) v v' y.
  unfold v'. rewrite tick_idle_vitals by assumption. fold v.
  unfold store. simpl. rewrite baseValue_quiet by assumption.
  rewrite clamp_id by (fold v in Hv, Hb; lra). auto.
Qed.

End TickValues.

(** ** One tick from [stuckState] in the noiseless world *)

Section StuckTick.

Lemma stuck_quiet s : quiet s stuckState.
Proof.
  unfold quiet, onGrid. split; [reflexivity|]. split; [reflexivity|].
  destruct s; simpl; (split; [|split; [|lra]]).
  - exists 725%Z; lra.
  - exists 720%Z; lra.
  - exists 980%Z; lra.
  - exists 980%Z; lra.
  - exists 1200%Z; lra.
  - exists 1200%Z; lra.
  - exists 800%Z; lra.
  - exists 800%Z; lra.
  - exists 986%Z; lra.
  - exists 986%Z; lra.
  - exists 160%Z; lra.
  - exists 160%Z; lra.
  - exists 420%Z; lra.
  - exists 420%Z; lra.
Qed.

Lemma stuck_near s :
  Rabs (value (vitals stuckState s) - baseline (vitals stuckState s)) <= 0.6.
Proof.
  destruct s; simpl;
    try (rewrite Rabs_right; lra).
Qed.

Lemma stuck_tick s :
  let v' := vitals (updateAllVitals world0 stuckState) s in
  value v' = value (vitals stuckState s) /\
  baseline v' = baseline (vitals stuckState s) /\
  history v' = [value (vitals stuckState s)].
Proof.
  assert (Hm : anomalyMode stuckState = false) by reflexivity.
  assert (Hn : (tick stuckState + 1 < nextAnomalyTick stuckState)%Z) by (simpl; lia).
  destruct (tick_quiet world0 stuckState s Hm Hn (stuck_quiet s)) as (E1 & E2 & E3).
  destruct (stuck_quiet s) as (_ & _ & Gv & Gb & _).
  destruct (quiet_step_grid _ _ Gv Gb) as (_ & _ & _ & _ & M).
  specialize (M (stuck_near s)).
  cbv zeta. rewrite E1, E2, E3, M. repeat split.
  destruct s; reflexivity.
Qed.

Lemma stuck_weighted :
  weighted cardio (updateAllVitals world0 stuckState) = 125 / 6.
Proof.
  unfold weighted, relDev, absCorr.
  destruct (stuck_tick hr) as (V1 & B1 & H1).
  destruct (stuck_tick bp_sys) as (V2 & B2 & H2).
  destruct (stuck_tick hrv) as (V3 & B3 & _).
  rewrite V1, B1, H1, V2, B2, H2, V3, B3.
  rewrite pearson_short by (simpl; lia). simpl.
  replace (120 - 120) with 0 by lra. replace (42 - 42) with 0 by lra.
  rewrite Rabs_R0. rewrite Rabs_right by lra. lra.
Qed.

Lemma stuck_target :
  target (risks (updateAllVitals world0 stuckState) cardio) = 21.
Proof.
  rewrite tick_target, stuck_weighted. simpl riskFloor.
  rewrite clamp_id by lra. unfold Math_round.
  rewrite (Zfloor_eq 21); [reflexivity | lra].
Qed.

End StuckTick.

Lemma Math_round_between (a b : Z) x :
  IZR a <= x <= IZR b -> IZR a <= Math_round x <= IZR b.
Proof.
  intros [Ha Hb]. unfold Math_round.
  assert (La : (a <= Zfloor (x + 1 / 2))%Z) by (apply Zfloor_lub; lra).
  assert (Lb : (Zfloor (x + 1 / 2) < b + 1)%Z).
  { apply lt_IZR. rewrite plus_IZR.
    pose proof (Zfloor_bound (x + 1 / 2)) as [Hf _]. simpl. lra. }
  assert (Lb' : (Zfloor (x + 1 / 2) <= b)%Z) by (clear - Lb; lia).
  apply IZR_le in La, Lb'. lra.
Qed.

(** C8, as stated, fails: one noiseless tick with the heart rate at 72.5
    gives the cardio sum [0.5 / 72 * 30 * 100 = 125 / 6], within [3, 95],
    but the stored target is 21. *)
Lemma C8_counterexample :
  clamp (weighted cardio (updateAllVitals world0 stuckState)) (riskFloor cardio) 95
    = 125 / 6 /\
  target (risks (updateAllVitals world0 stuckState) cardio) = 21 /\
  target (risks (updateAllVitals world0 stuckState) cardio) <>
  clamp (weighted cardio (updateAllVitals world0 stuckState)) (riskFloor cardio) 95.
Proof.
  assert (E : clamp (weighted cardio (updateAllVitals world0 stuckState))
                    (riskFloor cardio) 95 = 125 / 6).
  { rewrite stuck_weighted. simpl riskFloor. apply clamp_id. lra. }
  split; [exact E|]. split; [exact stuck_target|].
  rewrite E, stuck_target. lra.
Qed.

(** C3 (amended). Every tick updates each score as
    [value + (target - value) * 0.1] where [target] is the target stored by
    that tick; unless a baseline is zero (the code then divides by zero),
    that target is an integer of the category range, the result of
    [Math.round]: the smoothing converges toward the rounded target. *)
Theorem C3_smoothing_uses_stored_rounded_target :
  forall (W : World) (st : State) (k : RiskKey),
    let st' := updateAllVitals W st in
    risk_value (risks st' k) =
      risk_value (risks st k) + (target (risks st' k) - risk_value (risks st k)) * 0.1 /\
    ((forall s, baseline (vitals st s) <> 0) ->
     (exists z : Z, target (risks st' k) = IZR z) /\
     riskFloor k <= target (risks st' k) <= 95).
Proof.
  intros W st k st'. unfold st'. split; [apply tick_value|].
  intros _. rewrite tick_target. split.
  - unfold Math_round. eexists. reflexivity.
  - destruct k; simpl riskFloor.
    + apply (Math_round_between 3 95), clamp_between; lra.
    + apply (Math_round_between 2 95), clamp_between; lra.
    + apply (Math_round_between 3 95), clamp_between; lra.
    + apply (Math_round_between 1 95), clamp_between; lra.
Qed.

Lemma C3_witness :
  (forall s, baseline (vitals stuckState s) <> 0) /\
  exists z : Z, target (risks (updateAllVitals world0 stuckState) cardio) = IZR z.
Proof.
  assert (B : forall s, baseline (vitals stuckState s) <> 0).
  { intros s. destruct s; simpl; lra. }
  split; [exact B|].
  exact (proj1 (proj2 (C3_smoothing_uses_stored_rounded_target
                         world0 stuckState cardio) B)).
Defined.

(** C3, as stated, fails: in the same tick the cardio score moves from 12
    to [12 + (21 - 12) * 0.1 = 12.9], a step toward the rounded target 21,
    not toward the unrounded clamped sum [125 / 6]. *)
Lemma C3_counterexample :
  risk_value (risks (updateAllVitals world0 stuckState) cardio) = 12.9 /\
  risk_value (risks (updateAllVitals world0 stuckState) cardio) <>
  risk_value (risks stuckState cardio)
  + (clamp (weighted cardio (updateAllVitals world0 stuckState)) (riskFloor cardio) 95
     - risk_value (risks stuckState cardio)) * 0.1.
Proof.
  assert (V : risk_value (risks (updateAllVitals world0 stuckState) cardio) = 12.9).
  { rewrite tick_value, stuck_target. unfold lerp. simpl. lra. }
  split; [exact V|].
  rewrite V, stuck_weighted. simpl riskFloor. rewrite clamp_id by lra. simpl. lra.
Qed.

(** ** Signal values written by the resolving tick *)

Section ResolvingTick.

Variable W : World.

Lemma generateVital_resolve_hr st :
  anomalyMode st = true -> (20 < tick st - anomalyModeStart st)%Z ->
  let st' := generateVital W hr st in
  vitals st' =
    upd (vitals st) hr
      (store (vitals st hr)
         (baseValue (tick st) (gaussAt W (n_gauss st)) (vitals st hr)
          + (Rmin (IZR (tick st - anomalyModeStart st) / 15) 1 * 8
             + gaussAt W (S (n_gauss st)) * 2))) /\
  anomalyMode st' = false /\ tick st' = tick st /\
  n_gauss st' = S (S (n_gauss st)).
Proof.
  intros Hm He. apply Z.ltb_lt in He.
  unfold generateVital, drifted, anomalyDrift, gaussRandom. simpl.
  rewrite Hm. simpl. rewrite He. repeat split.
Qed.

Lemma idle_rest_vitals st s :
  s <> hr ->
  vitals (fold_left (fun st s => idleGen W s st)
                    [spo2; bp_sys; bp_dia; temp; rr; hrv] st) s =
  store (vitals st s)
        (baseValue (tick st) (gaussAt W (sigIndex s - 1 + n_gauss st)) (vitals st s)).
Proof. intros H. destruct s; try reflexivity. contradiction. Qed.

Lemma idle_fold_untouched l : forall st s,
  ~ In s l ->
  vitals (fold_left (fun st s => idleGen W s st) l st) s = vitals st s.
Proof.
  induction l as [|a l IH]; intros st s H; simpl; [reflexivity|].
  rewrite IH by (intros C; apply H; right; exact C).
  unfold idleGen; simpl. apply upd_other. intros ->. apply H. left. reflexivity.
Qed.

Lemma fold_left_head {A B} (f : A -> B -> A) b l a :
  fold_left f (b :: l) a = fold_left f l (f a b).
Proof. reflexivity. Qed.

Lemma full_severity e : (20 < e)%Z -> Rmin (IZR e / 15) 1 = 1.
Proof.
  intros H. apply Rmin_right. apply IZR_lt in H. lra.
Qed.

End ResolvingTick.

(** C10. On the tick that resolves an episode (elapsed > 20 at the start
    of the signal loop) the heart rate, advanced first, still receives the
    anomaly drift at full severity, [8 + 2 g]; it is its advance that
    clears [anomalyMode], so every signal advanced after it in that tick
    is stored from the tentative value without any drift. *)
Theorem C10_only_first_signal_drifts_on_resolving_tick :
  forall (W : World) (st : State),
    anomalyMode st = true ->
    (20 < tick st + 1 - anomalyModeStart st)%Z ->
    let T := (tick st + 1)%Z in
    let st' := updateAllVitals W st in
    vitals st' hr =
      store (vitals st hr)
            (baseValue T (gaussAt W (n_gauss st)) (vitals st hr)
             + (1 * 8 + gaussAt W (S (n_gauss st)) * 2)) /\
    (forall s, s <> hr ->
       vitals st' s =
         store (vitals st s)
               (baseValue T (gaussAt W (sigIndex s + 1 + n_gauss st)) (vitals st s))) /\
    anomalyMode st' = false.
Proof.
  intros W st Hm He T st'.
  assert (Hv : vitals st' =
               vitals (fold_left (fun st s => generateVital W s st) signals
                         (set_tick T st))).
  { unfold st'. rewrite updateAllVitals_vitals, beforeRisks_vitals.
    rewrite maybeTrigger_skip by (left; exact Hm). reflexivity. }
  assert (Hmode : anomalyMode st' = false).
  { pose proof (tick_resolve_ctl W st Hm He) as C. apply ctl_fields in C. apply C. }
  split; [|split; [|exact Hmode]].
  - rewrite Hv. unfold signals.
    rewrite fold_left_head.
    destruct (generateVital_resolve_hr W (set_tick T st) Hm He) as (G1 & G2 & G3 & G4).
    rewrite idle_fold by exact G2.
    rewrite idle_fold_untouched by (simpl; intuition discriminate).
    rewrite G1, upd_same.
    change (tick (set_tick T st)) with T.
    change (vitals (set_tick T st) hr) with (vitals st hr).
    change (n_gauss (set_tick T st)) with (n_gauss st).
    change (anomalyModeStart (set_tick T st)) with (anomalyModeStart st).
    unfold T. rewrite full_severity by exact He. reflexivity.
  - intros s Hs. rewrite Hv. unfold signals.
    rewrite fold_left_head.
    destruct (generateVital_resolve_hr W (set_tick T st) Hm He) as (G1 & G2 & G3 & G4).
    rewrite idle_fold by exact G2.
    rewrite idle_rest_vitals by exact Hs.
    rewrite G1, G3, G4, upd_other by (intros E; apply Hs; symmetry; exact E).
    change (tick (set_tick T st)) with T.
    change (vitals (set_tick T st) s) with (vitals st s).
    change (n_gauss (set_tick T st)) with (n_gauss st).
    replace (sigIndex s - 1 + S (S (n_gauss st)))%nat
      with (sigIndex s + 1 + n_gauss st)%nat; [reflexivity|].
    destruct s; simpl; try lia. contradiction.
Qed.

Lemma C10_witness :
  anomalyMode lateState = true /\
  (20 < tick lateState + 1 - anomalyModeStart lateState)%Z /\
  anomalyMode (updateAllVitals world0 lateState) = false.
Proof.
  assert (Hm : anomalyMode lateState = true) by reflexivity.
  assert (He : (20 < tick lateState + 1 - anomalyModeStart lateState)%Z)
    by (simpl; lia).
  split; [exact Hm|]. split; [exact He|].
  exact (proj2 (proj2
           (C10_only_first_signal_drifts_on_resolving_tick world0 lateState Hm He))).
Defined.

(** * Further properties of the engine *)

(** ** Utilities *)

(** X1. [clamp] returns a value of [lo, hi] whenever the range is not
    empty, leaves values of the range alone, is idempotent, and on an
    empty range ([hi < lo]) returns [lo] whatever the value. *)
Theorem clamp_behaviour :
  forall v lo hi,
    (lo <= hi -> lo <= clamp v lo hi <= hi) /\
    (lo <= v <= hi -> clamp v lo hi = v) /\
    (v < lo -> lo <= hi -> clamp v lo hi = lo) /\
    (hi < v -> lo <= hi -> clamp v lo hi = hi) /\
    clamp (clamp v lo hi) lo hi = clamp v lo hi /\
    (hi < lo -> clamp v lo hi = lo).
Proof.
  intros v lo hi.
  assert (E : hi < lo -> forall w, clamp w lo hi = lo).
  { intros H w. unfold clamp. apply Rmax_left.
    pose proof (Rmin_l hi w). lra. }
  split; [apply clamp_between|]. split; [apply clamp_id|].
  split; [|split; [|split; [|intros H; now apply E]]].
  - intros H1 H2. unfold clamp. rewrite Rmin_right by lra. apply Rmax_left. lra.
  - intros H1 H2. unfold clamp. rewrite Rmin_left by lra. apply Rmax_right. lra.
  - destruct (Rle_or_lt lo hi) as [L|L].
    + apply clamp_id. now apply clamp_between.
    + rewrite !E by assumption. reflexivity.
Qed.

Lemma clamp_behaviour_witness :
  clamp 7 3 95 = 7 /\ clamp 120 3 95 = 95 /\ clamp 50 95 3 = 95.
Proof.
  destruct (clamp_behaviour 7 3 95) as (_ & A & _).
  destruct (clamp_behaviour 120 3 95) as (_ & _ & _ & B & _).
  destruct (clamp_behaviour 50 95 3) as (_ & _ & _ & _ & _ & C).
  split; [apply A; lra|]. split; [apply B; lra | apply C; lra].
Defined.

(** X2. [lerp a b t] is [a] at 0 and [b] at 1, and for [t] in [0, 1] lies
    between [a] and [b]; smoothing a score toward its target therefore
    never overshoots. *)
Theorem lerp_between :
  forall a b t,
    lerp a b 0 = a /\ lerp a b 1 = b /\
    (0 <= t <= 1 -> Rmin a b <= lerp a b t <= Rmax a b).
Proof.
  intros a b t. unfold lerp. split; [ring|]. split; [ring|].
  intros [H0 H1]. unfold Rmin, Rmax. destruct (Rle_dec a b) as [L|L].
  - assert (0 <= (b - a) * t) by (apply Rmult_le_pos; lra).
    assert ((b - a) * t <= (b - a) * 1) by (apply Rmult_le_compat_l; lra).
    lra.
  - assert (0 <= (a - b) * t) by (apply Rmult_le_pos; lra).
    assert ((a - b) * t <= (a - b) * 1) by (apply Rmult_le_compat_l; lra).
    lra.
Qed.

Lemma lerp_between_witness : Rmin 12 21 <= lerp 12 21 0.1 <= Rmax 12 21.
Proof. apply (lerp_between 12 21 0.1). lra. Defined.

(** X3. The rounding of lines 117-119 is the same for every signal: it
    yields a multiple of 0.1 at distance at most 0.05 from its argument,
    and leaves multiples of 0.1 unchanged. *)
Theorem roundVital_nearest_tenth :
  forall (s : Signal) (x : R),
    onGrid (roundVital s x) /\
    x - 0.05 <= roundVital s x <= x + 0.05 /\
    (onGrid x -> roundVital s x = x).
Proof.
  intros s x. rewrite roundVital_round1.
  split; [apply round1_onGrid|].
  unfold round1, Math_round.
  pose proof (Zfloor_bound (x * 10 + 1 / 2)) as [L U].
  split; [lra|]. intros [z Hz].
  rewrite (Zfloor_eq z) by lra. lra.
Qed.

Lemma roundVital_nearest_tenth_witness : roundVital temp 98.6 = 98.6.
Proof.
  apply (roundVital_nearest_tenth temp 98.6). exists 986%Z. lra.
Defined.

(** ** More on the correlation engine *)

Section PearsonMore.

Lemma codev_swap mx my xs : forall ys,
  codev mx my (combine xs ys) = codev my mx (combine ys xs).
Proof.
  unfold codev. induction xs as [|x xs IH]; intros [|y ys]; simpl;
    try reflexivity.
  rewrite !sum_cons, IH. ring.
Qed.

Lemma pearson_sym x y : pearsonCorrelation x y = pearsonCorrelation y x.
Proof.
  destruct (Nat.ltb_spec (Nat.min (length x) (length y)) 5) as [H|H].
  - rewrite !pearson_short; [reflexivity | rewrite Nat.min_comm |]; assumption.
  - rewrite (pearson_unfold x y) by assumption.
    rewrite (pearson_unfold y x) by (rewrite Nat.min_comm; assumption).
    rewrite (Nat.min_comm (length y) (length x)).
    rewrite codev_swap, (Rmult_comm (sqdev _ (slice_last _ y))). reflexivity.
Qed.

End PearsonMore.

(** X4. The coefficient is symmetric in its two series. *)
Theorem pearsonCorrelation_symmetric :
  forall x y, pearsonCorrelation x y = pearsonCorrelation y x.
Proof. intros x y. rewrite (pearson_sym x y). reflexivity. Qed.

(** X6. After a rebuild the matrix is symmetric, and it holds all 36
    entries of the six tracked signals; keys that no pair of tracked
    signals produces are left as they were. *)
Theorem updateCorrelations_matrix :
  forall (st : State),
    (forall i j, In i matrixSignals -> In j matrixSignals ->
       correlations (updateCorrelations st) (corrKey i j) <> None /\
       correlations (updateCorrelations st) (corrKey i j) =
       correlations (updateCorrelations st) (corrKey j i)) /\
    (forall k, lastWrite matrixPairs k = None ->
       correlations (updateCorrelations st) k = correlations st k) /\
    (forall s, lastWrite matrixPairs (corrKey bp_dia s) = None /\
               lastWrite matrixPairs (corrKey s bp_dia) = None).
Proof.
  intros st. split; [|split].
  - intros i j Hi Hj. rewrite !updateCorrelations_lookup by assumption.
    split; [discriminate|]. f_equal. unfold corrValue.
    destruct (Signal_eqb i j) eqn:E.
    + apply Signal_eqb_eq in E. subst j. rewrite Signal_eqb_refl. reflexivity.
    + destruct (Signal_eqb j i) eqn:E'.
      * apply Signal_eqb_eq in E'. subst j. rewrite Signal_eqb_refl in E. discriminate.
      * apply pearson_sym.
  - intros k Hk. rewrite updateCorrelations_pairs.
    destruct (writes_spec matrixPairs st k) as [_ H]. rewrite H, Hk. reflexivity.
  - intros s. destruct s; split; vm_compute; reflexivity.
Qed.

Lemma updateCorrelations_matrix_witness :
  correlations (updateCorrelations state0) (corrKey hr spo2) =
  correlations (updateCorrelations state0) (corrKey spo2 hr) /\
  correlations (updateCorrelations state0) (corrKey bp_dia hr) = None.
Proof.
  destruct (updateCorrelations_matrix state0) as (A & B & C).
  split.
  - apply A; simpl; tauto.
  - rewrite B; [reflexivity | apply C].
Defined.

(** ** Histories and trend series *)

Section Histories.

Variable W : World.

Lemma pushCapped_shape cap h x :
  (0 < cap)%nat ->
  ((length h < cap)%nat -> pushCapped cap h x = h ++ [x]) /\
  (length h = cap -> pushCapped cap h x = tl h ++ [x]) /\
  last (pushCapped cap h x) 0 = x /\
  ((length h <= cap)%nat -> length (pushCapped cap h x) = Nat.min (S (length h)) cap).
Proof.
  intros Hc. unfold pushCapped.
  assert (L : length (h ++ [x]) = S (length h)) by (rewrite length_app; simpl; lia).
  rewrite L. repeat split.
  - intros H. destruct (Nat.ltb_spec cap (S (length h))); [lia | reflexivity].
  - intros H. destruct (Nat.ltb_spec cap (S (length h))); [|lia].
    destruct h; [simpl in H; lia | reflexivity].
  - destruct (Nat.ltb_spec cap (S (length h))).
    + destruct h as [|a h]; [simpl in *; lia|]. simpl tl.
      apply last_last.
    + apply last_last.
  - intros H. destruct (Nat.ltb_spec cap (S (length h))).
    + destruct h as [|a h]; [simpl in *; lia|].
      cbn [app tl length] in *. rewrite length_app. cbn [length]. lia.
    + rewrite L. lia.
Qed.

Lemma pushCapped_Forall (P : R -> Prop) cap h x :
  Forall P h -> P x -> Forall P (pushCapped cap h x).
Proof.
  intros Hh Hx. unfold pushCapped.
  assert (F : Forall P (h ++ [x])) by (apply Forall_app; split; [assumption | now constructor]).
  destruct (cap <? length (h ++ [x]))%nat; [|assumption].
  destruct (h ++ [x]); [constructor | now inversion F].
Qed.

Lemma updateCorrelations_trendData st : trendData (updateCorrelations st) = trendData st.
Proof.
  unfold updateCorrelations. apply (fold_proj trendData). intros st' i.
  apply (fold_proj trendData). intros st'' j. apply corrCell_frame.
Qed.

Lemma risks_stage_trendData st : trendData (renderRisks (updateRisks st)) = trendData st.
Proof. reflexivity. Qed.

Lemma generateVital_samplesInv s st :
  Inv st -> samplesInv st -> samplesInv (generateVital W s st).
Proof.
  intros HI HS s'. rewrite generateVital_trendData, generateVital_vitals.
  destruct (HS s') as [Hh Ht]. destruct (HI s') as [(Ga & Gb & Hle & _) _].
  destruct (Signal_eqb s s') eqn:E.
  - apply Signal_eqb_eq in E. subst s'. rewrite upd_same. simpl.
    split; [|exact Ht]. apply pushCapped_Forall; [exact Hh|].
    split; [|apply round1_onGrid].
    apply round1_between; auto. now apply clamp_between.
  - rewrite upd_other; [now split|]. intros ->.
    rewrite Signal_eqb_refl in E. discriminate.
Qed.

Lemma storeTrend_samplesInv s st :
  Inv st -> samplesInv st -> samplesInv (storeTrend st s).
Proof.
  intros HI HS s'. destruct (HS s') as [Hh Ht].
  destruct (HI s) as [(_ & _ & _ & Hv & _) _].
  unfold storeTrend; simpl. split; [exact Hh|].
  destruct (Signal_eqb s s') eqn:E.
  - apply Signal_eqb_eq in E. subst s'. rewrite upd_same.
    apply pushCapped_Forall; assumption.
  - rewrite upd_other; [assumption|]. intros ->.
    rewrite Signal_eqb_refl in E. discriminate.
Qed.

Lemma fold_both (f : State -> Signal -> State) l :
  (forall s st, Inv st -> Inv (f st s)) ->
  (forall s st, Inv st -> samplesInv st -> samplesInv (f st s)) ->
  forall st, Inv st -> samplesInv st -> samplesInv (fold_left f l st).
Proof.
  intros H1 H2. induction l as [|a l IH]; simpl; intros st HI HS; [assumption|].
  apply IH; [apply H1 | apply H2]; assumption.
Qed.

Lemma samplesInv_ext st st' :
  vitals st' = vitals st -> trendData st' = trendData st ->
  samplesInv st -> samplesInv st'.
Proof. intros Hv Ht H s. rewrite Hv, Ht. apply H. Qed.

Lemma maybeTrigger_samplesInv st : samplesInv st -> samplesInv (maybeTrigger W st).
Proof.
  apply samplesInv_ext; [apply maybeTrigger_vitals | apply maybeTrigger_trendData].
Qed.

Lemma tail_samplesInv st :
  samplesInv st -> samplesInv (renderRisks (updateRisks (updateCorrelations st))).
Proof.
  apply samplesInv_ext.
  - rewrite risks_stage_vitals. apply updateCorrelations_vitals.
  - rewrite risks_stage_trendData. apply updateCorrelations_trendData.
Qed.

Lemma updateAllVitals_samplesInv st :
  Inv st -> samplesInv st -> samplesInv (updateAllVitals W st).
Proof.
  intros HI HS. unfold updateAllVitals. apply tail_samplesInv.
  assert (I1 : Inv (maybeTrigger W (set_tick (tick st + 1)%Z st)))
    by (apply maybeTrigger_Inv; exact HI).
  assert (S1 : samplesInv (maybeTrigger W (set_tick (tick st + 1)%Z st)))
    by (apply maybeTrigger_samplesInv; exact HS).
  apply (fold_both storeTrend trendSignals).
  - intros; now apply storeTrend_Inv.
  - intros; now apply storeTrend_samplesInv.
  - apply fold_Inv; [intros; now apply generateVital_Inv | exact I1].
  - apply (fold_both (fun st s => generateVital W s st)); try assumption.
    + intros; now apply generateVital_Inv.
    + intros; now apply generateVital_samplesInv.
Qed.

Lemma run_samplesInv n st :
  Inv st -> samplesInv st -> samplesInv (run W n st).
Proof.
  intros HI HS. induction n as [|n IH]; simpl; [assumption|].
  apply updateAllVitals_samplesInv; [now apply run_Inv | exact IH].
Qed.

Lemma prefillHistory_seeded st s : seeded st -> seeded (prefillHistory W st s).
Proof.
  intros [HS HI]. split.
  - intros s'. apply prefillHistory_spec, HS.
  - intros s'. destruct (HI s') as [Hh Ht]. destruct (HS s) as (Ga & Gb & Hle & _).
    unfold prefillHistory; simpl. unfold upd.
    destruct (Signal_eqb s s') eqn:E; [|now split].
    apply Signal_eqb_eq in E. subst s'. simpl. split; [|exact Ht].
    apply Forall_app. split; [exact Hh|]. constructor; [|constructor].
    split; [|apply round1_onGrid].
    apply (round1_between _ _ _ Ga Gb). now apply clamp_between.
Qed.

Lemma prefillTrend_seeded st s : seeded st -> seeded (prefillTrend W st s).
Proof.
  intros [HS HI]. split.
  - intros s'. apply prefillTrend_spec, HS.
  - intros s'. destruct (HI s') as [Hh Ht]. destruct (HS s) as (_ & _ & Hle & _).
    unfold prefillTrend; simpl. unfold upd. split; [exact Hh|].
    destruct (Signal_eqb s s') eqn:E; [|exact Ht].
    apply Signal_eqb_eq in E. subst s'.
    apply Forall_app. split; [exact Ht|]. constructor; [|constructor].
    now apply clamp_between.
Qed.

Lemma times_pred {A} (P : A -> Prop) (f : A -> A) n :
  (forall a, P a -> P (f a)) -> forall a, P a -> P (times n f a).
Proof.
  intros H. induction n as [|n IH]; intros a Ha; simpl; [assumption|].
  apply IH, H, Ha.
Qed.

Lemma fold_pred {A B} (P : A -> Prop) (f : A -> B -> A) l :
  (forall a b, P a -> P (f a b)) -> forall a, P a -> P (fold_left f l a).
Proof.
  intros H. induction l as [|b l IH]; intros a Ha; simpl; [assumption|].
  apply IH, H, Ha.
Qed.

Lemma state0_seeded : seeded state0.
Proof.
  split; [exact state0_static|]. intros s. destruct s; split; constructor.
Qed.

Lemma addAnomaly_samplesInv a t d g v st :
  samplesInv st -> samplesInv (addAnomaly W a t d g v st).
Proof. apply samplesInv_ext; reflexivity. Qed.

Lemma prefilled_seeded :
  seeded (fold_left (fun st s => times 20 (fun st => prefillTrend W st s) st)
            trendSignals
            (fold_left (fun st s => times 15 (fun st => prefillHistory W st s) st)
               signals state0)).
Proof.
  apply (fold_pred seeded
           (fun st s => times 20 (fun st => prefillTrend W st s) st)).
  - intros st s H. apply (times_pred seeded); [|exact H].
    intros a Ha. now apply prefillTrend_seeded.
  - apply (fold_pred seeded
             (fun st s => times 15 (fun st => prefillHistory W st s) st)).
    + intros st s H. apply (times_pred seeded); [|exact H].
      intros a Ha. now apply prefillHistory_seeded.
    + exact state0_seeded.
Qed.

Lemma init_samplesInv : samplesInv (init W state0).
Proof.
  unfold init. apply addAnomaly_samplesInv, tail_samplesInv.
  exact (proj2 prefilled_seeded).
Qed.

End Histories.



(** X8. In the default configuration, after initialisation and any number
    of ticks, every entry of every chart history is within the signal's
    bounds and a multiple of 0.1, and every entry of every trend series is
    within the bounds. *)
Theorem stored_samples_within_bounds :
  forall (W : World) (n : nat) (s : Signal),
    let st := run W n (init W state0) in
    Forall (fun x => vmin (vitals st s) <= x <= vmax (vitals st s) /\ onGrid x)
           (history (vitals st s)) /\
    Forall (fun x => vmin (vitals st s) <= x <= vmax (vitals st s))
           (trendData st s).
Proof.
  intros W n s st.
  exact (run_samplesInv W n _ (init_Inv W) (init_samplesInv W) s).
Qed.

(** ** Series lengths *)

Section Lengths.

Variable W : World.

Lemma pushCapped_len cap h x : length (pushCapped cap h x) = pushLen cap (length h).
Proof.
  unfold pushCapped, pushLen. rewrite length_app. simpl length.
  rewrite Nat.add_1_r. destruct (cap <? S (length h))%nat; [|rewrite length_app; simpl; lia].
  destruct h; simpl; [reflexivity|]. rewrite length_app. simpl. lia.
Qed.

Lemma fold_len (len : State -> Signal -> nat) (f : State -> Signal -> State)
    (g : nat -> nat) :
  (forall st s s', len (f st s) s' =
                   if Signal_eqb s s' then g (len st s') else len st s') ->
  forall l st s',
    len (fold_left f l st) s' =
    Nat.iter (length (filter (fun s => Signal_eqb s s') l)) g (len st s').
Proof.
  intros H. induction l as [|a l IH]; intros st s'; [reflexivity|].
  simpl fold_left. rewrite IH, H. simpl filter.
  destruct (Signal_eqb a s'); [|reflexivity].
  simpl length. rewrite Nat.iter_succ_r. reflexivity.
Qed.

Lemma generateVital_histLen st s s' :
  histLen (generateVital W s st) s' =
  if Signal_eqb s s' then pushLen chartPoints (histLen st s') else histLen st s'.
Proof.
  unfold histLen. rewrite generateVital_vitals. unfold upd.
  destruct (Signal_eqb s s') eqn:E; [|reflexivity].
  apply Signal_eqb_eq in E. subst s'. simpl. apply pushCapped_len.
Qed.

Lemma storeTrend_trendLen st s s' :
  trendLen (storeTrend st s) s' =
  if Signal_eqb s s' then pushLen trendPoints (trendLen st s') else trendLen st s'.
Proof.
  unfold trendLen, storeTrend. simpl. unfold upd.
  destruct (Signal_eqb s s') eqn:E; [|reflexivity].
  apply Signal_eqb_eq in E. subst s'. apply pushCapped_len.
Qed.

Lemma histLen_ext st st' s : vitals st' = vitals st -> histLen st' s = histLen st s.
Proof. unfold histLen. now intros ->. Qed.

Lemma trendLen_ext st st' s : trendData st' = trendData st -> trendLen st' s = trendLen st s.
Proof. unfold trendLen. now intros ->. Qed.

Lemma signals_trendData st :
  trendData (fold_left (fun st s => generateVital W s st) signals st) = trendData st.
Proof.
  apply (fold_proj trendData (fun st s => generateVital W s st)).
  intros. apply generateVital_trendData.
Qed.

Lemma tick_lengths st s :
  histLen (updateAllVitals W st) s = pushLen chartPoints (histLen st s) /\
  trendLen (updateAllVitals W st) s =
    if Signal_eqb s temp then trendLen st s else pushLen trendPoints (trendLen st s).
Proof.
  split.
  - rewrite (histLen_ext _ _ s (updateAllVitals_vitals W st)).
    rewrite (histLen_ext _ _ s (beforeRisks_vitals W st)).
    rewrite (fold_len histLen (fun st s => generateVital W s st) (pushLen chartPoints))
      by (intros; apply generateVital_histLen).
    rewrite (histLen_ext _ _ s (maybeTrigger_vitals W _)).
    change (histLen (set_tick (tick st + 1)%Z st) s) with (histLen st s).
    destruct s; reflexivity.
  - assert (E : trendData (updateAllVitals W st) =
                trendData (fold_left storeTrend trendSignals
                  (fold_left (fun st s => generateVital W s st) signals
                     (maybeTrigger W (set_tick (tick st + 1)%Z st))))).
    { rewrite updateAllVitals_unfold, risks_stage_trendData. unfold beforeRisks.
      apply updateCorrelations_trendData. }
    rewrite (trendLen_ext _ _ s E).
    rewrite (fold_len trendLen storeTrend (pushLen trendPoints))
      by (intros; apply storeTrend_trendLen).
    rewrite (trendLen_ext _ _ s (signals_trendData _)).
    rewrite (trendLen_ext _ _ s (maybeTrigger_trendData W _)).
    change (trendLen (set_tick (tick st + 1)%Z st) s) with (trendLen st s).
    destruct s; reflexivity.
Qed.

Lemma addAnomaly_trendData a t d g v st :
  trendData (addAnomaly W a t d g v st) = trendData st.
Proof. reflexivity. Qed.

Lemma init_lengths s :
  histLen (init W state0) s = 15%nat /\
  trendLen (init W state0) s = if Signal_eqb s temp then 0%nat else 20%nat.
Proof.
  set (st1 := fold_left (fun st s => times 15 (fun st => prefillHistory W st s) st)
                signals state0).
  set (st2 := fold_left (fun st s => times 20 (fun st => prefillTrend W st s) st)
                trendSignals st1).
  destruct (fold_times_spec (prefillHistory W) hit (fun _ _ => 0%nat) 15
              (fun st a b H => prefillHistory_spec W st a b H) signals state0 s
              (state0_static s)) as (H1 & H2 & H3).
  fold st1 in H1, H2, H3.
  destruct (fold_times_spec (prefillTrend W) (fun _ _ => 0%nat) hit 20
              (fun st a b H => prefillTrend_spec W st a b H) trendSignals st1 s H1)
    as (_ & J2 & J3).
  fold st2 in J2, J3.
  assert (Ev : vitals (init W state0) = vitals st2).
  { unfold init. fold st1. fold st2. rewrite addAnomaly_vitals, risks_stage_vitals.
    apply updateCorrelations_vitals. }
  assert (Et : trendData (init W state0) = trendData st2).
  { unfold init. fold st1. fold st2.
    rewrite addAnomaly_trendData, risks_stage_trendData.
    apply updateCorrelations_trendData. }
  rewrite (histLen_ext _ _ s Ev), (trendLen_ext _ _ s Et), J2, J3, H2, H3.
  unfold hit. destruct s; simpl; split; reflexivity.
Qed.

Lemma maybeTrigger_tick st : tick (maybeTrigger W st) = tick st.
Proof. unfold maybeTrigger. now destruct (_ && _). Qed.

Lemma updateAllVitals_tick st : tick (updateAllVitals W st) = (tick st + 1)%Z.
Proof.
  pose proof (updateAllVitals_ctl W st) as C.
  assert (T : tick (triggered W st) = (tick st + 1)%Z)
    by (unfold triggered; apply maybeTrigger_tick).
  destruct (resolving (triggered W st)).
  - rewrite autoResolve_ctl in C. apply ctl_fields in C.
    destruct C as (C1 & _). congruence.
  - unfold ctl at 2 in C. apply ctl_fields in C.
    destruct C as (C1 & _). congruence.
Qed.

Lemma storeTrend_fold l : NoDup l -> forall st s,
  trendData (fold_left storeTrend l st) s =
  if existsb (Signal_eqb s) l
  then pushCapped trendPoints (trendData st s) (value (vitals st s))
  else trendData st s.
Proof.
  induction 1 as [|a l Ha Hl IH]; intros st s; [reflexivity|].
  change (fold_left storeTrend (a :: l) st) with (fold_left storeTrend l (storeTrend st a)).
  rewrite IH.
  change (existsb (Signal_eqb s) (a :: l))
    with (Signal_eqb s a || existsb (Signal_eqb s) l).
  assert (V : vitals (storeTrend st a) = vitals st) by reflexivity.
  destruct (Signal_eqb s a) eqn:E.
  - apply Signal_eqb_eq in E. subst a.
    assert (N : existsb (Signal_eqb s) l = false).
    { destruct (existsb (Signal_eqb s) l) eqn:X; [|reflexivity].
      apply existsb_exists in X. destruct X as (y & Hy & Ey).
      apply Signal_eqb_eq in Ey. subst y. contradiction. }
    rewrite N. cbn [orb]. unfold storeTrend. cbn [trendData set_trendData].
    apply upd_same.
  - assert (Hne : a <> s).
    { intros ->. rewrite Signal_eqb_refl in E. discriminate. }
    assert (T : trendData (storeTrend st a) s = trendData st s).
    { unfold storeTrend. cbn [trendData set_trendData]. now apply upd_other. }
    rewrite T, V. reflexivity.
Qed.

Lemma trendSignals_NoDup : NoDup trendSignals.
Proof.
  unfold trendSignals.
  repeat (constructor; [simpl; intuition discriminate|]). constructor.
Qed.

End Lengths.

Lemma series_lengths_bounds W n s :
  length (history (vitals (run W n (init W state0)) s)) = Nat.min (15 + n) 40 /\
  length (trendData (run W n (init W state0)) s) =
    if Signal_eqb s temp then 0%nat else Nat.min (20 + n) 60.
Proof.
  change (length (history (vitals (run W n (init W state0)) s)))
    with (histLen (run W n (init W state0)) s).
  change (length (trendData (run W n (init W state0)) s))
    with (trendLen (run W n (init W state0)) s).
  induction n as [|n [IH1 IH2]].
  - simpl run. destruct (init_lengths W s) as [H1 H2]. rewrite H1, H2.
    split; [reflexivity|]. destruct (Signal_eqb s temp); reflexivity.
  - change (run W (S n) (init W state0))
      with (updateAllVitals W (run W n (init W state0))).
    destruct (tick_lengths W (run W n (init W state0)) s) as [T1 T2].
    rewrite T1, T2, IH1, IH2. unfold pushLen, chartPoints, trendPoints. split.
    + destruct (Nat.ltb_spec 40 (S (Nat.min (15 + n) 40))); lia.
    + destruct (Signal_eqb s temp); [reflexivity|].
      destruct (Nat.ltb_spec 60 (S (Nat.min (20 + n) 60))); lia.
Qed.

(** X9. After initialisation and [n] ticks of the default configuration,
    every chart history holds exactly [min (15 + n) 40] samples and every
    trend series exactly [min (20 + n) 60], except the temperature, which
    has no trend series. *)
Theorem series_lengths_after_n_ticks :
  forall (W : World) (n : nat) (s : Signal),
    let st := run W n (init W state0) in
    length (history (vitals st s)) = Nat.min (15 + n) 40 /\
    length (trendData st s) =
      if Signal_eqb s temp then 0%nat else Nat.min (20 + n) 60.
Proof.
  intros W n s st. unfold st.
  destruct (series_lengths_bounds W n s) as [H1 H2]. split; assumption.
Qed.

(** X10. Every tick increments the tick counter exactly once, whatever
    the anomaly state: after [n] ticks it has grown by [n]. *)
Theorem tick_counter :
  forall (W : World) (n : nat) (st : State),
    tick (run W n st) = (tick st + Z.of_nat n)%Z.
Proof.
  intros W n st. induction n as [|n IH].
  - simpl. lia.
  - change (run W (S n) st) with (updateAllVitals W (run W n st)).
    rewrite updateAllVitals_tick, IH. lia.
Qed.

(** X11. Every tick appends the value it has just stored to the trend
    series of each of the six trend signals, dropping the oldest entry
    beyond 60, so that the last trend entry is the current value; the
    temperature has no trend series and none is ever written. *)
Theorem trend_series_window :
  forall (W : World) (st : State) (s : Signal),
    let st' := updateAllVitals W st in
    (In s trendSignals ->
       trendData st' s =
         pushCapped trendPoints (trendData st s) (value (vitals st' s)) /\
       last (trendData st' s) 0 = value (vitals st' s)) /\
    trendData st' temp = trendData st temp.
Proof.
  intros W st s st'.
  assert (E : forall s', trendData st' s' =
              if existsb (Signal_eqb s') trendSignals
              then pushCapped trendPoints (trendData st s') (value (vitals st' s'))
              else trendData st s').
  { intros s'. unfold st'.
    rewrite updateAllVitals_vitals, beforeRisks_vitals.
    rewrite updateAllVitals_unfold, risks_stage_trendData. unfold beforeRisks.
    rewrite updateCorrelations_trendData.
    rewrite (storeTrend_fold trendSignals trendSignals_NoDup).
    rewrite signals_trendData, maybeTrigger_trendData. reflexivity. }
  split.
  - intros Hs. rewrite E.
    assert (X : existsb (Signal_eqb s) trendSignals = true).
    { apply existsb_exists. exists s. split; [exact Hs | apply Signal_eqb_refl]. }
    rewrite X. split; [reflexivity|].
    apply pushCapped_shape. unfold trendPoints. lia.
  - rewrite E. reflexivity.
Qed.

Lemma trend_series_window_witness :
  last (trendData (updateAllVitals world0 state0) hr) 0 =
  value (vitals (updateAllVitals world0 state0) hr).
Proof.
  apply (trend_series_window world0 state0 hr). simpl. tauto.
Defined.

(** ** Invariants of the anomaly machine and of the log *)

Section MachineInvariants.

Variable W : World.

Lemma machineInv_of_ctl st t m a n l x r c :
  ctl st = (t, m, a, n, l, x, r, c) ->
  (if m then (0 <= t - a <= 20)%Z else (t < n)%Z) -> machineInv st.
Proof.
  intros C H. apply ctl_fields in C. destruct C as (E1 & E2 & E3 & E4 & _).
  unfold machineInv. rewrite E1, E2, E3, E4. exact H.
Qed.

Lemma updateAllVitals_machineInv st :
  unitRandom W -> machineInv st -> machineInv (updateAllVitals W st).
Proof.
  intros Hr H. unfold machineInv in H.
  destruct (anomalyMode st) eqn:Hm.
  - destruct (Z_le_gt_dec (tick st + 1 - anomalyModeStart st) 20) as [L|G].
    + eapply machineInv_of_ctl; [apply tick_active_ctl; assumption|].
      simpl. clear - H L. lia.
    + assert (G' : (20 < tick st + 1 - anomalyModeStart st)%Z) by (clear - G; lia).
      eapply machineInv_of_ctl; [apply tick_resolve_ctl; assumption|].
      simpl. pose proof (uniformInt_range _ (Hr (n_random st))) as U.
      clear - U. lia.
  - destruct (Z_le_gt_dec (nextAnomalyTick st) (tick st + 1)) as [L|G].
    + eapply machineInv_of_ctl.
      * rewrite tick_fire by assumption. apply triggered_fire; assumption.
      * simpl. clear. lia.
    + assert (G' : (tick st + 1 < nextAnomalyTick st)%Z) by (clear - G; lia).
      eapply machineInv_of_ctl; [apply tick_idle_ctl; assumption|].
      simpl. exact G'.
Qed.

Lemma init_machineInv : machineInv (init W state0).
Proof.
  destruct (init_state0_sched W) as (T & M & N).
  unfold machineInv. rewrite M, T, N. reflexivity.
Qed.

Lemma Forall_firstn_keep {A} (P : A -> Prop) n : forall l,
  Forall P l -> Forall P (firstn n l).
Proof.
  induction n as [|n IH]; intros l H; [constructor|].
  destruct H; simpl; constructor; auto.
Qed.

Lemma pushEvent_logInv ev l :
  (length l <= 15)%nat -> Forall engineEvent l -> engineEvent ev ->
  (length (pushEvent ev l) <= 15)%nat /\ Forall engineEvent (pushEvent ev l).
Proof.
  intros Hl Hf He. split; [now apply pushEvent_length|].
  rewrite pushEvent_firstn by assumption.
  apply Forall_firstn_keep. now constructor.
Qed.

Lemma logInv_of_ctl st t m a n l r c :
  ctl st = (t, m, a, n, l, statsOf l, r, c) ->
  (length l <= 15)%nat -> Forall engineEvent l -> logInv st.
Proof.
  unfold ctl. intros C Hl Hf. injection C as _ _ _ _ E5 E6 _ _.
  unfold logInv. rewrite E5, E6. repeat split; assumption.
Qed.

Lemma updateAllVitals_logInv st : logInv st -> logInv (updateAllVitals W st).
Proof.
  intros (Hl & Hs & Hf).
  assert (Ea : engineEvent (activeEvent W (n_clock st))) by (right; left; now split).
  assert (Er : engineEvent (resolvedEvent W (n_clock st))) by (right; right; now split).
  destruct (anomalyMode st) eqn:Hm.
  - destruct (Z_le_gt_dec (tick st + 1 - anomalyModeStart st) 20) as [L|G].
    + pose proof (tick_active_ctl W st Hm L) as C. rewrite Hs in C.
      eapply logInv_of_ctl; eassumption.
    + assert (G' : (20 < tick st + 1 - anomalyModeStart st)%Z) by (clear - G; lia).
      pose proof (tick_resolve_ctl W st Hm G') as C.
      destruct (pushEvent_logInv _ _ Hl Hf Er).
      eapply logInv_of_ctl; eassumption.
  - destruct (Z_le_gt_dec (nextAnomalyTick st) (tick st + 1)) as [L|G].
    + pose proof (tick_fire W st Hm L) as C.
      rewrite (triggered_fire W st Hm L) in C.
      destruct (pushEvent_logInv _ _ Hl Hf Ea).
      eapply logInv_of_ctl; eassumption.
    + assert (G' : (tick st + 1 < nextAnomalyTick st)%Z) by (clear - G; lia).
      pose proof (tick_idle_ctl W st Hm G') as C. rewrite Hs in C.
      eapply logInv_of_ctl; eassumption.
Qed.

Lemma addAnomaly_log a t d g v st :
  anomalies (addAnomaly W a t d g v st) =
    pushEvent (mkEvent (Date_now W (S (n_clock st)))
                       (formatTime W (Date_now W (n_clock st))) t d g v a)
              (anomalies st) /\
  anomalyStats (addAnomaly W a t d g v st) =
    statsOf (anomalies (addAnomaly W a t d g v st)).
Proof. split; reflexivity. Qed.

Lemma prefill_proj {B} (p : State -> B) st :
  (forall x s, p (prefillHistory W x s) = p x) ->
  (forall x s, p (prefillTrend W x s) = p x) ->
  (forall x i j, p (corrCell i x j) = p x) ->
  (forall x, p (renderRisks (updateRisks x)) = p x) ->
  p (renderRisks (updateRisks (updateCorrelations
       (fold_left (fun st s => times 20 (fun st => prefillTrend W st s) st)
          trendSignals
          (fold_left (fun st s => times 15 (fun st => prefillHistory W st s) st)
             signals st))))) = p st.
Proof.
  intros H1 H2 H3 H4. rewrite H4. unfold updateCorrelations.
  rewrite (fold_proj p (fun st i => fold_left (corrCell i) matrixSignals st)).
  - rewrite (fold_proj p (fun st s => times 20 (fun st => prefillTrend W st s) st))
      by (intros; apply (times_proj p); intros; apply H2).
    apply (fold_proj p (fun st s => times 15 (fun st => prefillHistory W st s) st)).
    intros; apply (times_proj p); intros; apply H1.
  - intros st' i. apply (fold_proj p). intros st'' j. apply H3.
Qed.

Lemma corrCell_log i x j :
  anomalies (corrCell i x j) = anomalies x /\ n_clock (corrCell i x j) = n_clock x.
Proof. unfold corrCell. now destruct (Signal_eqb i j). Qed.

Lemma init_log :
  anomalies (init W state0) =
    [mkEvent (Date_now W 1) (formatTime W (Date_now W 0))
       "System Initialized — Correlation Monitoring Active"
       "Multi-signal correlation engine is online. Monitoring 6 physiological signals with real-time cross-correlation analysis. Early-stage risk prediction active."
       ["System"; "All Signals"; "Baseline Set"]%string low info] /\
  anomalyStats (init W state0) = mkStats 1 0 0.
Proof.
  unfold init.
  match goal with |- context [addAnomaly W info ?t ?d ?g low ?x] =>
    destruct (addAnomaly_log info t d g low x) as [E1 E2]
  end.
  rewrite E2, E1.
  rewrite (prefill_proj anomalies state0)
    by (reflexivity || (intros; apply corrCell_log)).
  rewrite (prefill_proj n_clock state0)
    by (reflexivity || (intros; apply corrCell_log)).
  split; reflexivity.
Qed.

End MachineInvariants.

Lemma run_machineInv W n st :
  unitRandom W -> machineInv st -> machineInv (run W n st).
Proof.
  intros Hr H. induction n as [|n IH]; simpl; [assumption|].
  now apply updateAllVitals_machineInv.
Qed.

Lemma run_logInv W n st : logInv st -> logInv (run W n st).
Proof.
  intros H. induction n as [|n IH]; simpl; [assumption|].
  now apply updateAllVitals_logInv.
Qed.

Lemma init_logInv W : logInv (init W state0).
Proof.
  destruct (init_log W) as [E1 E2]. unfold logInv. rewrite E1, E2.
  split; [simpl; lia|]. split; [reflexivity|].
  constructor; [|constructor]. left. now split.
Qed.

Lemma critical_is_active l :
  Forall engineEvent l -> filter isCritical l = filter isActive l.
Proof.
  induction 1 as [|e l He Hl IH]; [reflexivity|]. simpl. rewrite IH.
  assert (E : isCritical e = isActive e); [|now rewrite E].
  unfold isCritical, isActive.
  destruct He as [[-> ->] | [[-> ->] | [-> ->]]]; reflexivity.
Qed.

(** X12. With every [Math.random()] draw in [0, 1), each tick leaves the
    anomaly machine either inside an episode whose elapsed time is between
    0 and 20 ticks, or idle with the next trigger strictly in the future;
    this holds after initialisation and is kept by every tick. *)
Theorem anomaly_machine_invariant :
  forall (W : World),
    unitRandom W ->
    machineInv (init W state0) /\
    (forall (st : State) (n : nat), machineInv st -> machineInv (run W n st)).
Proof.
  intros W Hr. split; [apply init_machineInv|].
  intros st n H. now apply run_machineInv.
Qed.

Lemma world0_unitRandom : unitRandom world0.
Proof. intros k. simpl. lra. Qed.

Lemma anomaly_machine_invariant_witness :
  unitRandom world0 /\ machineInv (run world0 3 (init world0 state0)).
Proof.
  split; [exact world0_unitRandom|].
  destruct (anomaly_machine_invariant world0 world0_unitRandom) as [I K].
  exact (K _ 3%nat I).
Defined.

(** X13. After initialisation and any number of ticks the log holds at
    most 15 events, every one of them an 'info'/'low', 'active'/'medium'
    or 'auto-resolved'/'low' event, and the aggregates are in step with
    it; since no event of severity 'high' is ever emitted, [critical] is
    exactly the number of 'active' events in the log. *)
Theorem event_log_invariant :
  forall (W : World) (n : nat),
    let st := run W n (init W state0) in
    (length (anomalies st) <= 15)%nat /\
    Forall engineEvent (anomalies st) /\
    total (anomalyStats st) = length (anomalies st) /\
    critical (anomalyStats st) = length (filter isActive (anomalies st)) /\
    resolved (anomalyStats st) = length (filter isResolved (anomalies st)).
Proof.
  intros W n st.
  destruct (run_logInv W n _ (init_logInv W)) as (Hl & Hs & Hf). fold st in Hl, Hs, Hf.
  rewrite Hs. simpl. rewrite (critical_is_active _ Hf). auto.
Qed.

(** X14. Initialisation leaves the machine idle at tick 0 with the first
    trigger at tick 30, and the log holding exactly the one 'info' event,
    with aggregates total 1, critical 0, resolved 0. *)
Theorem initial_state :
  forall (W : World),
    let st := init W state0 in
    tick st = 0%Z /\ anomalyMode st = false /\ nextAnomalyTick st = 30%Z /\
    (exists e, anomalies st = [e] /\ status e = info /\ severity e = low) /\
    anomalyStats st = mkStats 1 0 0.
Proof.
  intros W st. destruct (init_state0_sched W) as (T & M & N).
  destruct (init_log W) as [E1 E2]. fold st in T, M, N, E1, E2.
  split; [exact T|]. split; [exact M|]. split; [exact N|]. split; [|exact E2].
  eexists. split; [exact E1|]. split; reflexivity.
Qed.

(** X15. After the tick [R] that resolves an episode, with every
    [Math.random()] draw in [0, 1): the next trigger [N] lies 25 to 44
    ticks after [R]; every tick before [N] leaves the machine idle and the
    log untouched; the tick numbered [N] starts the next episode. *)
Theorem next_episode_timing :
  forall (W : World) (st : State),
    unitRandom W ->
    anomalyMode st = true -> (20 < tick st + 1 - anomalyModeStart st)%Z ->
    let R := (tick st + 1)%Z in
    let N := nextAnomalyTick (run W 1 st) in
    (R + 25 <= N <= R + 44)%Z /\
    (forall k, (R + Z.of_nat k < N)%Z ->
       anomalyMode (run W (k + 1) st) = false /\
       anomalies (run W (k + 1) st) = anomalies (run W 1 st)) /\
    (forall k, (R + Z.of_nat k = N)%Z ->
       anomalyMode (run W (k + 1) st) = true /\
       anomalyModeStart (run W (k + 1) st) = N).
Proof.
  intros W st Hr Hm He R N.
  pose proof (tick_resolve_ctl W st Hm He) as C.
  change (updateAllVitals W st) with (run W 1 st) in C.
  apply ctl_fields in C. destruct C as (C1 & C2 & _ & C4 & _).
  fold N in C4. fold R in C1, C4.
  pose proof (uniformInt_range _ (Hr (n_random st))) as U.
  assert (HN : (R + 25 <= N <= R + 44)%Z) by (rewrite C4; clear - U; lia).
  split; [exact HN|]. split.
  - intros k Hk. rewrite run_add.
    assert (A : (tick (run W 1 st) + Z.of_nat k < nextAnomalyTick (run W 1 st))%Z)
      by (rewrite C1; exact Hk).
    pose proof (run_idle W k _ C2 A) as I. apply ctl_fields in I.
    destruct I as (_ & I2 & _ & _ & I5 & _). auto.
  - intros k Hk. destruct k as [|k]; [clear - HN Hk; simpl in Hk; lia|].
    change (run W (S k + 1) st) with (updateAllVitals W (run W (k + 1) st)).
    rewrite run_add.
    assert (A : (tick (run W 1 st) + Z.of_nat k < nextAnomalyTick (run W 1 st))%Z)
      by (rewrite C1; fold N; clear - Hk; lia).
    pose proof (run_idle W k _ C2 A) as I. apply ctl_fields in I.
    destruct I as (I1 & I2 & _ & I4 & _ & _).
    assert (B : (nextAnomalyTick (run W k (run W 1 st))
                 <= tick (run W k (run W 1 st)) + 1)%Z)
      by (rewrite I1, I4, C1; fold N; clear - Hk; lia).
    pose proof (tick_fire W _ I2 B) as F.
    rewrite (triggered_fire W _ I2 B) in F.
    apply ctl_fields in F. destruct F as (_ & F2 & F3 & _).
    rewrite F2, F3, I1, C1. split; [reflexivity|]. clear - Hk. lia.
Qed.

Lemma next_episode_timing_witness :
  unitRandom world0 /\ anomalyMode lateState = true /\
  (20 < tick lateState + 1 - anomalyModeStart lateState)%Z /\
  (tick lateState + 1 + 25 <= nextAnomalyTick (run world0 1 lateState)
   <= tick lateState + 1 + 44)%Z.
Proof.
  assert (Hm : anomalyMode lateState = true) by reflexivity.
  assert (He : (20 < tick lateState + 1 - anomalyModeStart lateState)%Z)
    by (simpl; lia).
  split; [exact world0_unitRandom|]. split; [exact Hm|]. split; [exact He|].
  exact (proj1 (next_episode_timing world0 lateState world0_unitRandom Hm He)).
Defined.

(** ** Range of the risk scores *)

Section RiskRange.

Variable W : World.

Lemma riskFloor_range k : 1 <= riskFloor k <= 3.
Proof. destruct k; simpl; lra. Qed.

Lemma risk_stage_riskInv st :
  (forall k, 1 <= risk_value (risks st k) <= 95) ->
  riskInv (renderRisks (updateRisks st)).
Proof.
  intros H k.
  destruct (renderRisks_spec (updateRisks st) k) as [Et Ev].
  destruct (updateRisks_spec st k) as [Uv Ut].
  rewrite Et, Ev, Uv, Ut.
  set (x := clamp _ (riskFloor k) 95).
  pose proof (riskFloor_range k) as Fk.
  assert (Hx : riskFloor k <= x <= 95) by (apply clamp_between; lra).
  assert (Ht : riskFloor k <= Math_round x <= 95).
  { destruct k; simpl riskFloor in *.
    - apply (Math_round_between 3 95); exact Hx.
    - apply (Math_round_between 2 95); exact Hx.
    - apply (Math_round_between 3 95); exact Hx.
    - apply (Math_round_between 1 95); exact Hx. }
  split; [|split; [exact Ht | eexists; reflexivity]].
  specialize (H k). unfold lerp. lra.
Qed.

Lemma updateAllVitals_riskInv st : riskInv st -> riskInv (updateAllVitals W st).
Proof.
  intros H. rewrite updateAllVitals_unfold. apply risk_stage_riskInv.
  intros k. rewrite beforeRisks_risks. apply H.
Qed.

Lemma corrCell_risks i x j : risks (corrCell i x j) = risks x.
Proof. unfold corrCell. now destruct (Signal_eqb i j). Qed.

Lemma addAnomaly_riskInv a t d g v st :
  riskInv st -> riskInv (addAnomaly W a t d g v st).
Proof. intros H k. apply H. Qed.

Lemma prefilled_risks st :
  risks (updateCorrelations
    (fold_left (fun st s => times 20 (fun st => prefillTrend W st s) st)
       trendSignals
       (fold_left (fun st s => times 15 (fun st => prefillHistory W st s) st)
          signals st))) = risks st.
Proof.
  rewrite updateCorrelations_risks.
  rewrite (fold_proj risks (fun st s => times 20 (fun st => prefillTrend W st s) st))
    by (intros; apply (times_proj risks); reflexivity).
  apply (fold_proj risks (fun st s => times 15 (fun st => prefillHistory W st s) st)).
  intros; apply (times_proj risks); reflexivity.
Qed.

Lemma init_riskInv : riskInv (init W state0).
Proof.
  unfold init. apply addAnomaly_riskInv, risk_stage_riskInv.
  intros k. rewrite prefilled_risks. destruct k; simpl; lra.
Qed.

End RiskRange.

Lemma run_riskInv W n : riskInv (run W n (init W state0)).
Proof.
  induction n as [|n IH]; [apply init_riskInv|].
  change (run W (S n) (init W state0))
    with (updateAllVitals W (run W n (init W state0))).
  apply updateAllVitals_riskInv. exact IH.
Qed.

(** X16. After initialisation and any number of ticks every stored risk
    target is an integer within its category range and every smoothed
    score is within [1, 95]; both are therefore valid 0-100 scores. *)
Theorem risk_scores_in_range :
  forall (W : World) (n : nat) (k : RiskKey),
    let st := run W n (init W state0) in
    1 <= risk_value (risks st k) <= 95 /\
    riskFloor k <= target (risks st k) <= 95 /\
    (exists z : Z, target (risks st k) = IZR z).
Proof.
  intros W n k. cbv zeta. revert k. induction n as [|n IH].
  - apply init_riskInv.
  - change (run W (S n) (init W state0))
      with (updateAllVitals W (run W n (init W state0))).
    apply updateAllVitals_riskInv. exact IH.
Qed.

(** ** Which signals an episode moves, and in which direction *)

Section DriftDirection.

Variable W : World.

Lemma drifted_bp_dia st :
  fst (drifted W bp_dia st) =
  baseValue (tick st) (gaussAt W (n_gauss st)) (vitals st bp_dia).
Proof.
  unfold drifted, gaussRandom, anomalyDrift. simpl.
  destruct (anomalyMode st); reflexivity.
Qed.

Lemma drifted_down s st :
  s = spo2 \/ s = hrv ->
  (anomalyMode st = true -> (anomalyModeStart st <= tick st)%Z) ->
  fst (drifted W s st) <= baseValue (tick st) (gaussAt W (n_gauss st)) (vitals st s).
Proof.
  intros Hs He. unfold drifted, gaussRandom, anomalyDrift. simpl.
  destruct (anomalyMode st); [|right; reflexivity].
  specialize (He eq_refl).
  assert (Sv : 0 <= Rmin (IZR (tick st - anomalyModeStart st) / 15) 1).
  { apply Rmin_glb; [|lra].
    assert (0 <= IZR (tick st - anomalyModeStart st))
      by (apply IZR_le; clear - He; lia).
    lra. }
  set (sev := Rmin _ 1) in *.
  pose proof (Rabs_pos (gaussAt W (S (n_gauss st)))) as Ga.
  destruct Hs as [-> | ->]; simpl; unfold baseValue, gaussAt in *; lra.
Qed.

Lemma generateVital_frame s st :
  tick (generateVital W s st) = tick st /\
  anomalyModeStart (generateVital W s st) = anomalyModeStart st /\
  (anomalyMode (generateVital W s st) = true -> anomalyMode st = true).
Proof.
  pose proof (generateVital_ctl W s st) as C. unfold resolving in C.
  destruct (anomalyMode st) eqn:M.
  - destruct (20 <? tick st - anomalyModeStart st)%Z; simpl in C.
    + rewrite autoResolve_ctl in C. apply ctl_fields in C.
      destruct C as (C1 & _ & C3 & _). auto.
    + unfold ctl at 2 in C. apply ctl_fields in C.
      destruct C as (C1 & _ & C3 & _). auto.
  - simpl in C. unfold ctl at 2 in C. apply ctl_fields in C.
    destruct C as (C1 & C2 & C3 & _). rewrite C2, M. auto.
Qed.

Lemma signals_fold_frame l : forall st,
  let Y := fold_left (fun st s => generateVital W s st) l st in
  tick Y = tick st /\
  anomalyModeStart Y = anomalyModeStart st /\
  (anomalyMode Y = true -> anomalyMode st = true) /\
  (forall s, ~ In s l -> vitals Y s = vitals st s).
Proof.
  induction l as [|a l IH]; intros st; cbv zeta.
  - simpl. auto.
  - rewrite fold_left_head.
    destruct (IH (generateVital W a st)) as (I1 & I2 & I3 & I4).
    destruct (generateVital_frame a st) as (G1 & G2 & G3).
    split; [congruence|]. split; [congruence|]. split; [auto|].
    intros s Hs. rewrite I4 by (intros C; apply Hs; right; exact C).
    rewrite generateVital_vitals. apply upd_other.
    intros ->. apply Hs. left. reflexivity.
Qed.

(** The stored record of a signal after a tick, in terms of the state in
    which its own advance runs. *)
Lemma tick_signal l1 s l2 st :
  signals = l1 ++ s :: l2 -> ~ In s l1 -> ~ In s l2 ->
  exists Y,
    tick Y = (tick st + 1)%Z /\
    anomalyModeStart Y = anomalyModeStart (triggered W st) /\
    (anomalyMode Y = true -> anomalyMode (triggered W st) = true) /\
    vitals Y s = vitals st s /\
    vitals (updateAllVitals W st) s =
      store (vitals st s) (fst (drifted W s Y)) /\
    Y = fold_left (fun st s => generateVital W s st) l1 (triggered W st).
Proof.
  intros Hsig H1 H2.
  exists (fold_left (fun st s => generateVital W s st) l1 (triggered W st)).
  destruct (signals_fold_frame l1 (triggered W st)) as (F1 & F2 & F3 & F4).
  set (Y := fold_left (fun st s => generateVital W s st) l1 (triggered W st)) in *.
  assert (T : tick (triggered W st) = (tick st + 1)%Z)
    by (unfold triggered; apply maybeTrigger_tick).
  assert (V : vitals (triggered W st) = vitals st)
    by (unfold triggered; rewrite maybeTrigger_vitals; reflexivity).
  split; [congruence|]. split; [exact F2|]. split; [exact F3|].
  assert (Vs : vitals Y s = vitals st s) by (rewrite F4 by exact H1; now rewrite V).
  split; [exact Vs|].
  rewrite updateAllVitals_vitals, beforeRisks_vitals. fold (triggered W st).
  rewrite Hsig, fold_left_app, fold_left_head. fold Y.
  destruct (signals_fold_frame l2 (generateVital W s Y)) as (_ & _ & _ & K).
  cbv zeta in K. rewrite K by exact H2.
  rewrite generateVital_vitals, upd_same, Vs. split; reflexivity.
Qed.

Lemma triggered_started st :
  (anomalyMode st = true -> (anomalyModeStart st <= tick st + 1)%Z) ->
  anomalyMode (triggered W st) = true ->
  (anomalyModeStart (triggered W st) <= tick st + 1)%Z.
Proof.
  intros H M.
  destruct (anomalyMode st) eqn:Hm.
  - pose proof (triggered_skip W st (or_introl Hm)) as C. apply ctl_fields in C.
    destruct C as (_ & _ & C3 & _). rewrite C3. now apply H.
  - destruct (Z_le_gt_dec (nextAnomalyTick st) (tick st + 1)) as [L|G].
    + pose proof (triggered_fire W st Hm L) as C. apply ctl_fields in C.
      destruct C as (_ & _ & C3 & _). rewrite C3. clear. lia.
    + assert (G' : (tick st + 1 < nextAnomalyTick st)%Z) by (clear - G; lia).
      pose proof (triggered_skip W st (or_intror G')) as C. apply ctl_fields in C.
      destruct C as (_ & C2 & _). rewrite C2, Hm in M. discriminate.
Qed.

Lemma round1_mono x y : x <= y -> round1 x <= round1 y.
Proof.
  intros H. unfold round1, Math_round.
  assert (L : (Zfloor (x * 10 + 1 / 2) <= Zfloor (y * 10 + 1 / 2))%Z)
    by (apply Zfloor_le; lra).
  apply IZR_le in L. lra.
Qed.

Lemma clamp_mono x y lo hi : x <= y -> clamp x lo hi <= clamp y lo hi.
Proof.
  intros H. unfold clamp. apply Rle_max_compat_l, Rle_min_compat_l, H.
Qed.

End DriftDirection.

(** X17. The diastolic pressure has no case in the drift [switch]: in
    every tick, whatever the anomaly state, it is stored from its
    tentative value alone (reversion, circadian term and noise). *)
Theorem bp_dia_never_drifts :
  forall (W : World) (st : State),
    exists k,
      vitals (updateAllVitals W st) bp_dia =
      store (vitals st bp_dia)
            (baseValue (tick st + 1) (gaussAt W k) (vitals st bp_dia)).
Proof.
  intros W st.
  destruct (tick_signal W [hr; spo2; bp_sys] bp_dia [temp; rr; hrv] st)
    as (Y & T & _ & _ & V & E & _);
    [reflexivity | simpl; intuition discriminate | simpl; intuition discriminate |].
  exists (n_gauss Y). rewrite E, drifted_bp_dia, T, V. reflexivity.
Qed.

(** X18. An episode never pushes oxygen saturation or heart-rate
    variability up: provided an episode in progress did not start in the
    future, the value a tick stores for either signal is at most the value
    it would have stored from the tentative value without drift. *)
Theorem spo2_and_hrv_drift_downward :
  forall (W : World) (st : State) (s : Signal),
    s = spo2 \/ s = hrv ->
    (anomalyMode st = true -> (anomalyModeStart st <= tick st + 1)%Z) ->
    exists k,
      value (vitals (updateAllVitals W st) s) <=
      value (store (vitals st s)
                   (baseValue (tick st + 1) (gaussAt W k) (vitals st s))).
Proof.
  intros W st s Hs He.
  assert (D : exists l1 l2, signals = l1 ++ s :: l2 /\ ~ In s l1 /\ ~ In s l2).
  { destruct Hs as [-> | ->].
    - exists [hr], [bp_sys; bp_dia; temp; rr; hrv].
      split; [reflexivity|]. split; simpl; intuition discriminate.
    - exists [hr; spo2; bp_sys; bp_dia; temp; rr], [].
      split; [reflexivity|]. split; simpl; intuition discriminate. }
  destruct D as (l1 & l2 & Hsig & H1 & H2).
  destruct (tick_signal W l1 s l2 st Hsig H1 H2) as (Y & T & S & M & V & E & _).
  exists (n_gauss Y). rewrite E. unfold store. simpl.
  apply round1_mono, clamp_mono.
  rewrite <- T, <- V. apply drifted_down; [exact Hs|].
  intros MY. rewrite S, T. apply triggered_started; auto.
Qed.

Lemma spo2_and_hrv_drift_downward_witness :
  exists k,
    value (vitals (updateAllVitals world0 lateState) spo2) <=
    value (store (vitals lateState spo2)
                 (baseValue (tick lateState + 1) (gaussAt world0 k)
                            (vitals lateState spo2))).
Proof.
  apply (spo2_and_hrv_drift_downward world0 lateState spo2).
  - left. reflexivity.
  - intros _. simpl. lia.
Defined.

(** ** Values computed by the renderers *)

Section Rendering.

Lemma Rltb_true x y : Rltb x y = true <-> x < y.
Proof. unfold Rltb. destruct (Rlt_dec x y); split; intros; (assumption || discriminate || reflexivity || contradiction). Qed.

Lemma Rltb_false x y : Rltb x y = false <-> y <= x.
Proof.
  unfold Rltb. destruct (Rlt_dec x y); split; intros H;
    try discriminate; try reflexivity; lra.
Qed.

End Rendering.

Lemma Rleb_true x y : Rleb x y = true <-> x <= y.
Proof.
  unfold Rleb. destruct (Rle_dec x y); split; intros H;
    try discriminate; try reflexivity; try assumption; contradiction.
Qed.

Lemma Rleb_false x y : Rleb x y = false <-> y < x.
Proof.
  unfold Rleb. destruct (Rle_dec x y); split; intros H;
    try discriminate; try reflexivity; lra.
Qed.

(** X20. Whatever the band a coefficient of [-1, 1] falls in, the opacity
    of its cell colour is a valid one, between 0.15 and 0.8. *)
Theorem correlation_cell_colours :
  forall val, -1 <= val <= 1 -> 0.15 <= snd (getCorrelationColor val) <= 0.8.
Proof.
  intros val [L U]. unfold getCorrelationColor.
  assert (A : 0 <= Rabs val <= 1).
  { split; [apply Rabs_pos|]. apply Rabs_le. lra. }
  destruct (Rleb 0.7 val) eqn:E1.
  { apply Rleb_true in E1. simpl. rewrite Rabs_right by lra. lra. }
  destruct (Rleb 0.3 val) eqn:E2.
  { apply Rleb_true in E2. apply Rleb_false in E1. simpl.
    rewrite Rabs_right by lra. lra. }
  destruct (Rleb (-0.3) val) eqn:E3.
  { simpl. lra. }
  destruct (Rleb (-0.7) val) eqn:E4.
  { apply Rleb_true in E4. apply Rleb_false in E3. simpl.
    rewrite Rabs_left by lra. lra. }
  apply Rleb_false in E4. simpl. rewrite Rabs_left by lra. lra.
Qed.

Lemma correlation_cell_colours_witness :
  0.15 <= snd (getCorrelationColor (-0.5)) <= 0.8.
Proof.
  apply (correlation_cell_colours (-0.5)). lra.
Defined.

(** X21. For a score between 0 and 100 the value arc of a gauge ends
    within the dial, and grows with the score; after initialisation and
    any number of ticks every risk gauge ends strictly inside the dial. *)
Theorem gauge_arc_within_dial :
  (forall v, 0 <= v <= 100 -> startAngle <= valAngle v <= endAngle) /\
  (forall v v', v <= v' -> valAngle v <= valAngle v') /\
  (forall (W : World) (n : nat) (k : RiskKey),
     startAngle < valAngle (risk_value (risks (run W n (init W state0)) k))
     < endAngle).
Proof.
  pose proof PI_RGT_0 as P.
  assert (S : sweep = 1.5 * PI) by (unfold sweep, endAngle, startAngle; lra).
  assert (M : forall v v', v <= v' -> valAngle v <= valAngle v').
  { intros v v' H. unfold valAngle. rewrite S.
    assert (v / 100 * (1.5 * PI) <= v' / 100 * (1.5 * PI)); [|lra].
    apply Rmult_le_compat_r; lra. }
  assert (E0 : valAngle 0 = startAngle) by (unfold valAngle; lra).
  assert (E1 : valAngle 100 = endAngle).
  { unfold valAngle. rewrite S. unfold endAngle, startAngle. lra. }
  split; [|split; [exact M|]].
  - intros v [L U]. rewrite <- E0, <- E1. split; apply M; assumption.
  - intros W n k.
    destruct (run_riskInv W n k) as ((L & U) & _).
    set (x := risk_value (risks (run W n (init W state0)) k)) in *.
    unfold valAngle, endAngle, startAngle in *. rewrite S.
    assert (0 < x / 100 * (1.5 * PI)) by (apply Rmult_lt_0_compat; lra).
    assert (x / 100 * (1.5 * PI) < 1 * (1.5 * PI))
      by (apply Rmult_lt_compat_r; lra).
    lra.
Qed.

Lemma gauge_arc_within_dial_witness : startAngle <= valAngle 12 <= endAngle.
Proof. apply (proj1 gauge_arc_within_dial 12). lra. Defined.

(** X22. The trend texts of a risk card agree with one another: class
    'trend-high' only goes with the label 'Elevated', the label
    'Low risk' only with class 'trend-stable', and the level arrow is
    shown exactly when value and target differ by at most 2. *)
Theorem risk_trend_consistent :
  forall (risk : Risk),
    (riskClass risk = "trend-high"%string -> riskLabel risk = "Elevated"%string) /\
    (riskLabel risk = "Low risk"%string -> riskClass risk = "trend-stable"%string) /\
    (riskArrow risk = "→"%string <-> Rabs (risk_value risk - target risk) <= 2).
Proof.
  intros risk. unfold riskClass, riskLabel, riskArrow.
  set (v := risk_value risk). set (t := target risk).
  split; [|split].
  - destruct (Rltb 40 v) eqn:E1.
    + apply Rltb_true in E1. intros _.
      destruct (Rltb v 20) eqn:E2; [apply Rltb_true in E2; lra|].
      destruct (Rltb v 40) eqn:E3; [apply Rltb_true in E3; lra|]. reflexivity.
    + destruct (Rltb 25 v); discriminate.
  - destruct (Rltb v 20) eqn:E1.
    + apply Rltb_true in E1. intros _.
      destruct (Rltb 40 v) eqn:E2; [apply Rltb_true in E2; lra|].
      destruct (Rltb 25 v) eqn:E3; [apply Rltb_true in E3; lra|]. reflexivity.
    + destruct (Rltb v 40); discriminate.
  - destruct (Rltb (t + 2) v) eqn:E1.
    + apply Rltb_true in E1. split; [discriminate|].
      intros H. unfold Rabs in H. destruct (Rcase_abs (v - t)); lra.
    + apply Rltb_false in E1. destruct (Rltb v (t - 2)) eqn:E2.
      * apply Rltb_true in E2. split; [discriminate|].
        intros H. unfold Rabs in H. destruct (Rcase_abs (v - t)); lra.
      * apply Rltb_false in E2. split; [|reflexivity].
        intros _. apply Rabs_le. lra.
Qed.

Lemma risk_trend_consistent_witness :
  riskLabel (mkRisk 50 21 []) = "Elevated"%string.
Proof.
  apply (risk_trend_consistent (mkRisk 50 21 [])).
  unfold riskClass. simpl.
  destruct (Rltb 40 50) eqn:E; [reflexivity|]. apply Rltb_false in E. lra.
Defined.

Section Charts.

Lemma chartRange_pos lo hi : lo <= hi -> 0 < chartRange lo hi.
Proof.
  intros H. unfold chartRange. destruct (Req_dec_T (hi - lo) 0); lra.
Qed.

Lemma chart_fraction lo hi x :
  lo <= x <= hi -> 0 <= (x - lo) / chartRange lo hi <= 1.
Proof.
  intros [L U]. assert (H : lo <= hi) by lra.
  pose proof (chartRange_pos lo hi H) as P.
  assert (B : x - lo <= chartRange lo hi).
  { unfold chartRange in *. destruct (Req_dec_T (hi - lo) 0); lra. }
  split.
  - apply Rmult_le_pos; [lra|]. left. now apply Rinv_0_lt_compat.
  - apply (Rmult_le_reg_r (chartRange lo hi)); [exact P|].
    unfold Rdiv. rewrite Rmult_assoc, Rinv_l by lra. lra.
Qed.

Lemma miniChartPoint_inside w h lo hi data i :
  8 <= w -> 8 <= h -> (2 <= length data)%nat -> (i < length data)%nat ->
  lo <= nth i data 0 <= hi ->
  let p := miniChartPoint w h lo hi data i in
  4 <= fst p <= w - 4 /\ 4 <= snd p <= h - 4.
Proof.
  intros Hw Hh Hn Hi Hx. unfold miniChartPoint. simpl fst. simpl snd.
  pose proof (chart_fraction lo hi _ Hx) as [F0 F1].
  set (f := (nth i data 0 - lo) / chartRange lo hi) in *.
  assert (N1 : 1 <= INR (length data) - 1).
  { apply le_INR in Hn. simpl in Hn. lra. }
  assert (I0 : 0 <= INR i) by apply pos_INR.
  assert (I1 : INR i <= INR (length data) - 1).
  { assert (S i <= length data)%nat by lia. apply le_INR in H.
    rewrite S_INR in H. lra. }
  set (m := INR (length data) - 1) in *.
  assert (G0 : 0 <= INR i / m).
  { apply Rmult_le_pos; [exact I0|]. left. apply Rinv_0_lt_compat. lra. }
  assert (G1 : INR i / m <= 1).
  { apply (Rmult_le_reg_r m); [lra|].
    unfold Rdiv. rewrite Rmult_assoc, Rinv_l by lra. lra. }
  set (g := INR i / m) in *.
  assert (0 <= g * (w - 4 * 2)) by (apply Rmult_le_pos; lra).
  assert (g * (w - 4 * 2) <= 1 * (w - 4 * 2)) by (apply Rmult_le_compat_r; lra).
  assert (0 <= (1 - f) * (h - 4 * 2)) by (apply Rmult_le_pos; lra).
  assert ((1 - f) * (h - 4 * 2) <= 1 * (h - 4 * 2)) by (apply Rmult_le_compat_r; lra).
  lra.
Qed.

End Charts.

(** X23. On a canvas of at least 8 by 8 pixels, a sample within
    [minVal, maxVal] of a series of at least two samples is drawn inside
    the padded area of the mini chart (also when [minVal = maxVal], where
    the range falls back to 1); in the default configuration this covers
    every point of every chart history plotted against the signal's
    bounds, after initialisation and any number of ticks. *)
Theorem mini_chart_points_inside_canvas :
  (forall w h lo hi data i,
     8 <= w -> 8 <= h -> (2 <= length data)%nat -> (i < length data)%nat ->
     lo <= nth i data 0 <= hi ->
     let p := miniChartPoint w h lo hi data i in
     4 <= fst p <= w - 4 /\ 4 <= snd p <= h - 4) /\
  (forall (W : World) (n : nat) (s : Signal) w h i,
     8 <= w -> 8 <= h ->
     let v := vitals (run W n (init W state0)) s in
     (i < length (history v))%nat ->
     let p := miniChartPoint w h (vmin v) (vmax v) (history v) i in
     4 <= fst p <= w - 4 /\ 4 <= snd p <= h - 4).
Proof.
  split; [exact miniChartPoint_inside|].
  intros W n s w h i Hw Hh v Hi.
  apply miniChartPoint_inside; try assumption.
  - unfold v. rewrite (proj1 (series_lengths_bounds W n s)). lia.
  - pose proof (run_samplesInv W n _ (init_Inv W) (init_samplesInv W) s) as [F _].
    fold v in F. apply (proj1 (Forall_forall _ _) F). now apply nth_In.
Qed.

Lemma mini_chart_points_inside_canvas_witness :
  4 <= snd (miniChartPoint 100 40 55 105 [72; 73] 1) <= 40 - 4.
Proof.
  apply (proj1 mini_chart_points_inside_canvas 100 40 55 105 [72; 73] 1%nat);
    simpl; (lra || lia).
Defined.

(** ** Signal values written by a tick inside an episode *)

Section ActiveTick.

Variable W : World.




End ActiveTick.



(** X25. The sample [gaussRandom] builds from the draws [u] and [v] has
    magnitude at most [sqrt (-2 ln u)], whatever [v]; a draw [u = 1]
    gives exactly 0, so the world in which every draw is 1 has no noise. *)
Theorem boxMuller_bound :
  forall (u v : R),
    Rabs (boxMuller u v) <= sqrt (-2.0 * ln u) /\
    boxMuller 1 v = 0 /\
    (forall k, gaussAt world0 k = 0).
Proof.
  intros u v.
  assert (Z : forall w, boxMuller 1 w = 0).
  { intros w. unfold boxMuller. rewrite ln_1, Rmult_0_r, sqrt_0. ring. }
  split; [|split; [apply Z | intros k; apply Z]].
  unfold boxMuller. rewrite Rabs_mult.
  pose proof (sqrt_pos (-2.0 * ln u)) as P.
  rewrite (Rabs_right (sqrt _)) by lra.
  assert (C : Rabs (cos (2.0 * PI * v)) <= 1).
  { apply Rabs_le. pose proof (COS_bound (2.0 * PI * v)). lra. }
  pose proof (Rabs_pos (cos (2.0 * PI * v))) as C0.
  assert (sqrt (-2.0 * ln u) * Rabs (cos (2.0 * PI * v))
          <= sqrt (-2.0 * ln u) * 1) by (apply Rmult_le_compat_l; lra).
  lra.
Qed.

(** * The correlation and risk engines in binary64 *)

Section Binary64.

Local Open Scope float_scope.

Lemma double_corrCell_spec i st j :
  Double.vitals (Double.corrCell i st j) = Double.vitals st /\
  Double.risks (Double.corrCell i st j) = Double.risks st /\
  Double.correlations (Double.corrCell i st j) =
    Double.updKey (Double.correlations st) (corrKey i j) (Double.corrValue st i j).
Proof.
  unfold Double.corrCell, Double.corrValue.
  destruct (Signal_eqb i j); repeat split; reflexivity.
Qed.

Lemma double_updateCorrelations_pairs st :
  Double.updateCorrelations st =
  fold_left (fun st p => Double.corrCell (fst p) st (snd p)) matrixPairs st.
Proof.
  unfold Double.updateCorrelations, matrixPairs.
  exact (fold_pairs (fun st i j => Double.corrCell i st j)
                    matrixSignals matrixSignals st).
Qed.

Lemma double_writes_spec ps : forall st k,
  let st' := fold_left (fun st p => Double.corrCell (fst p) st (snd p)) ps st in
  Double.vitals st' = Double.vitals st /\
  Double.risks st' = Double.risks st /\
  Double.correlations st' k =
    match lastWrite ps k with
    | Some p => Some (Double.corrValue st (fst p) (snd p))
    | None => Double.correlations st k
    end.
Proof.
  unfold lastWrite.
  induction ps as [|p ps IH] using rev_ind; intros st k; [now repeat split|].
  rewrite fold_left_app, rev_app_distr. simpl.
  destruct (IH st k) as (Hv & Hr & Hc).
  destruct (double_corrCell_spec (fst p)
              (fold_left (fun st p => Double.corrCell (fst p) st (snd p)) ps st) (snd p))
    as (Hv' & Hr' & Hc').
  split; [congruence|]. split; [congruence|]. rewrite Hc'. unfold Double.updKey.
  destruct (String.eqb (corrKey (fst p) (snd p)) k).
  - unfold Double.corrValue. rewrite Hv. reflexivity.
  - exact Hc.
Qed.

Lemma double_updateCorrelations_frame st :
  Double.vitals (Double.updateCorrelations st) = Double.vitals st /\
  Double.risks (Double.updateCorrelations st) = Double.risks st.
Proof.
  rewrite double_updateCorrelations_pairs.
  destruct (double_writes_spec matrixPairs st EmptyString) as (V & R & _).
  split; assumption.
Qed.

Lemma double_updateCorrelations_lookup st i j :
  In i matrixSignals -> In j matrixSignals ->
  Double.correlations (Double.updateCorrelations st) (corrKey i j) =
  Some (Double.corrValue st i j).
Proof.
  intros Hi Hj. rewrite double_updateCorrelations_pairs.
  destruct (double_writes_spec matrixPairs st (corrKey i j)) as (_ & _ & H).
  rewrite H, lastWrite_matrix by assumption. reflexivity.
Qed.

Lemma double_pearson_short x y :
  (Nat.min (length x) (length y) < 5)%nat -> Double.pearsonCorrelation x y = 0.
Proof.
  intros H. unfold Double.pearsonCorrelation. apply Nat.ltb_lt in H. now rewrite H.
Qed.

(** What [updateRisks] stores, in terms of the state it reads. *)
Lemma double_updateRisks_spec st k :
  Double.risk_value (Double.risks (Double.updateRisks st) k) =
    Double.risk_value (Double.risks st k) /\
  Double.target (Double.risks (Double.updateRisks st) k) =
    Double.Math_round (Double.clamp
      (match k with
       | cardio =>
           (Double.dev (Double.vitals st hr) * 30
            + Double.dev (Double.vitals st bp_sys) * 25
            + Double.dev (Double.vitals st hrv) * 25
            + abs (Double.corrOr0 st (corrKey hr bp_sys)) * 20) * 100
       | respiratory =>
           (Double.dev (Double.vitals st spo2) * 35
            + Double.dev (Double.vitals st rr) * 30
            + Double.dev (Double.vitals st hr) * 15
            + abs (Double.corrOr0 st (corrKey spo2 rr)) * 20) * 100
       | metabolic =>
           (Double.dev (Double.vitals st temp) * 30
            + Double.dev (Double.vitals st hr) * 25
            + Double.dev (Double.vitals st bp_sys) * 20
            + abs (Double.corrOr0 st (corrKey temp hr)) * 25) * 100
       | apnea =>
           (Double.dev (Double.vitals st spo2) * 35
            + Double.dev (Double.vitals st rr) * 25
            + Double.dev (Double.vitals st hrv) * 20
            + abs (Double.corrOr0 st (corrKey spo2 hrv)) * 20) * 100
       end) (Double.riskFloor k) 95).
Proof.
  destruct k; split; reflexivity.
Qed.

Lemma double_renderRisks_spec st k :
  Double.target (Double.risks (Double.renderRisks st) k) =
    Double.target (Double.risks st k) /\
  Double.risk_value (Double.risks (Double.renderRisks st) k) =
    Double.lerp (Double.risk_value (Double.risks st k))
                (Double.target (Double.risks st k)) 0.1.
Proof. split; reflexivity. Qed.

Lemma double_corrOr0_rebuilt st i j :
  In i matrixSignals -> In j matrixSignals -> i <> j ->
  Double.corrOr0 (Double.updateCorrelations st) (corrKey i j) =
  Double.orZero (Double.pearsonCorrelation (Double.history (Double.vitals st i))
                                           (Double.history (Double.vitals st j))).
Proof.
  intros Hi Hj Hne. unfold Double.corrOr0.
  rewrite double_updateCorrelations_lookup by assumption.
  unfold Double.corrValue. destruct (Signal_eqb i j) eqn:E; [|reflexivity].
  apply Signal_eqb_eq in E. contradiction.
Qed.

End Binary64.

(** C8 (amended). Each time the matrix is rebuilt and the risks are updated
    (once per tick, after the vitals), each stored target is the weighted
    sum of the specification, times 100, clamped to the category range and
    then rounded to the nearest integer by [Math.round], all in binary64
    and with the sum taken in the order the code writes it. *)
Theorem C8_targets_are_rounded_clamped_sums :
  forall (st : Double.State) (k : RiskKey),
    Double.target (Double.risks (Double.analytics st) k) =
    Double.Math_round
      (Double.clamp (Double.weighted k st) (Double.riskFloor k) 95%float).
Proof.
  intros st k. unfold Double.analytics.
  rewrite (proj1 (double_renderRisks_spec _ k)).
  rewrite (proj2 (double_updateRisks_spec _ k)).
  unfold Double.weighted, Double.relDev, Double.absCorr.
  rewrite (proj1 (double_updateCorrelations_frame st)).
  destruct k; rewrite double_corrOr0_rebuilt; try reflexivity;
    try (unfold matrixSignals, In; tauto); discriminate.
Qed.

(** The heart rate at 72.3 with everything else at baseline: the cardio sum
    is [0.3 / 72 * 30 * 100], 12.5 in exact arithmetic; the sum computed
    is just below, and the target stored is 12, which the score, 12
    before, then keeps. *)
Lemma analytics_below_half :
  Double.weighted cardio (Double.heartRateAt 72.3%float) = 12.499999999999883%float /\
  Double.target (Double.risks (Double.analytics (Double.heartRateAt 72.3%float)) cardio)
    = 12%float /\
  Double.risk_value (Double.risks (Double.analytics (Double.heartRateAt 72.3%float)) cardio)
    = 12%float.
Proof.
  split; [vm_compute; reflexivity|]. split; vm_compute; reflexivity.
Qed.

(** C6, at the failing inputs.  Two constant series (zero standard
    deviation) of six samples get the coefficient 1, of fifteen samples
    -1, where the claim has 0: the computed mean of equal samples is not
    the sample, so the denominator is not zero.  A heart-rate history and
    the same history shifted by 40 get a coefficient above 1.  The matrix
    rebuilt over the constant histories holds 1 for temperature against
    heart rate, and the metabolic target stored from it is 95. *)
Theorem C6_rounding_breaks_range_and_degenerate_case :
  Double.pearsonCorrelation (repeat 72.1%float 6) (repeat 98.6%float 6) = 1%float /\
  Double.pearsonCorrelation (repeat 72.1%float 15) (repeat 98.6%float 15) = (-1)%float /\
  Double.pearsonCorrelation [73.7; 70.2; 73; 71.5; 74.7]%float
                            [113.7; 110.2; 113; 111.5; 114.7]%float
    = 1.0000000000000002%float /\
  (1 <? Double.pearsonCorrelation [73.7; 70.2; 73; 71.5; 74.7]
                                  [113.7; 110.2; 113; 111.5; 114.7])%float = true /\
  Double.correlations (Double.analytics Double.constantHistories) (corrKey temp hr)
    = Some 1%float /\
  Double.target (Double.risks (Double.analytics Double.constantHistories) metabolic)
    = 95%float.
Proof.
  split; [vm_compute; reflexivity|]. split; [vm_compute; reflexivity|].
  split; [vm_compute; reflexivity|]. split; [vm_compute; reflexivity|].
  split; vm_compute; reflexivity.
Qed.

(** X26. In binary64 as in exact arithmetic: fewer than five overlapping
    samples give exactly 0; a rebuild writes, for every ordered pair of
    tracked signals, exactly 1 on the diagonal and elsewhere the
    coefficient of the two chart histories; it leaves vitals and risks as
    they were. *)
Theorem updateCorrelations_binary64 :
  (forall x y, (Nat.min (length x) (length y) < 5)%nat ->
     Double.pearsonCorrelation x y = 0%float) /\
  (forall st i j, In i matrixSignals -> In j matrixSignals ->
     Double.correlations (Double.updateCorrelations st) (corrKey i j) =
     Some (if Signal_eqb i j then 1%float
           else Double.pearsonCorrelation (Double.history (Double.vitals st i))
                                          (Double.history (Double.vitals st j)))) /\
  (forall st, Double.vitals (Double.updateCorrelations st) = Double.vitals st /\
              Double.risks (Double.updateCorrelations st) = Double.risks st).
Proof.
  split; [exact double_pearson_short|].
  split; [|exact double_updateCorrelations_frame].
  intros st i j Hi Hj. rewrite double_updateCorrelations_lookup by assumption.
  reflexivity.
Qed.

Lemma updateCorrelations_binary64_witness :
  Double.pearsonCorrelation [72.1; 72.3]%float [98.6; 98.7]%float = 0%float /\
  Double.correlations (Double.updateCorrelations Double.constantHistories)
                      (corrKey hr hr) = Some 1%float.
Proof.
  destruct updateCorrelations_binary64 as (S & M & _).
  split; [apply S; simpl; lia|].
  rewrite (M Double.constantHistories hr hr); [reflexivity | |]; simpl; tauto.
Defined.

(** ** Status thresholds on the values the simulator stores *)

Lemma upto_In lo hi m : (lo <= m <= hi)%Z -> In m (Double.upto lo hi).
Proof.
  intros H. unfold Double.upto. apply in_map_iff.
  exists (Z.to_nat (m - lo)). split; [lia|].
  apply in_seq. lia.
Qed.

Lemma levelOk_all s :
  forallb (Double.levelOk s) (Double.upto (Double.gridMin s) (Double.gridMax s)) = true.
Proof. destruct s; vm_compute; reflexivity. Qed.

Lemma levelOk_grid s m :
  (Double.gridMin s <= m <= Double.gridMax s)%Z -> Double.levelOk s m = true.
Proof.
  intros H. pose proof (levelOk_all s) as A.
  rewrite forallb_forall in A. apply A, upto_In, H.
Qed.

(** X19. In the default configuration the three integer tables are the
    bounds and baselines in tenths, and for every value [m / 10] within
    the bounds, as the simulator stores it, the status text computed in
    binary64 is: 'Alert' when the distance to the baseline exceeds 35 % of
    the range, 'Watch' when it is between 18 % and 35 %, 'Normal' when it
    is below 18 %.  At a distance of exactly 35 % or 18 % the rounding of
    the quotient decides between the two neighbouring texts. *)
Theorem vitalStatus_levels_on_stored_values :
  forall (s : Signal),
    (Double.tenths (Double.gridMin s) = Double.vmin (Double.vitals Double.state0 s) /\
     Double.tenths (Double.gridBase s) = Double.baseline (Double.vitals Double.state0 s) /\
     Double.tenths (Double.gridMax s) = Double.vmax (Double.vitals Double.state0 s)) /\
    forall (m : Z),
      (Double.gridMin s <= m <= Double.gridMax s)%Z ->
      let shown := Double.vitalStatus (Double.holding s (Double.tenths m) []) in
      let d := (100 * Z.abs (m - Double.gridBase s))%Z in
      let w := (Double.gridMax s - Double.gridMin s)%Z in
      ((35 * w < d)%Z -> shown = "Alert"%string) /\
      ((18 * w < d < 35 * w)%Z -> shown = "Watch"%string) /\
      ((d < 18 * w)%Z -> shown = "Normal"%string) /\
      (d = (35 * w)%Z -> shown = "Alert"%string \/ shown = "Watch"%string) /\
      (d = (18 * w)%Z -> shown = "Watch"%string \/ shown = "Normal"%string).
Proof.
  intros s. split; [destruct s; repeat split; vm_compute; reflexivity|].
  intros m H shown d w.
  pose proof (levelOk_grid s m H) as K. unfold Double.levelOk in K.
  fold shown d w in K.
  assert (Wpos : (0 < w)%Z) by (unfold w; destruct s; simpl; lia).
  destruct (Z.ltb_spec (35 * w) d) as [A|A].
  { apply String.eqb_eq in K. repeat split; intros; try lia; auto. }
  destruct (Z.eqb_spec d (35 * w)) as [B|B].
  { apply orb_true_iff in K. rewrite !String.eqb_eq in K.
    repeat split; intros; try lia; auto. }
  destruct (Z.ltb_spec (18 * w) d) as [C|C].
  { apply String.eqb_eq in K. repeat split; intros; try lia; auto. }
  destruct (Z.eqb_spec d (18 * w)) as [D|D].
  { apply orb_true_iff in K. rewrite !String.eqb_eq in K.
    repeat split; intros; try lia; auto. }
  apply String.eqb_eq in K. repeat split; intros; try lia; auto.
Qed.

Lemma vitalStatus_levels_on_stored_values_witness :
  Double.vitalStatus (Double.holding hrv (Double.tenths 700) []) = "Alert"%string.
Proof.
  destruct (vitalStatus_levels_on_stored_values hrv) as [_ L].
  apply (L 700%Z); simpl; lia.
Defined.

(** Both 30.3 and 53.7 are at exactly 18 % of the range of the heart-rate
    variability from its baseline 42: the first is shown 'Normal', the
    second 'Watch'. *)
Lemma vitalStatus_at_the_threshold :
  Double.vitalStatus (Double.holding hrv (Double.tenths 303) []) = "Normal"%string /\
  Double.vitalStatus (Double.holding hrv (Double.tenths 537) []) = "Watch"%string.
Proof. split; vm_compute; reflexivity. Qed.
